(** * logbull-js: the batching sender, the unique timestamp generator and
      the message formatter, embedded from the TypeScript sources.

    - [Double]       the JavaScript [number] arithmetic the sources rely on
    - [Binary64]     the binary64 numbers of the kernel, to test [Double]
    - [JSDate]       the UTC getters of the built-in [Date]
    - [Timestamp]    core/timestamp.ts (both revisions found in the sources)
    - [Formatting]   internal/formatting.ts, [formatMessage]
    - [Sender]       core/sender.ts
    - [SenderRuns]   runs of events on a sender
    - [Validation]   internal/validation.ts, the checks of [log]
    - [Fields]       internal/formatting.ts, [ensureFields], [mergeFields]
    - [Levels]       the level conversions of the transports *)

From Stdlib Require Import ZArith List Bool Lia String Ascii QArith Sorted.
From Stdlib Require Import Floats Uint63.
From Stdlib Require Qcanon.
From Stdlib Require Import Permutation.
Import ListNotations.

Local Open Scope Z_scope.

(* ================================================================= *)
(** ** JavaScript numbers *)

(** Every [number] of the timestamp code holds an integer: a count of
    milliseconds or nanoseconds.  A JavaScript [number] is an IEEE 754
    binary64 value, so an integer is stored exactly only while its
    magnitude fits a 53-bit significand; beyond that each operation
    returns the nearest representable value, ties to the even
    significand.  Integer-valued doubles are modelled as [Z] with that
    rounding written out.  Overflow to [Infinity] (magnitudes from
    2^1024) is out of reach of 64-bit clock readings and is not
    modelled. *)
Module Double.

(** Nearest binary64 value of the integer [z]. *)
Definition round (z : Z) : Z :=
  let a := Z.abs z in
  if a <? 2 ^ 53 then z
  else
    let e := Z.log2 a - 52 in
    let m := a / 2 ^ e in
    let r := a mod 2 ^ e in
    let up := (2 ^ (e - 1) <? r) || ((r =? 2 ^ (e - 1)) && Z.odd m) in
    Z.sgn z * ((if up then m + 1 else m) * 2 ^ e).

(** [z] is the value of some double. *)
Definition representable (z : Z) : Prop := round z = z.

(** [a + b], [a - b] and [a * b] on numbers. *)
Definition add (a b : Z) : Z := round (a + b).
Definition sub (a b : Z) : Z := round (a - b).
Definition mul (a b : Z) : Z := round (a * b).

(** [Number(n)] for a bigint [n]. *)
Definition ofBigInt (n : Z) : Z := round n.

(** [a <= b] on finite numbers. *)
Definition leb (a b : Z) : bool := a <=? b.

(** [x % d]: the remainder takes the sign of the dividend and is exact. *)
Definition rem (x d : Z) : Z := Z.rem x d.

(** The quotient of two positive integers scaled by [2^-e], rounded
    down, and what is left over, as a fraction [n / d]. *)
Definition scaled_quot (x d e : Z) : Z :=
  if 0 <=? e then x / (d * 2 ^ e) else (x * 2 ^ (- e)) / d.
Definition scaled_rest (x d e : Z) : Z * Z :=
  if 0 <=? e then (x mod (d * 2 ^ e), d * 2 ^ e)
  else ((x * 2 ^ (- e)) mod d, d).

(** [x / d] on numbers, for [0 < x] and [0 < d]: the significand (53
    bits before a carry) and the binary exponent of the correctly
    rounded quotient. *)
Definition div_pos (x d : Z) : Z * Z :=
  let e0 := Z.log2 x - Z.log2 d - 53 in
  let e := if scaled_quot x d e0 <? 2 ^ 53 then e0 else e0 + 1 in
  let m := scaled_quot x d e in
  let '(rn, rd) := scaled_rest x d e in
  let up := (rd <? 2 * rn) || ((2 * rn =? rd) && Z.odd m) in
  ((if up then m + 1 else m), e).

(** [Math.floor(x / d)] for a positive divisor [d]. *)
Definition floor_div (x d : Z) : Z :=
  if x =? 0 then 0
  else
    let '(m, e) := div_pos (Z.abs x) d in
    let sm := Z.sgn x * m in
    if 0 <=? e then sm * 2 ^ e else sm / 2 ^ (- e).

End Double.

(** The same operations on the binary64 numbers of the kernel, to test
    [Double] against.  [ofZ] is for integers in [0, 2^63). *)
Module Binary64.

Definition ofZ (z : Z) : float := of_uint63 (Uint63.of_Z z).

(** The integer a finite float is the floor of. *)
Definition floor (f : float) : option Z :=
  match Prim2SF f with
  | S754_zero _ => Some 0
  | S754_finite s m e =>
      let sm := if s then Z.neg m else Z.pos m in
      Some (if 0 <=? e then sm * 2 ^ e else sm / 2 ^ (- e))
  | _ => None
  end.

(** The value of a float that holds an integer. *)
Definition toZ (f : float) : option Z :=
  match Prim2SF f with
  | S754_finite s m e =>
      if (e <? 0) && negb (Z.pos m mod 2 ^ (- e) =? 0) then None else floor f
  | _ => floor f
  end.

Definition agrees (expected : Z) (found : option Z) : bool :=
  match found with
  | Some v => v =? expected
  | None => false
  end.

(** Pseudo-random 64-bit integers. *)
Fixpoint lcg (n : nat) (seed : Z) : list Z :=
  match n with
  | O => []
  | S k =>
      let next :=
        (seed * 6364136223846793005 + 1442695040888963407) mod 2 ^ 64 in
      next :: lcg k next
  end.

(** An integer below 2^62 of a magnitude that varies with [z]. *)
Definition spread (z : Z) : Z :=
  (z / 4) / 2 ^ ((z mod 4) * 3 + (z / 2 ^ 60) mod 8).

Definition samples : list (Z * Z) := combine (lcg 500 12345) (lcg 500 999).

Definition roundAgrees (p : Z * Z) : bool :=
  let z := spread (fst p) in
  agrees (Double.round z) (toZ (ofZ z)).

Definition sumAgrees (p : Z * Z) : bool :=
  let a := Double.round (spread (fst p)) in
  let b := Double.round (spread (snd p)) in
  agrees (Double.add a b) (toZ (ofZ a + ofZ b))
  && agrees (Double.sub a b) (toZ (ofZ a - ofZ b)).

Definition productAgrees (p : Z * Z) : bool :=
  let a := Double.round (spread (fst p) / 2 ^ 20) in
  let b := snd p mod 2000000 in
  agrees (Double.mul a b) (toZ (ofZ a * ofZ b)).

Definition quotientAgrees (p : Z * Z) : bool :=
  let a := Double.round (spread (fst p)) in
  let d := 1 + snd p mod 3000000000 in
  agrees (Double.floor_div a d) (floor (ofZ a / ofZ d))
  && agrees (Double.floor_div a 1000000000) (floor (ofZ a / ofZ 1000000000)).

(** Quotients by 10^9 of numbers just below a multiple of 10^9. *)
Definition carryAgrees (p : Z * Z) : bool :=
  let k := 1 + fst p mod 9000000000 in
  let a := Double.round (k * 1000000000 - 1 - snd p mod 3000) in
  agrees (Double.floor_div a 1000000000) (floor (ofZ a / ofZ 1000000000)).

End Binary64.

(* ================================================================= *)
(** ** Strings of numbers *)

(** [String(n)], [padStart] and the template pieces [formatTimestamp]
    builds its result from.  A number that may be [NaN] is an
    [option Z], [None] standing for [NaN]. *)
Module JSString.

Local Open Scope string_scope.

Definition digit_char (d : Z) : ascii :=
  ascii_of_nat (48 + Z.to_nat d).

(** The decimal digits of a non-negative integer, most significant
    first; [fuel] bounds the number of digits. *)
Fixpoint digits_of (fuel : nat) (n : Z) (acc : string) : string :=
  match fuel with
  | O => acc
  | S f =>
      let acc' := String (digit_char (n mod 10)) acc in
      if (n <? 10)%Z then acc' else digits_of f (n / 10) acc'
  end.

(** [String(z)] for an integer of magnitude below 10^21, where
    JavaScript prints plain decimal digits. *)
Definition ofInt (z : Z) : string :=
  let a := Z.abs z in
  let ds := digits_of (S (Z.to_nat (Z.log2 a))) a "" in
  if (z <? 0)%Z then String "-" ds else ds.

(** [String(x)] and a template substitution of a number. *)
Definition ofNumber (x : option Z) : string :=
  match x with
  | Some z => ofInt z
  | None => "NaN"
  end.

Fixpoint repeat_char (c : ascii) (n : nat) : string :=
  match n with
  | O => ""
  | S k => String c (repeat_char c k)
  end.

(** [s.padStart(target, c)] for a one-character filler. *)
Definition padStart (target : nat) (c : ascii) (s : string) : string :=
  repeat_char c (target - String.length s) ++ s.

End JSString.

(* ================================================================= *)
(** ** The built-in Date, UTC getters *)

(** The time value of a [Date] and its UTC fields, after the
    ECMAScript definitions (Day, DayFromYear, YearFromTime,
    MonthFromTime, DateFromTime, HourFromTime, ...).  A time value is an
    integer count of milliseconds, or [None] for an invalid date. *)
Module JSDate.

Definition msPerDay : Z := 86400000.
Definition msPerHour : Z := 3600000.
Definition msPerMinute : Z := 60000.
Definition msPerSecond : Z := 1000.
Definition maxTime : Z := 8640000000000000.

(** [new Date(t)]: TimeClip. *)
Definition make (t : Z) : option Z :=
  if maxTime <? Z.abs t then None else Some t.

Definition Day (t : Z) : Z := t / msPerDay.

Definition DayFromYear (y : Z) : Z :=
  365 * (y - 1970) + (y - 1969) / 4 - (y - 1901) / 100 + (y - 1601) / 400.

Definition isLeap (y : Z) : bool :=
  ((y mod 4 =? 0) && negb (y mod 100 =? 0)) || (y mod 400 =? 0).

Definition DaysInYear (y : Z) : Z := if isLeap y then 366 else 365.

(** The year that contains day number [d]: an estimate from the mean
    length of a year, moved by at most one year to the one whose first
    day is the latest not after [d]. *)
Definition YearFromDay (d : Z) : Z :=
  let y := 1970 + (d * 400) / 146097 in
  if d <? DayFromYear y then y - 1
  else if DayFromYear (y + 1) <=? d then y + 1
  else y.

Definition YearFromTime (t : Z) : Z := YearFromDay (Day t).

Definition DayWithinYear (t : Z) : Z :=
  Day t - DayFromYear (YearFromTime t).

Definition InLeapYear (t : Z) : Z :=
  if isLeap (YearFromTime t) then 1 else 0.

Definition MonthFromTime (t : Z) : Z :=
  let d := DayWithinYear t in
  let l := InLeapYear t in
  if d <? 31 then 0
  else if d <? 59 + l then 1
  else if d <? 90 + l then 2
  else if d <? 120 + l then 3
  else if d <? 151 + l then 4
  else if d <? 181 + l then 5
  else if d <? 212 + l then 6
  else if d <? 243 + l then 7
  else if d <? 273 + l then 8
  else if d <? 304 + l then 9
  else if d <? 334 + l then 10
  else 11.

Definition DateFromTime (t : Z) : Z :=
  let d := DayWithinYear t in
  let l := InLeapYear t in
  match MonthFromTime t with
  | 0 => d + 1
  | 1 => d - 30
  | 2 => d - 58 - l
  | 3 => d - 89 - l
  | 4 => d - 119 - l
  | 5 => d - 150 - l
  | 6 => d - 180 - l
  | 7 => d - 211 - l
  | 8 => d - 242 - l
  | 9 => d - 272 - l
  | 10 => d - 303 - l
  | _ => d - 333 - l
  end.

Definition HourFromTime (t : Z) : Z := (t / msPerHour) mod 24.
Definition MinFromTime (t : Z) : Z := (t / msPerMinute) mod 60.
Definition SecFromTime (t : Z) : Z := (t / msPerSecond) mod 60.

Definition getUTCFullYear (date : option Z) : option Z :=
  option_map YearFromTime date.
Definition getUTCMonth (date : option Z) : option Z :=
  option_map MonthFromTime date.
Definition getUTCDate (date : option Z) : option Z :=
  option_map DateFromTime date.
Definition getUTCHours (date : option Z) : option Z :=
  option_map HourFromTime date.
Definition getUTCMinutes (date : option Z) : option Z :=
  option_map MinFromTime date.
Definition getUTCSeconds (date : option Z) : option Z :=
  option_map SecFromTime date.

End JSDate.

(* ================================================================= *)
(** ** core/timestamp.ts *)

(** [formatTimestamp] is the same function in both revisions of the
    file. *)
Module Format.

Import JSString JSDate.
Local Open Scope string_scope.

Definition formatTimestamp (timestampNs : Z) : string :=
  let seconds := Double.floor_div timestampNs 1000000000 in
  let nanos := Double.rem timestampNs 1000000000 in
  let date := make (Double.mul seconds 1000) in
  let year := getUTCFullYear date in
  let month :=
    padStart 2 "0"
      (ofNumber (option_map (fun m => Double.add m 1) (getUTCMonth date))) in
  let day := padStart 2 "0" (ofNumber (getUTCDate date)) in
  let hours := padStart 2 "0" (ofNumber (getUTCHours date)) in
  let minutes := padStart 2 "0" (ofNumber (getUTCMinutes date)) in
  let secs := padStart 2 "0" (ofNumber (getUTCSeconds date)) in
  let nanosStr := padStart 9 "0" (ofInt nanos) in
  ofNumber year ++ "-" ++ month ++ "-" ++ day ++ "T" ++ hours ++ ":"
    ++ minutes ++ ":" ++ secs ++ "." ++ nanosStr ++ "Z".

End Format.

(** The revision that anchors the high-resolution timer to a wall-clock
    baseline.  The module-level variables are the [state]; the clock
    readings one call makes are its [readings]. *)
Module Timestamp.

Record state := mkState {
  lastTimestampNs : Z;
  baselineWallClockMs : Z;
  baselineHrtimeNs : option Z
}.

Definition initial : state := mkState 0 0 None.

(** What the clocks return during one call: [dateNow] and
    [hrtimeBaseline] are read only while the baseline is unset,
    [hrtimeCurrent] is read on every call. *)
Record readings := mkReadings {
  dateNow : Z;
  hrtimeBaseline : Z;
  hrtimeCurrent : Z
}.

(** The baseline after the initialisation block. *)
Definition baselineOf (r : readings) (st : state) : Z * Z :=
  match baselineHrtimeNs st with
  | None => (dateNow r, hrtimeBaseline r)
  | Some h => (baselineWallClockMs st, h)
  end.

(** [currentNsNumber]. *)
Definition candidate (r : readings) (st : state) : Z :=
  let '(wallMs, baseHr) := baselineOf r st in
  let elapsedNs := Double.ofBigInt (hrtimeCurrent r - baseHr) in
  let baselineNs := Double.mul wallMs 1000000 in
  Double.add baselineNs elapsedNs.

(** The state a call leaves behind. *)
Definition advance (r : readings) (st : state) : state :=
  let '(wallMs, baseHr) := baselineOf r st in
  let currentNsNumber := candidate r st in
  let last :=
    if Double.leb currentNsNumber (lastTimestampNs st)
    then Double.add (lastTimestampNs st) 1
    else currentNsNumber in
  mkState last wallMs (Some baseHr).

Definition generateUniqueTimestamp (r : readings) (st : state)
  : string * state :=
  let st' := advance r st in
  (Format.formatTimestamp (lastTimestampNs st'), st').

(** The nanosecond values emitted by a run of calls, oldest first. *)
Fixpoint emitted (rs : list readings) (st : state) : list Z :=
  match rs with
  | [] => []
  | r :: rs' =>
      let st' := advance r st in
      lastTimestampNs st' :: emitted rs' st'
  end.

(** The state after a run of calls. *)
Fixpoint stateAfter (rs : list readings) (st : state) : state :=
  match rs with
  | [] => st
  | r :: rs' => stateAfter rs' (advance r st)
  end.

(** The strings returned by a run of calls. *)
Fixpoint run (rs : list readings) (st : state) : list string :=
  match rs with
  | [] => []
  | r :: rs' =>
      let '(s, st') := generateUniqueTimestamp r st in
      s :: run rs' st'
  end.

End Timestamp.

(** The revision that reads the high-resolution timer alone. *)
Module TimestampHr.

Definition advance (hrtime : Z) (lastTimestampNs : Z) : Z :=
  let currentNsNumber := Double.ofBigInt hrtime in
  if Double.leb currentNsNumber lastTimestampNs
  then Double.add lastTimestampNs 1
  else currentNsNumber.

Definition generateUniqueTimestamp (hrtime : Z) (lastTimestampNs : Z)
  : string * Z :=
  let last := advance hrtime lastTimestampNs in
  (Format.formatTimestamp last, last).

Fixpoint emitted (hs : list Z) (last : Z) : list Z :=
  match hs with
  | [] => []
  | h :: hs' =>
      let last' := advance h last in
      last' :: emitted hs' last'
  end.

End TimestampHr.

(* ================================================================= *)
(** ** internal/formatting.ts *)

(** A message is a JavaScript string: a sequence of UTF-16 code
    units. *)
Module Formatting.

Definition jsstring := list N.

Definition MAX_MESSAGE_LENGTH : Z := 10000.

(** [s.length]. *)
Definition jslength (s : jsstring) : Z := Z.of_nat (List.length s).

(** The code units [trim] strips: WhiteSpace and LineTerminator. *)
Definition isWhiteSpace (c : N) : bool :=
  ((9 <=? c) && (c <=? 13) || (c =? 32) || (c =? 160) || (c =? 5760)
   || (8192 <=? c) && (c <=? 8202) || (c =? 8232) || (c =? 8233)
   || (c =? 8239) || (c =? 8287) || (c =? 12288) || (c =? 65279))%N.

Fixpoint trimStart (s : jsstring) : jsstring :=
  match s with
  | [] => []
  | c :: rest => if isWhiteSpace c then trimStart rest else s
  end.

Definition trimEnd (s : jsstring) : jsstring := rev (trimStart (rev s)).

Definition trim (s : jsstring) : jsstring := trimEnd (trimStart s).

(** [s.substring(0, n)]; a negative [n] counts as zero. *)
Definition substring0 (n : Z) (s : jsstring) : jsstring :=
  firstn (Z.to_nat n) s.

(** The literal of three full stops. *)
Definition ellipsis : jsstring := [46; 46; 46]%N.

Definition formatMessage (message : jsstring) : jsstring :=
  let trimmed := trim message in
  if MAX_MESSAGE_LENGTH <? jslength trimmed
  then substring0 (MAX_MESSAGE_LENGTH - 3) trimmed ++ ellipsis
  else trimmed.

End Formatting.

(* ================================================================= *)
(** ** core/sender.ts *)

Module Sender.

Definition BATCH_SIZE : Z := 1000.
Definition QUEUE_CAPACITY : Z := 10000.
Definition BATCH_INTERVAL_MS : Z := 1000.
Definition HTTP_TIMEOUT_MS : Z := 30000.

(** *** core/types.ts *)

Record Config := mkConfig {
  projectId : string;
  host : string;
  apiKey : option string
}.

Record LogEntry := mkLogEntry {
  level : string;
  message : Formatting.jsstring;
  timestamp : string;
  fields : list (string * string)
}.

(** A JSON number of a response is a decimal fraction. *)
Record RejectedLog := mkRejectedLog {
  index : Q;
  rejectedMessage : string
}.

Record LogBullResponse := mkResponse {
  accepted : Q;
  rejected : Q;
  responseMessage : option string;
  errors : option (list RejectedLog)
}.

(** What [JSON.parse] makes of a response body: a syntax error, the
    value [null], a value without a [rejected] property (a number, a
    string, an object such as [{}]), or an object of the declared
    response type. *)
Inductive parsed :=
| ParseError (msg : string)
| ParsedNull
| ParsedOther
| Parsed (r : LogBullResponse).

(** How the HTTP exchange behind [makeRequest] ends. *)
Inductive exchange :=
| Responds (status : Z) (body : string)
| Fails (msg : string).

Record request := mkRequest {
  url : string;
  headers : list (string * string);
  data : string
}.

(** *** The lines written to [console.error] *)

Inductive diagnostic :=
| QueueFull
| ServerStatus (status : Z) (body : string)
| RequestFailed (msg : string)
| RejectedCount (n : Q)
| RejectedDetails
| RejectedLogLine (index : Q) (msg : string)
| RejectedLevel (level : string)
| RejectedMessage (message : Formatting.jsstring)
| RejectedTimestamp (timestamp : string)
| RejectedFields (fields : list (string * string)).

(** *** The sender object and what it has done to the outside *)

Record sender := mkSender {
  config : Config;
  logQueue : list LogEntry;
  intervalId : bool;              (* the interval timer is set *)
  stopped : bool;
  inFlightRequests : Z;
  dispatched : list (list LogEntry);  (* arguments of sendHTTPRequest *)
  requests : list request;            (* calls of makeRequest *)
  console : list diagnostic           (* calls of console.error *)
}.

Definition setQueue (q : list LogEntry) (s : sender) : sender :=
  mkSender (config s) q (intervalId s) (stopped s) (inFlightRequests s)
    (dispatched s) (requests s) (console s).
Definition setIntervalId (b : bool) (s : sender) : sender :=
  mkSender (config s) (logQueue s) b (stopped s) (inFlightRequests s)
    (dispatched s) (requests s) (console s).
Definition setStopped (b : bool) (s : sender) : sender :=
  mkSender (config s) (logQueue s) (intervalId s) b (inFlightRequests s)
    (dispatched s) (requests s) (console s).
Definition setInFlight (n : Z) (s : sender) : sender :=
  mkSender (config s) (logQueue s) (intervalId s) (stopped s) n
    (dispatched s) (requests s) (console s).
Definition addDispatched (b : list LogEntry) (s : sender) : sender :=
  mkSender (config s) (logQueue s) (intervalId s) (stopped s)
    (inFlightRequests s) (dispatched s ++ [b]) (requests s) (console s).
Definition addRequest (r : request) (s : sender) : sender :=
  mkSender (config s) (logQueue s) (intervalId s) (stopped s)
    (inFlightRequests s) (dispatched s) (requests s ++ [r]) (console s).
Definition addConsole (d : diagnostic) (s : sender) : sender :=
  mkSender (config s) (logQueue s) (intervalId s) (stopped s)
    (inFlightRequests s) (dispatched s) (requests s) (console s ++ [d]).

(** *** Statements that may throw *)

Inductive result (A : Type) :=
| Ok (a : A)
| Thrown (msg : string).
Arguments Ok {A} a.
Arguments Thrown {A} msg.

Definition M (A : Type) : Type := sender -> result A * sender.

Definition ret {A} (a : A) : M A := fun s => (Ok a, s).
Definition throw {A} (msg : string) : M A := fun s => (Thrown msg, s).
Definition bind {A B} (c : M A) (k : A -> M B) : M B :=
  fun s =>
    match c s with
    | (Ok a, s') => k a s'
    | (Thrown msg, s') => (Thrown msg, s')
    end.
Definition modify (f : sender -> sender) : M unit :=
  fun s => (Ok tt, f s).
Definition get {A} (f : sender -> A) : M A := fun s => (Ok (f s), s).

(** [try { body } catch (error) { handler }] *)
Definition tryCatch {A} (body : M A) (handler : string -> M A) : M A :=
  fun s =>
    match body s with
    | (Ok a, s') => (Ok a, s')
    | (Thrown msg, s') => handler msg s'
    end.

(** [try { body } finally { cleanup }] *)
Definition tryFinally {A} (body : M A) (cleanup : M unit) : M A :=
  fun s =>
    match body s with
    | (r, s') =>
        match cleanup s' with
        | (Ok _, s'') => (r, s'')
        | (Thrown msg, s'') => (Thrown msg, s'')
        end
    end.

Declare Scope sender_scope.
Delimit Scope sender_scope with sender.
Notation "x <- c ;; k" := (bind c (fun x => k))
  (at level 61, c at next level, right associativity) : sender_scope.
Notation "c ;; k" := (bind c (fun _ => k))
  (at level 61, right associativity) : sender_scope.
Local Open Scope sender_scope.

Definition consoleError (d : diagnostic) : M unit := modify (addConsole d).

(** [for (const x of xs) { body x }] *)
Fixpoint forOf {A} (xs : list A) (body : A -> M unit) : M unit :=
  match xs with
  | [] => ret tt
  | x :: rest => body x ;; forOf rest body
  end.

(** [new Sender(config)]: the constructor starts the batch timer. *)
Definition create (c : Config) : sender :=
  mkSender c [] true false 0 [] [] [].

(** *** addLog *)

Definition addLog (entry : LogEntry) : M unit :=
  isStopped <- get stopped ;;
  if isStopped : bool then ret tt
  else
    q <- get logQueue ;;
    if QUEUE_CAPACITY <=? Z.of_nat (List.length q)
    then consoleError QueueFull
    else modify (setQueue (q ++ [entry])).

(** *** sendHTTPRequest and handleRejectedLogs *)

(** [JSON.stringify] and [JSON.parse] are built in; the sender is
    read for any behaviour of them. *)
Section Dispatch.

Variable JSON_stringify : list LogEntry -> result string.
Variable JSON_parse : string -> parsed.

Definition Qlt_bool (x y : Q) : bool := negb (Qle_bool y x).

(** [xs[i]] for a number [i]: an element only at an integer
    position inside the array, [undefined] otherwise. *)
Definition arrayGet {A} (xs : list A) (i : Q) : option A :=
  let r := Qred i in
  if (Qden r =? 1)%positive && (0 <=? Qnum r)
  then nth_error xs (Z.to_nat (Qnum r))
  else None.

(** The body of the loop over [response.errors]. *)
Definition reportRejected (sentLogs : list LogEntry) (error : RejectedLog)
  : M unit :=
  if Qle_bool 0 (index error)
     && Qlt_bool (index error) (inject_Z (Z.of_nat (List.length sentLogs)))
  then
    let log := arrayGet sentLogs (index error) in
    consoleError (RejectedLogLine (index error) (rejectedMessage error)) ;;
    match log with
    | None => throw "Cannot read properties of undefined (reading 'level')"
    | Some l =>
        consoleError (RejectedLevel (level l)) ;;
        consoleError (RejectedMessage (message l)) ;;
        consoleError (RejectedTimestamp (timestamp l)) ;;
        if (0 <? List.length (fields l))%nat
        then consoleError (RejectedFields (fields l))
        else ret tt
    end
  else ret tt.

Definition handleRejectedLogs (response : LogBullResponse)
    (sentLogs : list LogEntry) : M unit :=
  consoleError (RejectedCount (rejected response)) ;;
  match errors response with
  | Some (e :: es) =>
      consoleError RejectedDetails ;;
      forOf (e :: es) (reportRejected sentLogs)
  | _ => ret tt
  end.

Definition buildRequest (c : Config) (body : string) : request :=
  let base :=
    [("Content-Type", "application/json");
     ("User-Agent", "LogBull-JS-Client/1.0")]%string in
  let hs :=
    match apiKey c with
    | Some k => if (k =? "")%string then base else base ++ [("X-API-Key"%string, k)]
    | None => base
    end in
  mkRequest (host c ++ "/api/v1/logs/receiving/" ++ projectId c)%string hs body.

(** [this.inFlightRequests++] and [this.inFlightRequests--]. *)
Definition acquire : M unit :=
  modify (fun s => setInFlight (Double.add (inFlightRequests s) 1) s).
Definition release : M unit :=
  modify (fun s => setInFlight (Double.sub (inFlightRequests s) 1) s).

(** The [catch] block of [sendHTTPRequest]. *)
Definition onError (msg : string) : M unit :=
  consoleError (RequestFailed msg).

(** The [try] block up to the call of [makeRequest]. *)
Definition prepare (logs : list LogEntry) : M unit :=
  match JSON_stringify logs with
  | Thrown msg => throw msg
  | Ok body =>
      c <- get config ;;
      modify (addRequest (buildRequest c body))
  end.

(** The [try] block from the value of [await this.makeRequest(...)]
    on. *)
Definition afterRequest (logs : list LogEntry) (x : exchange) : M unit :=
  match x with
  | Fails msg => throw msg
  | Responds status body =>
      if negb (status =? 200) && negb (status =? 202)
      then consoleError (ServerStatus status body)
      else
        match JSON_parse body with
        | ParseError _ => ret tt
        | ParsedNull =>
            throw "Cannot read properties of null (reading 'rejected')"
        | ParsedOther => ret tt
        | Parsed responseData =>
            if Qlt_bool 0 (rejected responseData)
            then handleRejectedLogs responseData logs
            else ret tt
        end
  end.

(** One dispatch from its call to the settling of its promise, the
    exchange ending as [x]: [Ok] is a fulfilled promise, [Thrown] a
    rejected one. *)
Definition sendHTTPRequest (logs : list LogEntry) (x : exchange) : M unit :=
  modify (addDispatched logs) ;;
  acquire ;;
  tryFinally
    (tryCatch (prepare logs ;; afterRequest logs x) onError)
    release.

(** The same function cut at its [await].  [sendHTTPRequestStart]
    runs inside the caller and answers whether a request is now in
    flight; [sendHTTPRequestResume] runs when the exchange ends. *)
Definition sendHTTPRequestStart (logs : list LogEntry) : M bool :=
  modify (addDispatched logs) ;;
  acquire ;;
  fun s =>
    match prepare logs s with
    | (Ok _, s') => (Ok true, s')
    | (Thrown msg, s') =>
        match tryFinally (onError msg) release s' with
        | (Ok _, s'') => (Ok false, s'')
        | (Thrown m, s'') => (Thrown m, s'')
        end
    end.

Definition sendHTTPRequestResume (logs : list LogEntry) (x : exchange)
  : M unit :=
  tryFinally (tryCatch (afterRequest logs x) onError) release.

(** *** sendBatch, flush, the timer and shutdown *)

Definition sendBatch : M unit :=
  q <- get logQueue ;;
  if (List.length q =? 0)%nat then ret tt
  else
    let logsToSend := firstn (Z.to_nat BATCH_SIZE) q in
    modify (setQueue (skipn (Z.to_nat BATCH_SIZE) q)) ;;
    sendHTTPRequestStart logsToSend ;;
    ret tt.

Definition flush : M unit := sendBatch.

(** The callback of [setInterval]; a cleared timer does not fire. *)
Definition tick : M unit :=
  active <- get intervalId ;;
  if active : bool then sendBatch else ret tt.

(** [shutdown] up to its polling loop. *)
Definition shutdown : M unit :=
  isStopped <- get stopped ;;
  if isStopped : bool then ret tt
  else
    modify (setStopped true) ;;
    active <- get intervalId ;;
    (if active : bool then modify (setIntervalId false) else ret tt) ;;
    sendBatch.

(** The condition of the polling loop that ends [shutdown]; the loop
    body only sleeps. *)
Definition stillWaiting (startTime now : Z) (s : sender) : bool :=
  (0 <? inFlightRequests s) && (Double.sub now startTime <? 5000).

(** What can happen to a sender. *)
Inductive event :=
| AddLog (entry : LogEntry)
| Flush
| Tick
| Shutdown
| Settle (logs : list LogEntry) (x : exchange).

Definition step (ev : event) : M unit :=
  match ev with
  | AddLog entry => addLog entry
  | Flush => flush
  | Tick => tick
  | Shutdown => shutdown
  | Settle logs x => sendHTTPRequestResume logs x
  end.

Fixpoint run (evs : list event) (s : sender) : sender :=
  match evs with
  | [] => s
  | ev :: rest => run rest (snd (step ev s))
  end.

(** [flush] called until the queue is empty, at most [fuel] times:
    the batches a consumer retrieves. *)
Fixpoint drain (fuel : nat) (s : sender) : sender :=
  match fuel with
  | O => s
  | S f =>
      match logQueue s with
      | [] => s
      | _ => drain f (snd (flush s))
      end
  end.

End Dispatch.

(** The computation [c] leaves the part [f] of the sender as it
    was. *)
Definition preserves {A X} (f : sender -> X) (c : M A) : Prop :=
  forall s, f (snd (c s)) = f s.

(** A caller that only enqueues and shuts down: [Some entry] is a
    call of [addLog], [None] a call of [shutdown]. *)
Definition callerEvent (m : option LogEntry) : event :=
  match m with
  | Some entry => AddLog entry
  | None => Shutdown
  end.

(** The lines a rejection at the integer position [i] of the batch
    calls for: none when [i] is outside the batch. *)
Definition linesFor (sentLogs : list LogEntry) (i : Z) (msg : string)
  : list diagnostic :=
  if (0 <=? i) && (i <? Z.of_nat (List.length sentLogs))
  then
    match nth_error sentLogs (Z.to_nat i) with
    | Some l =>
        [RejectedLogLine (inject_Z i) msg; RejectedLevel (level l);
         RejectedMessage (message l); RejectedTimestamp (timestamp l)]
        ++ match fields l with
           | [] => []
           | _ :: _ => [RejectedFields (fields l)]
           end
    | None => []
    end
  else [].

(** A rejection record with an integer index. *)
Definition rejectedAt (r : Z * string) : RejectedLog :=
  mkRejectedLog (inject_Z (fst r)) (snd r).

(** [this.logQueue.length]. *)
Definition qlen (s : sender) : Z := Z.of_nat (List.length (logQueue s)).

(** [addLog] called for a list of entries one after the other. *)
Definition addLogs (es : list LogEntry) (s : sender) : sender :=
  fold_left (fun s e => snd (addLog e s)) es s.

(** Entries told apart by their message, for runs of the sender on
    concrete queues. *)
Definition entryNo (i : nat) : LogEntry :=
  mkLogEntry "INFO" [N.of_nat i] "2025-10-09T08:53:20.000000000Z" [].

Definition entries (n : nat) : list LogEntry := map entryNo (seq 0 n).

End Sender.

(* ================================================================= *)
(** ** The calendar and the text of a timestamp, as the specification
       words them *)

(** These definitions do not come from the code: they say what
    [YYYY-MM-DDTHH:MM:SS.NNNNNNNNNZ] of a number of seconds since the
    epoch means, for comparison with [Format.formatTimestamp]. *)
Module TimeSpec.

Definition leapYear (y : Z) : bool :=
  if y mod 400 =? 0 then true
  else if y mod 100 =? 0 then false
  else y mod 4 =? 0.

Definition daysInYear (y : Z) : Z := if leapYear y then 366 else 365.

Definition daysInMonth (y m : Z) : Z :=
  match m with
  | 2 => if leapYear y then 29 else 28
  | 4 | 6 | 9 | 11 => 30
  | _ => 31
  end.

(** The integers [a], [a + 1], ..., [a + n - 1]. *)
Fixpoint upFrom (a : Z) (n : nat) : list Z :=
  match n with
  | O => []
  | S k => a :: upFrom (a + 1) k
  end.

Definition sumZ (l : list Z) : Z := fold_right Z.add 0 l.

(** Days from 1 January 1970 to 1 January of year [y]. *)
Definition daysBeforeYear (y : Z) : Z :=
  sumZ (map daysInYear (upFrom 1970 (Z.to_nat (y - 1970)))).

(** Days from 1 January of year [y] to the first of its month [m]. *)
Definition daysBeforeMonth (y m : Z) : Z :=
  sumZ (map (daysInMonth y) (upFrom 1 (Z.to_nat (m - 1)))).

Record fields := mkFields {
  year : Z; month : Z; day : Z; hour : Z; minute : Z; second : Z
}.

(** A date of the Gregorian calendar with a four-digit year from 1970
    and a time of day. *)
Definition valid (f : fields) : Prop :=
  1970 <= year f <= 9999 /\
  1 <= month f <= 12 /\
  1 <= day f <= daysInMonth (year f) (month f) /\
  0 <= hour f < 24 /\ 0 <= minute f < 60 /\ 0 <= second f < 60.

(** Seconds from the epoch to the instant [f] names, in UTC. *)
Definition secondsSinceEpoch (f : fields) : Z :=
  86400 * (daysBeforeYear (year f) + daysBeforeMonth (year f) (month f)
           + (day f - 1))
  + 3600 * hour f + 60 * minute f + second f.

(** [n] written with exactly [k] decimal digits, zeros on the left. *)
Fixpoint decimal (k : nat) (n : Z) : string :=
  match k with
  | O => EmptyString
  | S k' =>
      (decimal k' (n / 10)
         ++ String (JSString.digit_char (n mod 10)) EmptyString)%string
  end.

(** [YYYY-MM-DDTHH:MM:SS.NNNNNNNNNZ]. *)
Definition render (f : fields) (nanos : Z) : string :=
  (decimal 4 (year f) ++ "-" ++ decimal 2 (month f) ++ "-"
    ++ decimal 2 (day f) ++ "T" ++ decimal 2 (hour f) ++ ":"
    ++ decimal 2 (minute f) ++ ":" ++ decimal 2 (second f) ++ "."
    ++ decimal 9 nanos ++ "Z")%string.

(** What the specification asks of the text [s] for the count [ns]
    of nanoseconds. *)
Definition timestampOf (ns : Z) (s : string) : Prop :=
  exists f, valid f /\
    secondsSinceEpoch f = ns / 1000000000 /\
    s = render f (ns mod 1000000000).

(** [n] has [k] decimal digits. *)
Definition width (k : nat) (n : Z) : Prop :=
  0 <= n < 10 ^ Z.of_nat k /\ (k = 1%nat \/ 10 ^ (Z.of_nat k - 1) <= n).

End TimeSpec.

(* ================================================================= *)
(** ** Runs of the generator and of the sender *)

(** The strings a run of calls of the revision without a baseline
    returns, oldest first. *)
Module TimestampRuns.

Fixpoint returned (hs : list Z) (last : Z) : list string :=
  match hs with
  | [] => []
  | h :: hs' =>
      let '(s, last') := TimestampHr.generateUniqueTimestamp h last in
      s :: returned hs' last'
  end.

End TimestampRuns.

(** What a run of events asks of the sender and what the sender has
    done about it. *)
Module SenderRuns.

Import Sender.

(** The entries the callers passed to [addLog], in call order. *)
Definition enqueuedBy (ev : event) : list LogEntry :=
  match ev with
  | AddLog entry => [entry]
  | _ => []
  end.

Definition enqueued (evs : list event) : list LogEntry :=
  flat_map enqueuedBy evs.

Definition isShutdown (ev : event) : bool :=
  match ev with
  | Shutdown => true
  | _ => false
  end.

Definition isSettle (ev : event) : bool :=
  match ev with
  | Settle _ _ => true
  | _ => false
  end.

(** The number of exchanges that have ended. *)
Definition settled (evs : list event) : Z :=
  Z.of_nat (List.length (filter isSettle evs)).

(** A batch of at least one entry and at most
    [BATCH_SIZE] entries. *)
Definition wellSized (batch : list LogEntry) : Prop :=
  1 <= Z.of_nat (List.length batch) <= BATCH_SIZE.

(** Every entry the sender holds or has handed to
    [sendHTTPRequest], oldest first. *)
Definition delivered (s : sender) : list LogEntry :=
  List.concat (dispatched s) ++ logQueue s.

(** The number of lines [LogBull: log queue full, dropping log] on
    [console.error]. *)
Definition isQueueFull (d : diagnostic) : bool :=
  match d with
  | QueueFull => true
  | _ => false
  end.

Definition queueFullLines (s : sender) : Z :=
  Z.of_nat (List.length (filter isQueueFull (console s))).

(** What the counter [inFlightRequests] is ahead of the requests
    made. *)
Definition balance (s : sender) : Z :=
  inFlightRequests s - Z.of_nat (List.length (requests s)).

(** [xs] is [ys] with some elements left out. *)
Inductive Subsequence {A} : list A -> list A -> Prop :=
| SubNil : Subsequence [] []
| SubSkip x xs ys : Subsequence xs ys -> Subsequence xs (x :: ys)
| SubKeep x xs ys : Subsequence xs ys -> Subsequence (x :: xs) (x :: ys).

(** The polling loop that ends [shutdown].  Each element of [polls]
    is what one evaluation of the loop condition sees: the value of
    [Date.now()] and the sender at that moment.  The result is the
    number of times the loop body, a sleep of 100 ms, has run when the
    loop ends; [None] when the observations run out first. *)
Fixpoint waitLoop (startTime : Z) (polls : list (Z * sender)) : option nat :=
  match polls with
  | [] => None
  | (now, s) :: rest =>
      if stillWaiting startTime now s
      then option_map S (waitLoop startTime rest)
      else Some O
  end.

(** A sender, builtins and a run of events to read the theorems at. *)
Definition aConfig : Config :=
  mkConfig "12345678-1234-1234-1234-123456789012" "http://localhost:4005"
    None.

Definition aStringify (logs : list LogEntry) : result string :=
  Ok "{}"%string.

Definition aParse (body : string) : parsed :=
  Parsed (mkResponse 1 1 None (Some (map rejectedAt [(0, "too long"%string)]))).

Definition someEvents : list event :=
  [AddLog (entryNo 0); AddLog (entryNo 1); Flush; AddLog (entryNo 2); Tick;
   Settle [entryNo 0; entryNo 1] (Responds 202 "{}"); AddLog (entryNo 3)].

End SenderRuns.

(* ================================================================= *)
(** ** internal/validation.ts *)

(** The two checks [LogBullLogger.log] runs before it builds an
    entry.  An object of fields is given by what [Object.entries]
    lists of it, in that order; [None] is a value that is falsy. *)
Module Validation.

Import Formatting.

Definition MAX_MESSAGE_LENGTH : Z := 10000.
Definition MAX_FIELDS_COUNT : Z := 100.
Definition MAX_FIELD_KEY_LENGTH : Z := 100.

Definition validateLogMessage (message : jsstring) : Sender.result unit :=
  let trimmed := trim message in
  match trimmed with
  | [] => Sender.Thrown "Log message cannot be empty"
  | _ :: _ =>
      if MAX_MESSAGE_LENGTH <? jslength trimmed
      then Sender.Thrown
             ("Log message too long (" ++ JSString.ofInt (jslength trimmed)
              ++ " chars). Maximum allowed: "
              ++ JSString.ofInt MAX_MESSAGE_LENGTH)%string
      else Sender.Ok tt
  end.

(** The loop over the keys. *)
Fixpoint validateKeys (keys : list jsstring) : Sender.result unit :=
  match keys with
  | [] => Sender.Ok tt
  | key :: rest =>
      let trimmedKey := trim key in
      match trimmedKey with
      | [] => Sender.Thrown "Field key cannot be empty"
      | _ :: _ =>
          if MAX_FIELD_KEY_LENGTH <? jslength trimmedKey
          then Sender.Thrown
                 ("Field key too long (" ++ JSString.ofInt (jslength trimmedKey)
                  ++ " chars). Maximum: "
                  ++ JSString.ofInt MAX_FIELD_KEY_LENGTH)%string
          else validateKeys rest
      end
  end.

Definition validateLogFields {V} (fields : option (list (jsstring * V)))
  : Sender.result unit :=
  match fields with
  | None => Sender.Ok tt
  | Some entries =>
      let keys := map fst entries in
      if MAX_FIELDS_COUNT <? Z.of_nat (List.length keys)
      then Sender.Thrown
             ("Too many fields ("
              ++ JSString.ofInt (Z.of_nat (List.length keys))
              ++ "). Maximum allowed: "
              ++ JSString.ofInt MAX_FIELDS_COUNT)%string
      else validateKeys keys
  end.

End Validation.

(* ================================================================= *)
(** ** internal/formatting.ts, the fields *)

(** A field value is any JavaScript value.  [undefined], [null] and
    strings are written out; every other value (a number, a boolean,
    an array, an object, a function, a symbol, a bigint) is an [other],
    of which the code only asks what [JSON.stringify] and [String]
    make of it; they are taken to answer the same each time they are
    asked about a value.

    An object of fields is the list of its own enumerable properties,
    as [Object.entries] gives them.  It is created by the literal
    [{}], so its prototype is [Object.prototype], of the standard
    library as shipped: an assignment [o[k] = v] creates or updates the
    own property [k], except for the key [__proto__], which
    [Object.prototype] answers with an accessor.  The order in which an
    object enumerates its keys (index-like keys first) is not
    modelled: the result of a function is read through [get]. *)
Module Fields.

Import Formatting.

Fixpoint jseqb (a b : jsstring) : bool :=
  match a, b with
  | [], [] => true
  | x :: a', y :: b' => (x =? y)%N && jseqb a' b'
  | _, _ => false
  end.

(** The code units of [__proto__]. *)
Definition proto : jsstring := [95; 95; 112; 114; 111; 116; 111; 95; 95]%N.

(** The code units of [null] and of [undefined]. *)
Definition text_null : jsstring := [110; 117; 108; 108]%N.
Definition text_undefined : jsstring :=
  [117; 110; 100; 101; 102; 105; 110; 101; 100]%N.

Inductive value (other : Type) :=
| Undefined
| Null
| Str (s : jsstring)
| Other (o : other).
Arguments Undefined {other}.
Arguments Null {other}.
Arguments Str {other} s.
Arguments Other {other} o.

(** How a call ends: with an object, with an exception, or at an
    assignment to [__proto__] of a value that is neither [undefined]
    nor a string.  Such an assignment can replace the prototype of
    the object under construction ([null], an object), after which
    the assignments depend on that prototype; the call is not followed
    further. *)
Inductive outcome (other : Type) :=
| Returns (o : list (jsstring * value other))
| Throws (msg : string)
| PrototypeReplaced.
Arguments Returns {other} o.
Arguments Throws {other} msg.
Arguments PrototypeReplaced {other}.

Section Values.

Variable other : Type.

(** [JSON.stringify] of a string, the quoted string, and of any other
    value: a text, [undefined] (a function, a symbol) or an
    exception (a cycle, a bigint, a throwing [toJSON]). *)
Variable quote : jsstring -> jsstring.
Variable stringifyOther : other -> Sender.result (option jsstring).

(** [String] of any other value: a text or an exception (an object
    that cannot be converted to a primitive). *)
Variable stringOther : other -> Sender.result jsstring.

Definition object := list (jsstring * value other).

(** [JSON.stringify(value)] *)
Definition JSON_stringify (v : value other)
  : Sender.result (option jsstring) :=
  match v with
  | Undefined => Sender.Ok None
  | Null => Sender.Ok (Some text_null)
  | Str s => Sender.Ok (Some (quote s))
  | Other o => stringifyOther o
  end.

(** [String(value)] *)
Definition stringOf (v : value other) : Sender.result jsstring :=
  match v with
  | Undefined => Sender.Ok text_undefined
  | Null => Sender.Ok text_null
  | Str s => Sender.Ok s
  | Other o => stringOther o
  end.

(** The own property [k] of [o]. *)
Fixpoint get (k : jsstring) (o : object) : option (value other) :=
  match o with
  | [] => None
  | (k', v) :: rest => if jseqb k k' then Some v else get k rest
  end.

Fixpoint assign (k : jsstring) (v : value other) (o : object) : object :=
  match o with
  | [] => [(k, v)]
  | (k', v') :: rest =>
      if jseqb k k' then (k, v) :: rest else (k', v') :: assign k v rest
  end.

(** [o[k] = v].  The setter of [__proto__] ignores [undefined] and
    a string and creates no property; [None]: it is given another
    value and may have replaced the prototype. *)
Definition setProperty (k : jsstring) (v : value other) (o : object)
  : option object :=
  if jseqb k proto
  then match v with
       | Undefined | Str _ => Some o
       | Null | Other _ => None
       end
  else Some (assign k v o).

Definition isJSONSerializable (v : value other) : bool :=
  match JSON_stringify v with
  | Sender.Ok _ => true
  | Sender.Thrown _ => false
  end.

(** The result is a string, or [undefined] where [JSON.stringify]
    returns that. *)
Definition convertToString (v : value other)
  : Sender.result (value other) :=
  match v with
  | Undefined | Null =>
      match stringOf v with
      | Sender.Ok s => Sender.Ok (Str s)
      | Sender.Thrown msg => Sender.Thrown msg
      end
  | _ =>
      match JSON_stringify v with
      | Sender.Ok (Some s) => Sender.Ok (Str s)
      | Sender.Ok None => Sender.Ok Undefined
      | Sender.Thrown _ =>
          match stringOf v with
          | Sender.Ok s => Sender.Ok (Str s)
          | Sender.Thrown msg => Sender.Thrown msg
          end
      end
  end.

(** The loop of [ensureFields] over the entries, [formatted] being
    the object built so far. *)
Fixpoint ensureLoop (entries : list (jsstring * value other))
    (formatted : object) : outcome other :=
  match entries with
  | [] => Returns formatted
  | (key, v) :: rest =>
      let trimmedKey := trim key in
      match trimmedKey with
      | [] => ensureLoop rest formatted
      | _ :: _ =>
          if isJSONSerializable v
          then
            match setProperty trimmedKey v formatted with
            | Some formatted' => ensureLoop rest formatted'
            | None => PrototypeReplaced
            end
          else
            match convertToString v with
            | Sender.Ok s =>
                match setProperty trimmedKey s formatted with
                | Some formatted' => ensureLoop rest formatted'
                | None => PrototypeReplaced
                end
            | Sender.Thrown msg => Throws msg
            end
      end
  end.

Definition ensureFields (fields : option (list (jsstring * value other)))
  : outcome other :=
  match fields with
  | None => Returns []
  | Some entries => ensureLoop entries []
  end.

(** The loop of [mergeFields] over the entries of
    [additionalFormatted]. *)
Fixpoint mergeLoop (entries : list (jsstring * value other))
    (result : object) : outcome other :=
  match entries with
  | [] => Returns result
  | (key, v) :: rest =>
      match setProperty key v result with
      | Some result' => mergeLoop rest result'
      | None => PrototypeReplaced
      end
  end.

Definition mergeFields (base additional
    : option (list (jsstring * value other))) : outcome other :=
  match ensureFields base with
  | Returns result =>
      match ensureFields additional with
      | Returns additionalFormatted => mergeLoop additionalFormatted result
      | Throws msg => Throws msg
      | PrototypeReplaced => PrototypeReplaced
      end
  | Throws msg => Throws msg
  | PrototypeReplaced => PrototypeReplaced
  end.

(** The keys of an object. *)
Definition keys (o : object) : list jsstring := map fst o.

(** An object as [ensureFields] is meant to leave it: every key
    trimmed, not empty and not [__proto__], and every value one
    [JSON.stringify] accepts. *)
Definition sanitized (o : object) : Prop :=
  NoDup (keys o)
  /\ Forall (fun kv =>
       trim (fst kv) = fst kv /\ fst kv <> [] /\ fst kv <> proto
       /\ isJSONSerializable (snd kv) = true) o.

End Values.

Arguments get {other} k o.
Arguments assign {other} k v o.
Arguments setProperty {other} k v o.
Arguments stringOf {other} stringOther v.
Arguments JSON_stringify {other} quote stringifyOther v.
Arguments isJSONSerializable {other} quote stringifyOther v.
Arguments convertToString {other} quote stringifyOther stringOther v.
Arguments ensureLoop {other} quote stringifyOther stringOther entries formatted.
Arguments ensureFields {other} quote stringifyOther stringOther fields.
Arguments mergeLoop {other} entries result.
Arguments mergeFields {other} quote stringifyOther stringOther base additional.
Arguments keys {other} o.
Arguments sanitized {other} quote stringifyOther o.

(** Values to read the theorems at: of the other values, an object
    that refers to itself and a function. *)
Inductive sampleOther := Cyclic | Fn.

Definition sampleQuote (s : jsstring) : jsstring := [34%N] ++ s ++ [34%N].

Definition sampleStringify (o : sampleOther)
  : Sender.result (option jsstring) :=
  match o with
  | Cyclic => Sender.Thrown "Converting circular structure to JSON"
  | Fn => Sender.Ok None
  end.

Definition sampleString (o : sampleOther) : Sender.result jsstring :=
  match o with
  | Cyclic => Sender.Ok [91; 111; 98; 106; 101; 99; 116; 93]%N
  | Fn => Sender.Ok [102; 110]%N
  end.

(** The fields [{" user ": "ann", "loop": <cyclic>, "": null}] and
    [{"user": "bob", "f": <function>}]. *)
Definition sampleBase : list (jsstring * value sampleOther) :=
  [([32; 117; 115; 101; 114; 32]%N, Str [97; 110; 110]%N);
   ([108; 111; 111; 112]%N, Other Cyclic);
   ([], Null)].

Definition sampleAdditional : list (jsstring * value sampleOther) :=
  [([117; 115; 101; 114]%N, Str [98; 111; 98]%N);
   ([102]%N, Other Fn)].

(** What [ensureFields] makes of them. *)
Definition sampleBaseFormatted : list (jsstring * value sampleOther) :=
  [([117; 115; 101; 114]%N, Str [97; 110; 110]%N);
   ([108; 111; 111; 112]%N, Str [91; 111; 98; 106; 101; 99; 116; 93]%N)].

Definition sampleAdditionalFormatted : list (jsstring * value sampleOther) :=
  [([117; 115; 101; 114]%N, Str [98; 111; 98]%N);
   ([102]%N, Other Fn)].

(** The fields [{"a": "1", " a": "2"}], whose keys trim to the same
    text. *)
Definition sampleColliding : list (jsstring * value sampleOther) :=
  [([97]%N, Str [49]%N); ([32; 97]%N, Str [50]%N)].

End Fields.

(* ================================================================= *)
(** ** The levels of the transports *)

(** [convertWinstonLevel] of transports/winston.ts, [convertPinoLevel]
    of transports/pino.ts and [LOG_LEVEL_PRIORITY] of core/types.ts. *)
Module Levels.

Import Formatting.

(** The code units of a literal of the sources. *)
Definition lit (s : string) : jsstring :=
  map (fun c => N.of_nat (nat_of_ascii c)) (list_ascii_of_string s).

(** A level as [Object.entries] of the table lists it. *)
Definition LOG_LEVEL_PRIORITY_entries : list (string * Z) :=
  [("DEBUG", 10); ("INFO", 20); ("WARNING", 30); ("ERROR", 40);
   ("CRITICAL", 50)]%string.

(** [LOG_LEVEL_PRIORITY[level]] for a level one of the conversions
    returns; [None] is [undefined]. *)
Definition LOG_LEVEL_PRIORITY (level : string) : option Z :=
  match find (fun e => String.eqb level (fst e)) LOG_LEVEL_PRIORITY_entries with
  | Some e => Some (snd e)
  | None => None
  end.

(** A number that need not hold an integer: a fraction, an infinity
    or [NaN]. *)
Inductive number :=
| NaN
| Finite (q : Q)
| Infinite (positive : bool).

(** [x >= n] for an integer literal [n]. *)
Definition geq (x : number) (n : Z) : bool :=
  match x with
  | NaN => false
  | Finite q => Qle_bool (inject_Z n) q
  | Infinite positive => positive
  end.

(** [x <= y] as the order of the extended line, which [NaN] is not
    part of. *)
Definition number_le (x y : number) : Prop :=
  match x, y with
  | NaN, _ | _, NaN => False
  | Infinite false, _ => True
  | _, Infinite true => True
  | Finite p, Finite q => (p <= q)%Q
  | _, _ => False
  end.

(** The level of a pino log object. *)
Inductive pinoLevel :=
| LevelNumber (n : number)
| LevelString (s : jsstring).

(** The names [Object.prototype] answers to, besides the own
    properties of an object. *)
Definition objectPrototypeNames : list string :=
  ["constructor"; "__defineGetter__"; "__defineSetter__"; "hasOwnProperty";
   "__lookupGetter__"; "__lookupSetter__"; "isPrototypeOf";
   "propertyIsEnumerable"; "toString"; "valueOf"; "__proto__";
   "toLocaleString"]%string.

Definition levelMap_entries : list (string * Z) :=
  [("fatal", 60); ("error", 50); ("warn", 40); ("info", 30); ("debug", 20);
   ("trace", 10)]%string.

Section Builtins.

(** [String.prototype.toLowerCase] *)
Variable toLowerCase : jsstring -> jsstring.

(** [levelMap[key] || 30].  An own property is its number; a name
    that [Object.prototype] answers to is a function or an object,
    which is truthy and compares as [NaN]; any other key is
    [undefined]. *)
Definition levelMap (key : jsstring) : number :=
  match find (fun e => Fields.jseqb key (lit (fst e))) levelMap_entries with
  | Some e => Finite (inject_Z (snd e))
  | None =>
      if existsb (fun name => Fields.jseqb key (lit name)) objectPrototypeNames
      then NaN
      else Finite 30
  end.

Definition convertPinoLevel (level : pinoLevel) : string :=
  let numLevel :=
    match level with
    | LevelString s => levelMap (toLowerCase s)
    | LevelNumber n => n
    end in
  if geq numLevel 60 then "CRITICAL"
  else if geq numLevel 50 then "ERROR"
  else if geq numLevel 40 then "WARNING"
  else if geq numLevel 30 then "INFO"
  else "DEBUG".

Definition convertWinstonLevel (level : jsstring) : string :=
  let normalized := toLowerCase level in
  if Fields.jseqb normalized (lit "error") then "ERROR"
  else if Fields.jseqb normalized (lit "warn")
          || Fields.jseqb normalized (lit "warning") then "WARNING"
  else if Fields.jseqb normalized (lit "info")
          || Fields.jseqb normalized (lit "http") then "INFO"
  else if Fields.jseqb normalized (lit "verbose")
          || Fields.jseqb normalized (lit "debug")
          || Fields.jseqb normalized (lit "silly") then "DEBUG"
  else "INFO".

End Builtins.

End Levels.

(* ================================================================= *)
(** * Properties *)

(* ================================================================= *)
(** ** Numbers *)

Module DoubleFacts.

Import Double.

Lemma round_small z : Z.abs z < 2 ^ 53 -> round z = z.
Proof.
  intros H. unfold round.
  destruct (Z.ltb_spec (Z.abs z) (2 ^ 53)); [reflexivity | lia].
Qed.

Lemma small_representable z : Z.abs z < 2 ^ 53 -> representable z.
Proof. exact (round_small z). Qed.

Lemma add_small a b : Z.abs (a + b) < 2 ^ 53 -> add a b = a + b.
Proof. apply round_small. Qed.

Lemma sub_small a b : Z.abs (a - b) < 2 ^ 53 -> sub a b = a - b.
Proof. apply round_small. Qed.

Lemma mul_small a b : Z.abs (a * b) < 2 ^ 53 -> mul a b = a * b.
Proof. apply round_small. Qed.

(** Rounding moves a number by at most half the distance between
    neighbouring doubles. *)
Lemma round_error_pos a :
  2 ^ 53 <= a -> Z.abs (round a - a) <= 2 ^ (Z.log2 a - 53).
Proof.
  intros H. assert (T : 0 < 2 ^ 53) by reflexivity.
  unfold round. rewrite (Z.abs_eq a) by lia.
  destruct (Z.ltb_spec a (2 ^ 53)); [lia|].
  rewrite Z.sgn_pos, Z.mul_1_l by lia.
  assert (L : 53 <= Z.log2 a) by (apply Z.log2_le_pow2; lia).
  set (e := Z.log2 a - 52).
  replace (Z.log2 a - 53) with (e - 1) by lia.
  assert (P : 2 ^ e = 2 * 2 ^ (e - 1)).
  { replace e with (Z.succ (e - 1)) at 1 by lia. apply Z.pow_succ_r. lia. }
  assert (Q : 0 < 2 ^ (e - 1)) by (apply Z.pow_pos_nonneg; lia).
  pose proof (Z.div_mod a (2 ^ e) ltac:(lia)) as E.
  pose proof (Z.mod_pos_bound a (2 ^ e) ltac:(lia)) as B.
  set (m := a / 2 ^ e) in *. set (r := a mod 2 ^ e) in *.
  cbv zeta.
  destruct (Z.ltb_spec (2 ^ (e - 1)) r); cbn [orb].
  - nia.
  - destruct (Z.eqb_spec r (2 ^ (e - 1))); cbn [andb]; [destruct (Z.odd m)|]; nia.
Qed.

Lemma round_error z :
  Z.abs (round z - z) <= 2 ^ (Z.log2 (Z.abs z) - 53).
Proof.
  assert (T : 0 < 2 ^ 53) by reflexivity.
  destruct (Z.lt_ge_cases (Z.abs z) (2 ^ 53)) as [S|B].
  - rewrite round_small by exact S.
    rewrite Z.sub_diag. cbn [Z.abs]. apply Z.pow_nonneg. lia.
  - destruct (Z.le_gt_cases 0 z) as [P|N].
    + rewrite (Z.abs_eq z) in * by lia. apply round_error_pos. exact B.
    + pose proof (round_error_pos (- z) ltac:(lia)) as E.
      unfold round in *. rewrite Z.abs_opp in E.
      rewrite (Z.abs_neq z) in * by lia.
      destruct (Z.ltb_spec (- z) (2 ^ 53)); [lia|].
      rewrite Z.sgn_pos in E by lia. rewrite Z.sgn_neg by lia.
      cbv zeta in *. lia.
Qed.

Lemma round_error_below z k :
  Z.abs z < 2 ^ k -> 53 <= k -> Z.abs (round z - z) <= 2 ^ (k - 54).
Proof.
  intros H K. eapply Z.le_trans; [apply round_error|].
  apply Z.pow_le_mono_r; [lia|].
  destruct (Z.eq_dec z 0) as [->|N]; [cbn; lia|].
  assert (Z.log2 (Z.abs z) < k); [|lia].
  apply Z.log2_lt_pow2; lia.
Qed.

End DoubleFacts.

(** [Double] against the binary64 arithmetic of the kernel: at the
    values the timestamp generator meets, and on pseudo-random
    samples. *)
Module DoubleCheck.

Import Binary64.

Example add_one_is_lost :
  PrimFloat.eqb (ofZ 1760000000000000000 + ofZ 1) (ofZ 1760000000000000000)
  = true
  /\ Double.add 1760000000000000000 1 = 1760000000000000000.
Proof. split; vm_compute; reflexivity. Qed.

Example add_rounds_to_even :
  PrimFloat.eqb (ofZ 9007199254740992 + ofZ 1) (ofZ 9007199254740992) = true
  /\ Double.add 9007199254740992 1 = 9007199254740992
  /\ PrimFloat.eqb (ofZ 9007199254740994 + ofZ 1) (ofZ 9007199254740996)
     = true
  /\ Double.add 9007199254740994 1 = 9007199254740996.
Proof.
  repeat match goal with |- _ /\ _ => split end; vm_compute; reflexivity.
Qed.

Example add_elapsed :
  PrimFloat.eqb (ofZ 1760000000000000000 + ofZ 100) (ofZ 1760000000000000000)
  = true
  /\ PrimFloat.eqb (ofZ 1760000000000000000 + ofZ 500)
       (ofZ 1760000000000000512) = true
  /\ Double.add 1760000000000000000 500 = 1760000000000000512.
Proof.
  repeat match goal with |- _ /\ _ => split end; vm_compute; reflexivity.
Qed.

(** The quotient by 10^9 one second short of a carry: binary64 rounds
    it up to the next whole second. *)
Example quotient_rounds_up :
  PrimFloat.eqb (ofZ 8589934592999999488 / ofZ 1000000000) (ofZ 8589934593)
  = true
  /\ Double.floor_div 8589934592999999488 1000000000 = 8589934593
  /\ 8589934592999999488 / 1000000000 = 8589934592.
Proof.
  repeat match goal with |- _ /\ _ => split end; vm_compute; reflexivity.
Qed.

Example quotient_rounds_down :
  PrimFloat.ltb (ofZ 1760000000999999744 / ofZ 1000000000) (ofZ 1760000001)
  = true
  /\ Double.floor_div 1760000000999999744 1000000000 = 1760000000.
Proof.
  repeat match goal with |- _ /\ _ => split end; vm_compute; reflexivity.
Qed.

Example samples_agree :
  forallb roundAgrees samples = true
  /\ forallb sumAgrees samples = true
  /\ forallb productAgrees samples = true
  /\ forallb quotientAgrees samples = true
  /\ forallb carryAgrees samples = true.
Proof.
  repeat match goal with |- _ /\ _ => split end; vm_compute; reflexivity.
Qed.

End DoubleCheck.

(* ================================================================= *)
(** ** The timestamp generator *)

Module TimestampFacts.

Import Timestamp.

(** While the counter is an exactly stored integer, a call moves it
    strictly up. *)
Lemma advance_increases_small r st :
  0 <= lastTimestampNs st < 2 ^ 53 - 1 ->
  lastTimestampNs st < lastTimestampNs (advance r st).
Proof.
  intros H. unfold advance.
  destruct (baselineOf r st) as [wallMs baseHr]. cbn [lastTimestampNs].
  unfold Double.leb.
  destruct (Z.leb_spec (candidate r st) (lastTimestampNs st)).
  - rewrite DoubleFacts.add_small; lia.
  - lia.
Qed.

(** A call on a state with a baseline leaves the baseline alone. *)
Lemma baseline_kept r st :
  baselineHrtimeNs st <> None ->
  baselineWallClockMs (advance r st) = baselineWallClockMs st /\
  baselineHrtimeNs (advance r st) = baselineHrtimeNs st.
Proof.
  intros H. unfold advance, baselineOf.
  destruct (baselineHrtimeNs st) as [h|] eqn:E; [|congruence].
  cbn. split; reflexivity.
Qed.

Lemma baseline_set r st :
  baselineHrtimeNs (advance r st) <> None.
Proof.
  unfold advance. destruct (baselineOf r st). cbn. discriminate.
Qed.

Lemma baseline_first r :
  baselineWallClockMs (advance r initial) = dateNow r /\
  baselineHrtimeNs (advance r initial) = Some (hrtimeBaseline r).
Proof. split; reflexivity. Qed.

(** The baseline is captured by the first call and never again. *)
Lemma baseline_captured_once rs : forall st,
  baselineHrtimeNs st <> None ->
  baselineWallClockMs (stateAfter rs st) = baselineWallClockMs st /\
  baselineHrtimeNs (stateAfter rs st) = baselineHrtimeNs st.
Proof.
  induction rs as [|r rs IH]; intros st H; cbn [stateAfter].
  - split; reflexivity.
  - destruct (baseline_kept r st H) as [A B].
    destruct (IH (advance r st) (baseline_set r st)) as [C D].
    split; congruence.
Qed.

(** C1, at the failing input.  The wall clock reads 1760000000000 ms
    at the first call; the timer reads 5000 ns at the first call, the
    same 5000 ns at the second and 5100 ns at the third.  All three
    calls emit 1760000000000000000 and return the same text: at that
    magnitude [last + 1] is [last] again, and a candidate 100 ns later
    is the same number.  So the emitted values are not strictly
    increasing.  In the revision without a baseline two calls at the
    timer reading 2^53 emit 2^53 twice. *)
Theorem generateUniqueTimestamp_repeats :
  let calls := [mkReadings 1760000000000 5000 5000;
                mkReadings 1760000000001 5000 5000;
                mkReadings 1760000000001 5100 5100] in
  emitted calls initial
  = [1760000000000000000; 1760000000000000000; 1760000000000000000]
  /\ run calls initial
     = ["2025-10-09T08:53:20.000000000Z"%string;
        "2025-10-09T08:53:20.000000000Z"%string;
        "2025-10-09T08:53:20.000000000Z"%string]
  /\ TimestampHr.emitted [9007199254740992; 9007199254740992] 0
     = [9007199254740992; 9007199254740992].
Proof.
  intros calls.
  repeat match goal with |- _ /\ _ => split end; vm_compute; reflexivity.
Qed.

(** Where the claim of C1 does hold: as long as every emitted value is
    an integer below 2^53 - 1, a run of calls emits strictly increasing
    values. *)
Lemma emitted_increasing_small rs : forall st,
  0 <= lastTimestampNs st < 2 ^ 53 - 1 ->
  Forall (fun v => v < 2 ^ 53 - 1) (emitted rs st) ->
  StronglySorted Z.lt (lastTimestampNs st :: emitted rs st).
Proof.
  induction rs as [|r rs IH]; intros st H F; cbn [emitted] in *.
  - repeat constructor.
  - pose proof (advance_increases_small r st H) as Up.
    inversion F as [|v vs Fv Fvs]; subst.
    specialize (IH (advance r st) ltac:(lia) Fvs).
    constructor; [exact IH|].
    constructor; [exact Up|].
    apply StronglySorted_inv in IH. destruct IH as [_ Hall].
    eapply Forall_impl; [|exact Hall]. cbn. intros a Ha. lia.
Qed.

Lemma baseline_after before r :
  baselineOf r (stateAfter before initial)
  = (dateNow (hd r before), hrtimeBaseline (hd r before)).
Proof.
  destruct before as [|r0 rs]; [reflexivity|].
  cbn [stateAfter hd]. unfold baselineOf.
  destruct (baseline_captured_once rs (advance r0 initial)
              (baseline_set r0 initial)) as [A B].
  rewrite A, B. reflexivity.
Qed.

(** A call whose candidate exceeds the last emitted value emits the
    sum, as numbers, of the wall-clock milliseconds read by the first
    call of all, times 10^6, and of the timer reading of the call less
    the timer reading the first call took as its baseline. *)
Lemma emitted_is_rounded_sum (before : list readings) (r : readings) :
  let st := stateAfter before initial in
  let first := hd r before in
  Double.leb (candidate r st) (lastTimestampNs st) = false ->
  lastTimestampNs (advance r st)
  = Double.add (Double.mul (dateNow first) 1000000)
      (Double.ofBigInt (hrtimeCurrent r - hrtimeBaseline first)).
Proof.
  intros st first H. unfold advance.
  assert (C : candidate r st
              = Double.add (Double.mul (dateNow first) 1000000)
                  (Double.ofBigInt (hrtimeCurrent r - hrtimeBaseline first))).
  { unfold candidate, st. rewrite baseline_after. reflexivity. }
  destruct (baselineOf r st) as [wallMs baseHr].
  cbn [lastTimestampNs]. rewrite H. exact C.
Qed.

(** How far the candidate is from the exact sum: with a wall clock
    before the year 2248 and less than 2^53 ns elapsed, at most
    1536 ns. *)
Lemma candidate_accuracy (before : list readings) (r : readings) :
  let st := stateAfter before initial in
  let first := hd r before in
  let elapsed := hrtimeCurrent r - hrtimeBaseline first in
  0 <= dateNow first < 2 ^ 43 -> 0 <= elapsed < 2 ^ 53 ->
  Z.abs (candidate r st - (dateNow first * 1000000 + elapsed)) <= 1536.
Proof.
  intros st first elapsed Hm He.
  unfold candidate, st. rewrite baseline_after. fold first. fold elapsed.
  unfold Double.ofBigInt. rewrite (DoubleFacts.round_small elapsed) by lia.
  unfold Double.add, Double.mul.
  set (x := dateNow first * 1000000).
  assert (T43 : 2 ^ 43 = 8796093022208) by reflexivity.
  assert (T53 : 2 ^ 53 = 9007199254740992) by reflexivity.
  assert (T63 : 2 ^ 63 = 9223372036854775808) by reflexivity.
  assert (T64 : 2 ^ 64 = 18446744073709551616) by reflexivity.
  assert (Hx : Z.abs x < 2 ^ 63) by (subst x; lia).
  pose proof (DoubleFacts.round_error_below x 63 Hx ltac:(lia)) as E1.
  change (2 ^ (63 - 54)) with 512 in E1.
  assert (Hy : Z.abs (Double.round x + elapsed) < 2 ^ 64) by lia.
  pose proof (DoubleFacts.round_error_below (Double.round x + elapsed) 64 Hy ltac:(lia)) as E2.
  change (2 ^ (64 - 54)) with 1024 in E2.
  lia.
Qed.




End TimestampFacts.

(* ================================================================= *)
(** ** formatMessage *)

Module FormattingFacts.

Import Formatting.

Lemma trimStart_split s :
  exists pre, s = pre ++ trimStart s /\ forallb isWhiteSpace pre = true.
Proof.
  induction s as [|c rest IH]; cbn [trimStart].
  - exists []. split; reflexivity.
  - destruct (isWhiteSpace c) eqn:E.
    + destruct IH as (pre & Hs & Hp). exists (c :: pre). split.
      * cbn. congruence.
      * cbn. rewrite E, Hp. reflexivity.
    + exists []. split; reflexivity.
Qed.

Lemma trimStart_head s :
  match trimStart s with
  | [] => True
  | c :: _ => isWhiteSpace c = false
  end.
Proof.
  induction s as [|c rest IH]; cbn [trimStart]; [exact I|].
  destruct (isWhiteSpace c) eqn:E; [exact IH | exact E].
Qed.

Lemma trimStart_length s : (List.length (trimStart s) <= List.length s)%nat.
Proof.
  destruct (trimStart_split s) as (pre & Hs & _).
  rewrite Hs at 2. rewrite length_app. lia.
Qed.

(** What [trim] leaves: the input without a run of white space at
    each end. *)
Lemma trim_split s :
  exists pre post,
    s = pre ++ trim s ++ post
    /\ forallb isWhiteSpace pre = true
    /\ forallb isWhiteSpace post = true.
Proof.
  destruct (trimStart_split s) as (pre & Hs & Hp).
  destruct (trimStart_split (rev (trimStart s))) as (q & Hr & Hq).
  exists pre, (rev q). repeat split.
  - unfold trim, trimEnd. rewrite <- rev_app_distr. rewrite <- Hr.
    rewrite rev_involutive. exact Hs.
  - exact Hp.
  - rewrite forallb_forall in *. intros x Hx. apply Hq.
    apply in_rev. exact Hx.
Qed.

Lemma firstn_ellipsis_length (t : jsstring) :
  MAX_MESSAGE_LENGTH < jslength t ->
  jslength (substring0 (MAX_MESSAGE_LENGTH - 3) t ++ ellipsis)
  = MAX_MESSAGE_LENGTH.
Proof.
  unfold jslength, substring0, MAX_MESSAGE_LENGTH, ellipsis. intros H.
  rewrite length_app, length_firstn. cbn [List.length]. lia.
Qed.

(** C10.  [formatMessage] returns the trimmed message when that has
    at most 10000 code units, and otherwise its first 9997 code units
    followed by three full stops; the result never has more than 10000
    code units. *)
Theorem formatMessage_truncates (message : jsstring) :
  formatMessage message
  = (if jslength (trim message) <=? 10000
     then trim message
     else firstn (Z.to_nat 9997) (trim message) ++ [46; 46; 46]%N)
  /\ jslength (formatMessage message) <= 10000.
Proof.
  unfold formatMessage.
  destruct (Z.ltb_spec MAX_MESSAGE_LENGTH (jslength (trim message))) as [L|L];
    unfold MAX_MESSAGE_LENGTH in L.
  - destruct (Z.leb_spec (jslength (trim message)) 10000); [lia|].
    split; [reflexivity|].
    rewrite firstn_ellipsis_length by exact L.
    unfold MAX_MESSAGE_LENGTH. lia.
  - destruct (Z.leb_spec (jslength (trim message)) 10000); [|lia].
    split; [reflexivity | lia].
Qed.

End FormattingFacts.

(* ================================================================= *)
(** ** The sender *)

Module SenderFacts.

Import Sender.
Local Open Scope sender_scope.

Section WithBuiltins.

Variable JSON_stringify : list LogEntry -> result string.
Variable JSON_parse : string -> parsed.

(** **** addLog *)

Lemma addLog_eq entry s :
  addLog entry s
  = (Ok tt,
     if stopped s then s
     else if QUEUE_CAPACITY <=? qlen s then addConsole QueueFull s
     else setQueue (logQueue s ++ [entry]) s).
Proof.
  unfold addLog, bind, get, ret, consoleError, modify, qlen.
  destruct (stopped s); [reflexivity|].
  destruct (QUEUE_CAPACITY <=? Z.of_nat (List.length (logQueue s)));
    reflexivity.
Qed.

Lemma addLog_queue entry s :
  logQueue (snd (addLog entry s))
  = if stopped s || (QUEUE_CAPACITY <=? qlen s)
    then logQueue s else logQueue s ++ [entry].
Proof.
  rewrite addLog_eq. cbn [snd].
  destruct (stopped s); [reflexivity|].
  destruct (QUEUE_CAPACITY <=? qlen s); reflexivity.
Qed.

Lemma addLog_stopped entry s :
  stopped s = true -> snd (addLog entry s) = s.
Proof. intros H. rewrite addLog_eq, H. reflexivity. Qed.

Lemma addLog_keeps_stopped entry s :
  stopped (snd (addLog entry s)) = stopped s.
Proof.
  rewrite addLog_eq. cbn [snd].
  destruct (stopped s) eqn:E; [exact E|].
  destruct (QUEUE_CAPACITY <=? qlen s); exact E.
Qed.

Lemma addLog_dispatched entry s :
  dispatched (snd (addLog entry s)) = dispatched s.
Proof.
  rewrite addLog_eq. cbn [snd].
  destruct (stopped s); [reflexivity|].
  destruct (QUEUE_CAPACITY <=? qlen s); reflexivity.
Qed.

Lemma run_addLogs es : forall s,
  run JSON_stringify JSON_parse (map AddLog es) s = addLogs es s.
Proof.
  induction es as [|e es IH]; intros s; [reflexivity|].
  cbn [map run step addLogs fold_left]. apply IH.
Qed.

Lemma addLogs_queue es : forall s,
  stopped s = false ->
  logQueue (addLogs es s)
  = logQueue s
      ++ firstn (Z.to_nat (QUEUE_CAPACITY - qlen s)) es.
Proof.
  unfold QUEUE_CAPACITY.
  induction es as [|e es IH]; intros s R; cbn [addLogs fold_left].
  - rewrite firstn_nil, app_nil_r. reflexivity.
  - fold (addLogs es (snd (addLog e s))).
    rewrite IH by (rewrite addLog_keeps_stopped; exact R).
    rewrite addLog_queue, R. cbn [orb]. unfold QUEUE_CAPACITY, qlen.
    rewrite addLog_queue, R. cbn [orb]. unfold QUEUE_CAPACITY, qlen.
    destruct (Z.leb_spec 10000 (Z.of_nat (List.length (logQueue s)))) as [F|F].
    + replace (Z.to_nat (10000 - Z.of_nat (List.length (logQueue s))))
        with O by lia.
      cbn [firstn]. reflexivity.
    + rewrite length_app. cbn [List.length].
      replace (Z.to_nat (10000 - Z.of_nat (List.length (logQueue s))))
        with (S (Z.to_nat (10000
                  - Z.of_nat (List.length (logQueue s) + 1)%nat))) by lia.
      cbn [firstn]. rewrite <- app_assoc. reflexivity.
Qed.

(** **** sendHTTPRequest up to its await *)

Lemma start_eq logs s :
  sendHTTPRequestStart JSON_stringify logs s
  = let s1 := setInFlight (Double.add (inFlightRequests s) 1)
                (addDispatched logs s) in
    match JSON_stringify logs with
    | Ok body => (Ok true, addRequest (buildRequest (config s) body) s1)
    | Thrown msg =>
        (Ok false,
         setInFlight (Double.sub (inFlightRequests s1) 1)
           (addConsole (RequestFailed msg) s1))
    end.
Proof.
  unfold sendHTTPRequestStart, bind, modify, acquire, prepare, tryFinally,
    onError, consoleError, release, throw, get.
  cbn. destruct (JSON_stringify logs); reflexivity.
Qed.

Lemma start_frame logs s :
  let s' := snd (sendHTTPRequestStart JSON_stringify logs s) in
  logQueue s' = logQueue s /\ stopped s' = stopped s
  /\ intervalId s' = intervalId s
  /\ dispatched s' = dispatched s ++ [logs].
Proof.
  rewrite start_eq. cbn zeta.
  destruct (JSON_stringify logs); cbn; repeat split; reflexivity.
Qed.

Lemma start_ok logs s :
  exists b, fst (sendHTTPRequestStart JSON_stringify logs s) = Ok b.
Proof.
  rewrite start_eq. cbn zeta.
  destruct (JSON_stringify logs); cbn; eauto.
Qed.

(** **** sendBatch *)

Lemma sendBatch_eq s :
  sendBatch JSON_stringify s
  = (Ok tt,
     match logQueue s with
     | [] => s
     | _ :: _ =>
         snd (sendHTTPRequestStart JSON_stringify
                (firstn (Z.to_nat BATCH_SIZE) (logQueue s))
                (setQueue (skipn (Z.to_nat BATCH_SIZE) (logQueue s)) s))
     end).
Proof.
  unfold sendBatch, bind, get, ret, modify.
  destruct (logQueue s) as [|e q] eqn:E; [reflexivity|].
  cbn [List.length Nat.eqb].
  destruct (start_ok (firstn (Z.to_nat BATCH_SIZE) (e :: q))
              (setQueue (skipn (Z.to_nat BATCH_SIZE) (e :: q)) s))
    as [b Hb].
  destruct (sendHTTPRequestStart _ _ _) as [r s'].
  cbn [fst] in Hb. subst r. reflexivity.
Qed.

Lemma sendBatch_empty s :
  logQueue s = [] -> sendBatch JSON_stringify s = (Ok tt, s).
Proof. intros H. rewrite sendBatch_eq, H. reflexivity. Qed.

Lemma sendBatch_takes s :
  logQueue s <> [] ->
  let s' := snd (sendBatch JSON_stringify s) in
  logQueue s' = skipn (Z.to_nat BATCH_SIZE) (logQueue s)
  /\ dispatched s'
     = dispatched s ++ [firstn (Z.to_nat BATCH_SIZE) (logQueue s)]
  /\ stopped s' = stopped s /\ intervalId s' = intervalId s.
Proof.
  intros H. rewrite sendBatch_eq.
  destruct (logQueue s) as [|e q] eqn:E; [congruence|].
  cbn [snd].
  destruct (start_frame (firstn (Z.to_nat BATCH_SIZE) (e :: q))
              (setQueue (skipn (Z.to_nat BATCH_SIZE) (e :: q)) s))
    as (A & B & C & D).
  cbn zeta. rewrite A, B, C, D. repeat split; reflexivity.
Qed.

Lemma sendBatch_frame s :
  let s' := snd (sendBatch JSON_stringify s) in
  stopped s' = stopped s /\ intervalId s' = intervalId s
  /\ (qlen s' <= qlen s).
Proof.
  destruct (logQueue s) as [|e q] eqn:E.
  - rewrite sendBatch_empty by exact E. cbn. repeat split; lia.
  - destruct (sendBatch_takes s) as (A & B & C & D); [congruence|].
    cbn zeta. unfold qlen. rewrite A, C, D.
    repeat split. rewrite length_skipn. lia.
Qed.

(** C4.  [sendBatch] hands to the dispatcher the first
    min(length, 1000) entries of the queue in their order and leaves
    the rest: the old queue is the batch followed by the new queue.
    Of an empty queue nothing is taken and nothing is dispatched.
    One entry enqueued on an empty queue of a running sender and
    then taken comes back as the batch of that entry alone. *)
Theorem sendBatch_takes_prefix (s : sender) (entry : LogEntry) :
  let batch := firstn (Z.to_nat BATCH_SIZE) (logQueue s) in
  let s' := snd (sendBatch JSON_stringify s) in
  fst (sendBatch JSON_stringify s) = Ok tt
  /\ logQueue s = batch ++ logQueue s'
  /\ Z.of_nat (List.length batch) = Z.min (qlen s) 1000
  /\ match logQueue s with
     | [] => s' = s
     | _ :: _ => dispatched s' = dispatched s ++ [batch]
     end
  /\ let fresh := setStopped false (setQueue [] s) in
     let taken :=
       snd (sendBatch JSON_stringify (snd (addLog entry fresh))) in
     dispatched taken = dispatched s ++ [[entry]]
     /\ logQueue taken = [].
Proof.
  cbn zeta.
  assert (Q : logQueue s = [] \/ logQueue s <> []).
  { destruct (logQueue s); [left | right]; congruence. }
  split; [rewrite sendBatch_eq; reflexivity|].
  split.
  { destruct Q as [E|NE].
    - rewrite (sendBatch_empty s E). cbn [snd]. rewrite E. reflexivity.
    - destruct (sendBatch_takes s NE) as (A & _). cbn zeta in A.
      rewrite A. symmetry. apply firstn_skipn. }
  split.
  { rewrite length_firstn. unfold qlen, BATCH_SIZE. lia. }
  split.
  { destruct Q as [E|NE].
    - rewrite (sendBatch_empty s E). cbn [snd]. rewrite E. reflexivity.
    - destruct (sendBatch_takes s NE) as (_ & B & _). cbn zeta in B.
      rewrite B. destruct (logQueue s) eqn:E; [congruence | reflexivity]. }
  assert (F : snd (addLog entry (setStopped false (setQueue [] s)))
              = setQueue [entry] (setStopped false (setQueue [] s))).
  { rewrite addLog_eq. reflexivity. }
  rewrite F.
  destruct (sendBatch_takes
              (setQueue [entry] (setStopped false (setQueue [] s))))
    as (A & B & _); [cbn; discriminate|].
  cbn zeta in A, B. rewrite A, B. split; reflexivity.
Qed.

Lemma addLogs_stopped es : forall s,
  stopped (addLogs es s) = stopped s.
Proof.
  induction es as [|e es IH]; intros s; cbn [addLogs fold_left];
    [reflexivity|].
  fold (addLogs es (snd (addLog e s))).
  rewrite IH. apply addLog_keeps_stopped.
Qed.

Lemma addLogs_dispatched es : forall s,
  dispatched (addLogs es s) = dispatched s.
Proof.
  induction es as [|e es IH]; intros s; cbn [addLogs fold_left];
    [reflexivity|].
  fold (addLogs es (snd (addLog e s))).
  rewrite IH. apply addLog_dispatched.
Qed.

(** **** Enqueuing past the capacity and draining *)

Lemma drain_all fuel : forall s,
  qlen s <= Z.of_nat fuel * BATCH_SIZE ->
  logQueue (drain JSON_stringify fuel s) = []
  /\ List.concat (dispatched (drain JSON_stringify fuel s))
     = List.concat (dispatched s) ++ logQueue s.
Proof.
  unfold qlen, BATCH_SIZE.
  induction fuel as [|f IH]; intros s H; cbn [drain].
  - destruct (logQueue s) as [|e q]; [|cbn in H; lia].
    rewrite app_nil_r. split; reflexivity.
  - destruct (logQueue s) as [|e q] eqn:E.
    + rewrite E, app_nil_r. split; reflexivity.
    + unfold flush.
      destruct (sendBatch_takes s) as (A & B & _); [congruence|].
      cbn zeta in A, B.
      destruct (IH (snd (sendBatch JSON_stringify s))) as [C D].
      { rewrite A, length_skipn, E. unfold BATCH_SIZE. lia. }
      split; [exact C|].
      rewrite D, A, B, concat_app. cbn [List.concat].
      rewrite app_nil_r, <- app_assoc, firstn_skipn, E. reflexivity.
Qed.

(** C3.  [addLog] returns without throwing; it never takes the
    queue beyond 10000 entries; on a stopped sender or a queue of
    10000 entries or more it leaves the queue as it was, dropping
    the incoming entry.  Entries enqueued on a new sender are kept
    up to the first 10000, and those are exactly what repeated
    batch taking retrieves: 10000 of 10001. *)
Theorem addLog_bounded (c : Config) (s : sender) (entry : LogEntry)
    (es : list LogEntry) :
  fst (addLog entry s) = Ok tt
  /\ qlen (snd (addLog entry s)) <= Z.max (qlen s) QUEUE_CAPACITY
  /\ logQueue (snd (addLog entry s))
     = (if stopped s || (QUEUE_CAPACITY <=? qlen s)
        then logQueue s else logQueue s ++ [entry])
  /\ let full := addLogs es (create c) in
     let drained := drain JSON_stringify 10 full in
     logQueue full = firstn (Z.to_nat QUEUE_CAPACITY) es
     /\ logQueue drained = []
     /\ List.concat (dispatched drained) = firstn (Z.to_nat QUEUE_CAPACITY) es
     /\ Z.of_nat (List.length (List.concat (dispatched drained)))
        = Z.min (Z.of_nat (List.length es)) QUEUE_CAPACITY.
Proof.
  split; [rewrite addLog_eq; reflexivity|].
  split.
  { unfold qlen at 1. rewrite addLog_queue. fold (qlen s).
    destruct (stopped s); cbn [orb]; [unfold qlen; lia|].
    destruct (Z.leb_spec QUEUE_CAPACITY (qlen s)); [unfold qlen; lia|].
    rewrite length_app. cbn [List.length]. unfold qlen in *. lia. }
  split; [apply addLog_queue|].
  cbn zeta.
  assert (F : logQueue (addLogs es (create c))
              = firstn (Z.to_nat QUEUE_CAPACITY) es).
  { rewrite addLogs_queue by reflexivity. reflexivity. }
  destruct (drain_all 10 (addLogs es (create c))) as [D1 D2].
  { unfold qlen. rewrite F, length_firstn.
    unfold QUEUE_CAPACITY, BATCH_SIZE. lia. }
  split; [exact F|]. split; [exact D1|].
  assert (G : dispatched (addLogs es (create c)) = []).
  { rewrite addLogs_dispatched. reflexivity. }
  rewrite D2, G, F. cbn [List.concat app].
  split; [reflexivity|].
  rewrite length_firstn. unfold QUEUE_CAPACITY. lia.
Qed.

(** **** shutdown *)

Lemma shutdown_eq s :
  shutdown JSON_stringify s
  = (Ok tt,
     if stopped s then s
     else snd (sendBatch JSON_stringify
                 (if intervalId s
                  then setIntervalId false (setStopped true s)
                  else setStopped true s))).
Proof.
  unfold shutdown, bind, get, ret, modify.
  destruct (stopped s); [reflexivity|].
  cbn [intervalId setStopped].
  destruct (intervalId s); rewrite sendBatch_eq; reflexivity.
Qed.

Lemma shutdown_stops s :
  stopped (snd (shutdown JSON_stringify s)) = true
  /\ (stopped s = false ->
      intervalId (snd (shutdown JSON_stringify s)) = false).
Proof.
  rewrite shutdown_eq. cbn [snd].
  destruct (stopped s) eqn:E; [split; [exact E | discriminate]|].
  match goal with |- context [sendBatch _ ?t] =>
    destruct (sendBatch_frame t) as (A & B & _) end.
  cbn zeta in A, B. rewrite A, B.
  destruct (intervalId s) eqn:I; cbn; rewrite ?I; split; reflexivity.
Qed.

Lemma shutdown_running s :
  stopped s = false -> logQueue s <> [] ->
  let s' := snd (shutdown JSON_stringify s) in
  logQueue s' = skipn (Z.to_nat BATCH_SIZE) (logQueue s)
  /\ dispatched s'
     = dispatched s ++ [firstn (Z.to_nat BATCH_SIZE) (logQueue s)].
Proof.
  intros R NE. rewrite shutdown_eq, R. cbn [snd].
  match goal with |- context [sendBatch _ ?t] =>
    destruct (sendBatch_takes t) as (A & B & _) end.
  { destruct (intervalId s); exact NE. }
  cbn zeta in *. rewrite A, B.
  destruct (intervalId s); split; reflexivity.
Qed.

(** Where the claim of C2 does hold: a queue of at most 1000 entries is
    drained by [shutdown]. *)
Lemma shutdown_drains_small s :
  stopped s = false -> qlen s <= BATCH_SIZE ->
  let s' := snd (shutdown JSON_stringify s) in
  logQueue s' = []
  /\ List.concat (dispatched s') = List.concat (dispatched s) ++ logQueue s.
Proof.
  unfold qlen, BATCH_SIZE. intros R H. cbn zeta.
  destruct (logQueue s) as [|e q] eqn:E.
  - rewrite shutdown_eq, R. cbn [snd].
    rewrite sendBatch_empty by (destruct (intervalId s); exact E).
    cbn [snd]. rewrite app_nil_r.
    destruct (intervalId s); cbn; rewrite E; split; reflexivity.
  - destruct (shutdown_running s R) as [A B]; [congruence|].
    cbn zeta in A, B. rewrite A, B, E, concat_app. cbn [List.concat].
    rewrite app_nil_r.
    rewrite skipn_all2, firstn_all2 by (unfold BATCH_SIZE; lia).
    split; reflexivity.
Qed.

Lemma tick_cleared s :
  intervalId s = false -> tick JSON_stringify s = (Ok tt, s).
Proof. intros H. unfold tick, bind, get, ret. rewrite H. reflexivity. Qed.

(** C2, at the failing input.  A running sender holds 1001 entries
    when [shutdown] is called.  Its one [sendBatch] hands the first
    1000 to the dispatcher; the entry numbered 1000 stays in the
    queue, the sender is stopped and its timer is cleared, so no
    tick will send it. *)
Theorem shutdown_leaves_entries (c : Config) :
  let s := addLogs (entries 1001) (create c) in
  let s' := snd (shutdown JSON_stringify s) in
  logQueue s = entries 1001
  /\ stopped s = false
  /\ dispatched s' = [entries 1000]
  /\ logQueue s' = [entryNo 1000]
  /\ stopped s' = true
  /\ tick JSON_stringify s' = (Ok tt, s').
Proof.
  cbn zeta.
  assert (Q : logQueue (addLogs (entries 1001) (create c)) = entries 1001).
  { rewrite addLogs_queue by reflexivity. vm_compute. reflexivity. }
  assert (R : stopped (addLogs (entries 1001) (create c)) = false).
  { rewrite addLogs_stopped. reflexivity. }
  assert (G : dispatched (addLogs (entries 1001) (create c)) = []).
  { rewrite addLogs_dispatched. reflexivity. }
  destruct (shutdown_running _ R) as [A B].
  { rewrite Q. vm_compute. discriminate. }
  cbn zeta in A, B.
  destruct (shutdown_stops (addLogs (entries 1001) (create c))) as [S1 S2].
  split; [exact Q|]. split; [exact R|].
  split. { rewrite B, G, Q. vm_compute. reflexivity. }
  split. { rewrite A, Q. vm_compute. reflexivity. }
  split; [exact S1|].
  apply tick_cleared. exact (S2 R).
Qed.

(** **** What the response handling leaves alone *)

Section Frame.

Context {X : Type} (f : sender -> X).
Hypothesis f_console : forall d s, f (addConsole d s) = f s.

Lemma preserves_ret {A} (a : A) : preserves f (ret a).
Proof. intros s. reflexivity. Qed.

Lemma preserves_throw {A} msg : preserves f (@throw A msg).
Proof. intros s. reflexivity. Qed.

Lemma preserves_consoleError d : preserves f (consoleError d).
Proof. intros s. apply f_console. Qed.

Lemma preserves_bind {A B} (c : M A) (k : A -> M B) :
  preserves f c -> (forall a, preserves f (k a)) ->
  preserves f (bind c k).
Proof.
  intros Hc Hk s. unfold bind. specialize (Hc s).
  destruct (c s) as [[a|msg] s1]; cbn [snd] in *.
  - rewrite Hk. exact Hc.
  - exact Hc.
Qed.

Lemma preserves_tryCatch {A} (c : M A) (h : string -> M A) :
  preserves f c -> (forall msg, preserves f (h msg)) ->
  preserves f (tryCatch c h).
Proof.
  intros Hc Hh s. unfold tryCatch. specialize (Hc s).
  destruct (c s) as [[a|msg] s1]; cbn [snd] in *.
  - exact Hc.
  - rewrite Hh. exact Hc.
Qed.

Lemma preserves_forOf {A} (xs : list A) (body : A -> M unit) :
  (forall x, preserves f (body x)) -> preserves f (forOf xs body).
Proof.
  intros Hb. induction xs as [|x rest IH]; cbn [forOf].
  - apply preserves_ret.
  - apply preserves_bind; [apply Hb | intros _; exact IH].
Qed.

Lemma preserves_reportRejected sentLogs error :
  preserves f (reportRejected sentLogs error).
Proof.
  unfold reportRejected.
  destruct (_ && _); [|apply preserves_ret].
  apply preserves_bind; [apply preserves_consoleError|]. intros _.
  destruct (arrayGet sentLogs (index error)) as [l|];
    [|apply preserves_throw].
  repeat (apply preserves_bind;
          [apply preserves_consoleError | intros _]).
  destruct (0 <? List.length (fields l))%nat;
    [apply preserves_consoleError | apply preserves_ret].
Qed.

Lemma preserves_handleRejectedLogs response sentLogs :
  preserves f (handleRejectedLogs response sentLogs).
Proof.
  unfold handleRejectedLogs.
  apply preserves_bind; [apply preserves_consoleError|]. intros _.
  destruct (errors response) as [[|e es]|]; try apply preserves_ret.
  apply preserves_bind; [apply preserves_consoleError|]. intros _.
  apply preserves_forOf. intros x. apply preserves_reportRejected.
Qed.

Lemma preserves_afterRequest logs x :
  preserves f (afterRequest JSON_parse logs x).
Proof.
  unfold afterRequest. destruct x as [status body|msg];
    [|apply preserves_throw].
  destruct (_ && _); [apply preserves_consoleError|].
  destruct (JSON_parse body) as [m| | |r];
    [apply preserves_ret | apply preserves_throw | apply preserves_ret |].
  destruct (Qlt_bool 0 (rejected r));
    [apply preserves_handleRejectedLogs | apply preserves_ret].
Qed.

Lemma preserves_handled logs x :
  preserves f (tryCatch (afterRequest JSON_parse logs x) onError).
Proof.
  apply preserves_tryCatch; [apply preserves_afterRequest|].
  intros msg. apply preserves_consoleError.
Qed.

Hypothesis f_inFlight : forall n s, f (setInFlight n s) = f s.

Lemma preserves_resume logs x :
  preserves f (sendHTTPRequestResume JSON_parse logs x).
Proof.
  intros s. unfold sendHTTPRequestResume, tryFinally, release, modify.
  pose proof (preserves_handled logs x s) as H.
  destruct (tryCatch _ _ s) as [r s1]. cbn [snd] in *.
  rewrite f_inFlight. exact H.
Qed.

End Frame.

Lemma handled_ok logs x s :
  fst (tryCatch (afterRequest JSON_parse logs x) onError s) = Ok tt.
Proof.
  unfold tryCatch.
  destruct (afterRequest JSON_parse logs x s) as [[[]|msg] s1];
    reflexivity.
Qed.

Lemma resume_eq logs x s :
  sendHTTPRequestResume JSON_parse logs x s
  = (Ok tt,
     let s1 := snd (tryCatch (afterRequest JSON_parse logs x) onError s) in
     setInFlight (Double.sub (inFlightRequests s1) 1) s1).
Proof.
  unfold sendHTTPRequestResume, tryFinally, release, modify.
  pose proof (handled_ok logs x s) as H.
  destruct (tryCatch _ _ s) as [r s1]. cbn [fst snd] in *.
  subst r. reflexivity.
Qed.

Lemma resume_counter logs x s :
  inFlightRequests (snd (sendHTTPRequestResume JSON_parse logs x s))
  = Double.sub (inFlightRequests s) 1.
Proof.
  rewrite resume_eq. cbn [snd inFlightRequests setInFlight].
  rewrite (preserves_handled inFlightRequests); reflexivity.
Qed.

(** **** After shutdown *)

Lemma step_stopped ev s :
  stopped s = true ->
  stopped (snd (step JSON_stringify JSON_parse ev s)) = true
  /\ qlen (snd (step JSON_stringify JSON_parse ev s)) <= qlen s.
Proof.
  intros H. destruct ev as [entry| | | |logs x]; cbn [step].
  - rewrite addLog_stopped by exact H. split; [exact H | lia].
  - destruct (sendBatch_frame s) as (A & _ & C). unfold flush.
    cbn zeta in *. rewrite A. split; [exact H | exact C].
  - unfold tick, bind, get, ret. destruct (intervalId s).
    + destruct (sendBatch_frame s) as (A & _ & C).
      cbn zeta in *. rewrite A. split; [exact H | exact C].
    + split; [exact H | cbn; lia].
  - rewrite shutdown_eq, H. split; [exact H | cbn; lia].
  - unfold qlen.
    rewrite (preserves_resume stopped), (preserves_resume logQueue);
      try reflexivity.
    split; [exact H | lia].
Qed.

Lemma run_stopped evs : forall s,
  stopped s = true ->
  stopped (run JSON_stringify JSON_parse evs s) = true
  /\ qlen (run JSON_stringify JSON_parse evs s) <= qlen s.
Proof.
  induction evs as [|ev rest IH]; intros s H; cbn [run].
  - split; [exact H | lia].
  - destruct (step_stopped ev s H) as [A B].
    destruct (IH _ A) as [C D]. split; [exact C | lia].
Qed.

Lemma run_caller_stopped ms : forall s,
  stopped s = true ->
  run JSON_stringify JSON_parse (map callerEvent ms) s = s.
Proof.
  induction ms as [|m rest IH]; intros s H; cbn [map run];
    [reflexivity|].
  assert (E : snd (step JSON_stringify JSON_parse (callerEvent m) s) = s).
  { destruct m as [entry|]; cbn [callerEvent step].
    - apply addLog_stopped. exact H.
    - rewrite shutdown_eq, H. reflexivity. }
  rewrite E. apply IH. exact H.
Qed.

(** C7.  Let [s] be the sender once [shutdown] has run on any
    sender [s0].  It is stopped and stays stopped whatever happens
    next; a second [shutdown] and any [addLog] return at once and
    leave every part of it as it is, so calls of [addLog] and
    [shutdown] in any number and order dispatch nothing; and no
    later event makes the queue longer. *)
Theorem shutdown_is_final (s0 : sender) (entry : LogEntry)
    (calls : list (option LogEntry)) (evs : list event) :
  let s := snd (shutdown JSON_stringify s0) in
  stopped s = true
  /\ shutdown JSON_stringify s = (Ok tt, s)
  /\ addLog entry s = (Ok tt, s)
  /\ run JSON_stringify JSON_parse (map callerEvent calls) s = s
  /\ stopped (run JSON_stringify JSON_parse evs s) = true
  /\ qlen (run JSON_stringify JSON_parse evs s) <= qlen s.
Proof.
  cbn zeta. destruct (shutdown_stops s0) as [H _].
  split; [exact H|].
  split; [rewrite shutdown_eq, H; reflexivity|].
  split; [rewrite addLog_eq, H; reflexivity|].
  split; [apply run_caller_stopped; exact H|].
  apply run_stopped. exact H.
Qed.

(** **** A whole dispatch *)

Lemma sendHTTPRequest_cut logs x s :
  match sendHTTPRequestStart JSON_stringify logs s with
  | (Ok true, s1) =>
      sendHTTPRequest JSON_stringify JSON_parse logs x s
      = sendHTTPRequestResume JSON_parse logs x s1
  | (Ok false, s1) =>
      sendHTTPRequest JSON_stringify JSON_parse logs x s = (Ok tt, s1)
  | (Thrown _, _) => False
  end.
Proof.
  rewrite start_eq. cbn zeta.
  unfold sendHTTPRequest, sendHTTPRequestResume, bind, modify, acquire,
    tryFinally, tryCatch, prepare, get, throw, onError, consoleError,
    release.
  destruct (JSON_stringify logs) as [body|msg]; reflexivity.
Qed.

(** C5.  Let the in-flight counter be an exactly stored count.
    However the exchange ends -- a response of any status whose body
    parses or does not, or a failure of the request -- the promise
    of [sendHTTPRequest] is fulfilled, never rejected, and the
    counter is back at the value it had before the call.  At the
    [await], with the request made, the counter is one higher. *)
Theorem sendHTTPRequest_settles (logs : list LogEntry) (x : exchange)
    (s : sender) :
  0 <= inFlightRequests s < 2 ^ 53 - 1 ->
  fst (sendHTTPRequest JSON_stringify JSON_parse logs x s) = Ok tt
  /\ inFlightRequests
       (snd (sendHTTPRequest JSON_stringify JSON_parse logs x s))
     = inFlightRequests s
  /\ match sendHTTPRequestStart JSON_stringify logs s with
     | (Ok true, s1) =>
         inFlightRequests s1 = inFlightRequests s + 1
         /\ sendHTTPRequest JSON_stringify JSON_parse logs x s
            = sendHTTPRequestResume JSON_parse logs x s1
     | (Ok false, s1) =>
         sendHTTPRequest JSON_stringify JSON_parse logs x s = (Ok tt, s1)
     | (Thrown _, _) => False
     end.
Proof.
  intros H.
  assert (Up : Double.add (inFlightRequests s) 1 = inFlightRequests s + 1)
    by (apply DoubleFacts.add_small; lia).
  assert (Down : Double.sub (inFlightRequests s + 1) 1 = inFlightRequests s).
  { rewrite DoubleFacts.sub_small; lia. }
  pose proof (sendHTTPRequest_cut logs x s) as Cut.
  rewrite start_eq in Cut |- *. cbn zeta in Cut |- *.
  destruct (JSON_stringify logs) as [body|msg].
  - rewrite Cut, resume_eq. cbn [fst snd inFlightRequests setInFlight].
    rewrite (preserves_handled inFlightRequests) by reflexivity.
    cbn [inFlightRequests addRequest setInFlight addDispatched].
    rewrite Up, Down. repeat split; reflexivity.
  - rewrite Cut.
    cbn [fst snd inFlightRequests setInFlight addConsole addDispatched].
    rewrite Up, Down. repeat split; reflexivity.
Qed.

(** **** Rejections *)

Lemma arrayGet_integer {A} (xs : list A) i :
  arrayGet xs (inject_Z i)
  = if 0 <=? i then nth_error xs (Z.to_nat i) else None.
Proof.
  unfold arrayGet. rewrite Qcanon.Qred_identity by apply Z.gcd_1_r.
  reflexivity.
Qed.

Lemma inRange_integer i n :
  Qle_bool 0 (inject_Z i) && Qlt_bool (inject_Z i) (inject_Z n)
  = (0 <=? i) && (i <? n).
Proof.
  unfold Qlt_bool, Qle_bool, inject_Z. cbn [Qnum Qden].
  rewrite !Z.mul_1_r. cbn [Z.mul]. rewrite Z.ltb_antisym. reflexivity.
Qed.

Lemma reportRejected_integer sentLogs r s :
  reportRejected sentLogs (rejectedAt r) s
  = (Ok tt,
     fold_left (fun t d => addConsole d t)
       (linesFor sentLogs (fst r) (snd r)) s).
Proof.
  destruct r as [i msg]. unfold reportRejected, rejectedAt, linesFor.
  cbn [index rejectedMessage fst snd].
  rewrite inRange_integer, arrayGet_integer.
  destruct (Z.leb_spec 0 i) as [P|P]; [|reflexivity]. cbn [andb].
  destruct (Z.ltb_spec i (Z.of_nat (List.length sentLogs))) as [L|L];
    [|reflexivity].
  destruct (nth_error sentLogs (Z.to_nat i)) as [l|] eqn:E.
  - unfold bind, consoleError, modify, ret.
    destruct (fields l); reflexivity.
  - apply nth_error_None in E. lia.
Qed.

Lemma addConsole_all ds : forall t,
  console (fold_left (fun t d => addConsole d t) ds t) = console t ++ ds.
Proof.
  induction ds as [|d ds IH]; intros t; cbn [fold_left].
  - rewrite app_nil_r. reflexivity.
  - rewrite IH. cbn [console addConsole].
    rewrite <- app_assoc. reflexivity.
Qed.

Lemma forOf_integer sentLogs rs : forall t,
  fst (forOf (map rejectedAt rs) (reportRejected sentLogs) t) = Ok tt
  /\ console (snd (forOf (map rejectedAt rs) (reportRejected sentLogs) t))
     = console t
         ++ flat_map (fun r => linesFor sentLogs (fst r) (snd r)) rs.
Proof.
  induction rs as [|r rs IH]; intros t; cbn [map forOf flat_map].
  - rewrite app_nil_r. split; reflexivity.
  - unfold bind. rewrite reportRejected_integer.
    destruct (IH (fold_left (fun t d => addConsole d t)
                    (linesFor sentLogs (fst r) (snd r)) t)) as [A B].
    split; [exact A|].
    rewrite B, addConsole_all, app_assoc. reflexivity.
Qed.

(** For rejection records with integer indices the handler returns,
    and writes the lines of exactly the records inside the batch. *)
Lemma handleRejectedLogs_integer sentLogs a n m rs s :
  rs <> [] ->
  let response := mkResponse a n m (Some (map rejectedAt rs)) in
  fst (handleRejectedLogs response sentLogs s) = Ok tt
  /\ console (snd (handleRejectedLogs response sentLogs s))
     = console s ++ [RejectedCount n; RejectedDetails]
         ++ flat_map (fun r => linesFor sentLogs (fst r) (snd r)) rs.
Proof.
  intros NE. cbn zeta. unfold handleRejectedLogs. cbn [rejected errors].
  destruct rs as [|r0 rs0]; [congruence|]. cbn [map].
  change (rejectedAt r0 :: map rejectedAt rs0)
    with (map rejectedAt (r0 :: rs0)).
  change ((consoleError (RejectedCount n);;
           consoleError RejectedDetails;;
           forOf (map rejectedAt (r0 :: rs0)) (reportRejected sentLogs)) s)
    with (forOf (map rejectedAt (r0 :: rs0)) (reportRejected sentLogs)
            (addConsole RejectedDetails (addConsole (RejectedCount n) s))).
  destruct (forOf_integer sentLogs (r0 :: rs0)
              (addConsole RejectedDetails
                 (addConsole (RejectedCount n) s))) as [A B].
  split; [exact A|]. rewrite B. cbn [console addConsole].
  rewrite <- !app_assoc. reflexivity.
Qed.

End WithBuiltins.

Lemma sendHTTPRequest_settles_witness :
  let stringify := fun _ : list LogEntry => Ok "{}"%string in
  let parse := fun _ : string =>
    Parsed (mkResponse 1 1 None (Some [mkRejectedLog 0 "too long"])) in
  let s := create (mkConfig "12345678-1234-1234-1234-123456789012"
                     "http://localhost:4005" None) in
  let x := Responds 202 "{}" in
  0 <= inFlightRequests s < 2 ^ 53 - 1
  /\ fst (sendHTTPRequest stringify parse (entries 2) x s) = Ok tt
  /\ inFlightRequests (snd (sendHTTPRequest stringify parse (entries 2) x s))
     = inFlightRequests s.
Proof.
  cbn zeta.
  assert (H : 0 <= inFlightRequests
                     (create (mkConfig "12345678-1234-1234-1234-123456789012"
                                "http://localhost:4005" None))
              < 2 ^ 53 - 1) by (cbn; lia).
  split; [exact H|].
  destruct (sendHTTPRequest_settles
              (fun _ : list LogEntry => Ok "{}"%string)
              (fun _ : string =>
                 Parsed (mkResponse 1 1 None
                           (Some [mkRejectedLog 0 "too long"])))
              (entries 2) (Responds 202 "{}") _ H) as (A & B & _).
  split; [exact A | exact B].
Defined.

(** C9, at the failing input.  The server reports two rejections of a
    batch of one entry, at the indices 1/2 and 0.  The index 1/2
    passes the test [0 <= index < length]; [sentLogs[0.5]] is
    [undefined], so after the first line of the report the handler
    throws at [log.level].  The record at index 0, which is inside the
    batch, gets no line.  [sendHTTPRequest] catches the error and
    reports it as a failed request. *)
Theorem handleRejectedLogs_fractional_index (s : sender) :
  let response :=
    mkResponse 0 2 None
      (Some [mkRejectedLog (1 # 2) "too long"; mkRejectedLog 0 "bad level"]) in
  let typeError :=
    "Cannot read properties of undefined (reading 'level')"%string in
  let reported :=
    addConsole (RejectedLogLine (1 # 2) "too long")
      (addConsole RejectedDetails (addConsole (RejectedCount 2) s)) in
  Qle_bool 0 (1 # 2)
    && Qlt_bool (1 # 2) (inject_Z (Z.of_nat (List.length (entries 1)))) = true
  /\ handleRejectedLogs response (entries 1) s = (Thrown typeError, reported)
  /\ sendHTTPRequestResume (fun _ => Parsed response) (entries 1)
       (Responds 202 "{}") s
     = (Ok tt,
        setInFlight (Double.sub (inFlightRequests s) 1)
          (addConsole (RequestFailed typeError) reported)).
Proof. repeat split. Qed.

End SenderFacts.

(* ================================================================= *)
(** ** The quotient by 10^9 in binary64 *)

Module QuotientFacts.

Import Double.

Lemma div_between a b q : 0 < b -> q * b <= a < (q + 1) * b -> a / b = q.
Proof.
  intros Hb H. symmetry. apply (Z.div_unique a b q (a - q * b)); lia.
Qed.

(** The quotient by 10^9 scaled by [P], rounded to nearest and scaled
    back, floors to [x / 10^9] as long as [x] is not too close below a
    multiple of 10^9. *)
Lemma rounded_floor x P m rn (up : bool) :
  0 <= x -> 0 < P ->
  m = (x * P) / 1000000000 ->
  rn = (x * P) mod 1000000000 ->
  (up = true -> 1000000000 <= 2 * rn) ->
  1000000000 < (1000000000 - x mod 1000000000) * (2 * P) ->
  (if up then m + 1 else m) / P = x / 1000000000.
Proof.
  intros Hx HP Hm Hrn Hup Hgap.
  pose proof (Z.div_mod x 1000000000 ltac:(lia)) as Ex.
  pose proof (Z.mod_pos_bound x 1000000000 ltac:(lia)) as Br.
  pose proof (Z.div_mod (x * P) 1000000000 ltac:(lia)) as Exp.
  pose proof (Z.mod_pos_bound (x * P) 1000000000 ltac:(lia)) as Brn.
  rewrite <- Hm, <- Hrn in *.
  set (q := x / 1000000000) in *. set (r := x mod 1000000000) in *.
  assert (E1 : x * P = 1000000000 * (q * P) + r * P) by (rewrite Ex at 1; ring).
  assert (E2 : 0 <= r * P) by nia.
  assert (E3 : r * P <= 999999999 * P) by nia.
  assert (E4 : (1000000000 - r) * (2 * P) = 2000000000 * P - 2 * (r * P)) by ring.
  apply div_between; [exact HP|].
  replace ((q + 1) * P) with (q * P + P) by ring.
  destruct up.
  - specialize (Hup eq_refl). lia.
  - lia.
Qed.

Lemma representable_multiple x :
  2 ^ 53 <= x -> representable x -> exists c, x = c * 2 ^ (Z.log2 x - 52).
Proof.
  unfold representable, round. intros H R. cbv zeta in R.
  rewrite Z.abs_eq in R by lia.
  destruct (Z.ltb_spec x (2 ^ 53)); [lia|].
  rewrite Z.sgn_pos, Z.mul_1_l in R by lia.
  eexists. symmetry. exact R.
Qed.

Lemma floor_div_unfold x e :
  0 < x -> e < 0 ->
  1000000000 < (1000000000 - x mod 1000000000) * (2 * 2 ^ (- e)) ->
  (let '(m, e') :=
     let '(rn, rd) := scaled_rest x 1000000000 e in
     (if (rd <? 2 * rn)
         || ((2 * rn =? rd) && Z.odd (scaled_quot x 1000000000 e))
      then scaled_quot x 1000000000 e + 1
      else scaled_quot x 1000000000 e, e) in
   if 0 <=? e' then Z.sgn x * m * 2 ^ e' else Z.sgn x * m / 2 ^ (- e'))
  = x / 1000000000.
Proof.
  intros Hx He Hgap. unfold scaled_quot, scaled_rest.
  destruct (Z.leb_spec 0 e); [lia|]. cbv beta iota zeta.
  destruct (Z.leb_spec 0 e); [lia|].
  rewrite Z.sgn_pos, Z.mul_1_l by lia.
  apply rounded_floor with (rn := (x * 2 ^ (- e)) mod 1000000000);
    try reflexivity; try lia.
Qed.

Lemma pow2_ge a b : 0 <= a <= b -> 2 ^ a <= 2 ^ b.
Proof. intros H. apply Z.pow_le_mono_r; lia. Qed.

Lemma floor_div_exact x :
  representable x -> 0 <= x < 8589934592000000000 ->
  floor_div x 1000000000 = x / 1000000000.
Proof.
  intros R [H0 H1]. unfold floor_div.
  destruct (Z.eqb_spec x 0) as [->|N]; [reflexivity|].
  rewrite Z.abs_eq by lia. unfold div_pos.
  change (Z.log2 1000000000) with 29.
  assert (Lspec : 2 ^ Z.log2 x <= x < 2 ^ Z.succ (Z.log2 x))
    by (apply Z.log2_spec; lia).
  assert (HL : 0 <= Z.log2 x < 63).
  { split; [apply Z.log2_nonneg|]. apply Z.log2_lt_pow2; lia. }
  set (L := Z.log2 x) in *.
  pose proof (Z.div_mod x 1000000000 ltac:(lia)) as Ex.
  pose proof (Z.mod_pos_bound x 1000000000 ltac:(lia)) as Br.
  match goal with |- context [if ?c then L - 29 - 53 else _] =>
    set (e := if c then L - 29 - 53 else L - 29 - 53 + 1) end.
  assert (He : (L <= 61 /\ (e = L - 82 \/ e = L - 81)) \/ (L = 62 /\ e = -20)).
  { subst e. destruct (Z.ltb_spec (scaled_quot x 1000000000 (L - 29 - 53)) (2 ^ 53)) as [A|A].
    - lia.
    - left. split; [|lia].
      assert (L <> 62); [|lia]. intros E. rewrite E in A.
      change (62 - 29 - 53) with (-20) in A. unfold scaled_quot in A.
      change (0 <=? -20) with false in A. cbv iota in A.
      change (2 ^ (- (-20))) with 1048576 in A.
      assert (x * 1048576 / 1000000000 < 2 ^ 53); [|lia].
      apply Z.div_lt_upper_bound; lia. }
  clearbody e. cbv zeta.
  apply (floor_div_unfold x e); [lia | lia |].
  assert (Cases : L <= 52 \/ L = 53 \/ L = 54 \/ L = 55 \/ L = 56 \/ L = 57
                  \/ L = 58 \/ L = 59 \/ L = 60 \/ L = 61 \/ L = 62) by lia.
  destruct Cases as [Small | Big].
  - assert (P : 2 ^ 29 <= 2 ^ (- e)) by (apply pow2_ge; lia).
    change (2 ^ 29) with 536870912 in P. nia.
  - assert (X53 : 2 ^ 53 <= x).
    { apply Z.le_trans with (2 ^ L); [apply pow2_ge; lia | lia]. }
    destruct (representable_multiple x X53 R) as [c Hc]. fold L in Hc.
    repeat (destruct Big as [E | Big]; [|]); try rename Big into E;
      rewrite E in Hc, He;
      (destruct He as [[Hle [He | He]] | [? He]]; try lia);
      rewrite He;
      repeat match goal with
             | |- context [2 ^ ?k] =>
                 let v := eval vm_compute in (2 ^ k) in
                 change (2 ^ k) with v
             end;
      repeat match type of Hc with
             | context [2 ^ ?k] =>
                 let v := eval vm_compute in (2 ^ k) in
                 change (2 ^ k) with v in Hc
             end;
      lia.
Qed.

End QuotientFacts.

(* ================================================================= *)
(** ** The calendar of the built-in Date *)

Module CalendarFacts.

Import JSDate TimeSpec.

Lemma leap_agree y : leapYear y = isLeap y.
Proof.
  unfold leapYear, isLeap.
  destruct (Z.eqb_spec (y mod 400) 0) as [A|A];
  destruct (Z.eqb_spec (y mod 100) 0) as [B|B];
  destruct (Z.eqb_spec (y mod 4) 0) as [C|C]; cbn; try reflexivity;
    exfalso; Z.div_mod_to_equations; lia.
Qed.

Lemma DayFromYear_succ y : DayFromYear (y + 1) = DayFromYear y + daysInYear y.
Proof.
  unfold daysInYear, leapYear, DayFromYear.
  destruct (Z.eqb_spec (y mod 400) 0) as [A|A];
  [|destruct (Z.eqb_spec (y mod 100) 0) as [B|B];
    [|destruct (Z.eqb_spec (y mod 4) 0) as [C|C]]];
  Z.div_mod_to_equations; lia.
Qed.

Lemma sum_years n : forall a,
  sumZ (map daysInYear (upFrom a n)) = DayFromYear (a + Z.of_nat n) - DayFromYear a.
Proof.
  induction n as [|n IH]; intros a.
  - cbn [upFrom map sumZ fold_right]. rewrite Z.add_0_r. lia.
  - cbn [upFrom map sumZ fold_right]. fold (sumZ (map daysInYear (upFrom (a + 1) n))).
    rewrite IH, DayFromYear_succ.
    replace (a + 1 + Z.of_nat n) with (a + Z.of_nat (S n)) by lia. lia.
Qed.

Lemma daysBeforeYear_eq y : 1970 <= y -> daysBeforeYear y = DayFromYear y.
Proof.
  intros H. unfold daysBeforeYear. rewrite sum_years.
  replace (1970 + Z.of_nat (Z.to_nat (y - 1970))) with y by lia.
  change (DayFromYear 1970) with 0. lia.
Qed.

Lemma DayFromYear_mean y :
  146097 * (y - 1970) - 600 <= 400 * DayFromYear y <= 146097 * (y - 1970) + 600.
Proof. unfold DayFromYear. Z.div_mod_to_equations. lia. Qed.

Lemma YearFromDay_spec d :
  DayFromYear (YearFromDay d) <= d < DayFromYear (YearFromDay d + 1).
Proof.
  unfold YearFromDay.
  set (y := 1970 + d * 400 / 146097).
  assert (Hy : 146097 * (y - 1970) <= 400 * d < 146097 * (y - 1970) + 146097).
  { subst y. Z.div_mod_to_equations. lia. }
  clearbody y.
  pose proof (DayFromYear_mean (y - 1)) as M0.
  pose proof (DayFromYear_mean (y + 2)) as M2.
  pose proof (DayFromYear_succ (y - 1)) as S0.
  pose proof (DayFromYear_succ y) as S1.
  pose proof (DayFromYear_succ (y + 1)) as S2.
  replace (y - 1 + 1) with y in S0 by lia.
  replace (y + 1 + 1) with (y + 2) in * by lia.
  destruct (Z.ltb_spec d (DayFromYear y)).
  - replace (y - 1 + 1) with y by lia. lia.
  - destruct (Z.leb_spec (DayFromYear (y + 1)) d).
    + replace (y + 1 + 1) with (y + 2) by lia. lia.
    + lia.
Qed.

Lemma DayFromYear_mono y y' : y <= y' -> DayFromYear y <= DayFromYear y'.
Proof. intros H. unfold DayFromYear. Z.div_mod_to_equations. lia. Qed.

(** [YearFromDay] is the year ECMAScript defines: the largest [y] whose
    first day is not after [d]. *)
Lemma YearFromDay_largest d y : DayFromYear y <= d -> y <= YearFromDay d.
Proof.
  intros H. destruct (YearFromDay_spec d) as [_ U].
  destruct (Z.le_gt_cases y (YearFromDay d)) as [L|L]; [exact L|].
  pose proof (DayFromYear_mono (YearFromDay d + 1) y ltac:(lia)). lia.
Qed.

Lemma year_of_day d (y := YearFromDay d) :
  0 <= d < 99421 -> 1970 <= y <= 2242 /\ 0 <= d - DayFromYear y < daysInYear y.
Proof.
  intros H. pose proof (YearFromDay_spec d) as S. fold y in S.
  pose proof (DayFromYear_succ y) as S1.
  pose proof (DayFromYear_mean y) as M0.
  pose proof (DayFromYear_mean (y + 1)) as M1.
  clearbody y.
  assert (Y : y = 1969 \/ 1970 <= y) by lia.
  destruct Y as [-> | Y];
    [change (DayFromYear (1969 + 1)) with 0 in S; lia|].
  lia.
Qed.

Lemma days_before_month_cases y :
  let l := if isLeap y then 1 else 0 in
  daysBeforeMonth y 1 = 0 /\ daysBeforeMonth y 2 = 31
  /\ daysBeforeMonth y 3 = 59 + l /\ daysBeforeMonth y 4 = 90 + l
  /\ daysBeforeMonth y 5 = 120 + l /\ daysBeforeMonth y 6 = 151 + l
  /\ daysBeforeMonth y 7 = 181 + l /\ daysBeforeMonth y 8 = 212 + l
  /\ daysBeforeMonth y 9 = 243 + l /\ daysBeforeMonth y 10 = 273 + l
  /\ daysBeforeMonth y 11 = 304 + l /\ daysBeforeMonth y 12 = 334 + l.
Proof.
  unfold daysBeforeMonth. cbn [Z.sub Z.add Z.opp Z.pos_sub Z.to_nat Pos.to_nat Pos.iter_op Nat.add upFrom map sumZ fold_right Z.succ_double Z.pred_double Z.double Pos.pred_double Pos.succ Pos.add Pos.pred Pos.pred_N].
  unfold daysInMonth. rewrite leap_agree.
  destruct (isLeap y); cbn; repeat split; reflexivity.
Qed.

Lemma days_in_month_cases y :
  let l := if isLeap y then 1 else 0 in
  daysInMonth y 1 = 31 /\ daysInMonth y 2 = 28 + l /\ daysInMonth y 3 = 31
  /\ daysInMonth y 4 = 30 /\ daysInMonth y 5 = 31 /\ daysInMonth y 6 = 30
  /\ daysInMonth y 7 = 31 /\ daysInMonth y 8 = 31 /\ daysInMonth y 9 = 30
  /\ daysInMonth y 10 = 31 /\ daysInMonth y 11 = 30 /\ daysInMonth y 12 = 31.
Proof.
  unfold daysInMonth. rewrite leap_agree.
  destruct (isLeap y); cbn; repeat split; reflexivity.
Qed.

Lemma month_and_date t (y := YearFromTime t) :
  0 <= Day t < 99421 ->
  let m := MonthFromTime t + 1 in
  let d := DateFromTime t in
  1 <= m <= 12 /\ 1 <= d <= daysInMonth y m
  /\ DayFromYear y + daysBeforeMonth y m + (d - 1) = Day t.
Proof.
  intros H. destruct (year_of_day (Day t) H) as [_ W].
  fold (YearFromTime t) in W. fold y in W.
  pose proof (days_before_month_cases y) as B.
  pose proof (days_in_month_cases y) as C.
  unfold DateFromTime, MonthFromTime, DayWithinYear, InLeapYear.
  fold y. unfold daysInYear in W. rewrite leap_agree in W.
  cbv zeta in B, C |- *.
  destruct (isLeap y);
    destruct B as (B1 & B2 & B3 & B4 & B5 & B6 & B7 & B8 & B9 & B10 & B11 & B12);
    destruct C as (C1 & C2 & C3 & C4 & C5 & C6 & C7 & C8 & C9 & C10 & C11 & C12);
    repeat match goal with
           | |- context [if ?a <? ?b then _ else _] =>
               destruct (Z.ltb_spec a b)
           end;
    cbn [Z.add Pos.add Pos.succ Pos.add_carry];
    lia.
Qed.

Lemma fields_of_seconds secs (t := secs * 1000) :
  0 <= secs < 8589934592 ->
  let f := mkFields (YearFromTime t) (MonthFromTime t + 1) (DateFromTime t)
             (HourFromTime t) (MinFromTime t) (SecFromTime t) in
  valid f /\ secondsSinceEpoch f = secs.
Proof.
  intros H.
  assert (D : Day t = secs / 86400).
  { unfold Day, msPerDay, t. Z.div_mod_to_equations. lia. }
  assert (HD : 0 <= Day t < 99421).
  { rewrite D. Z.div_mod_to_equations. lia. }
  destruct (year_of_day (Day t) HD) as [Y _]. fold (YearFromTime t) in Y.
  destruct (month_and_date t HD) as (M & Dt & E). cbv zeta in M, Dt, E.
  assert (T : 3600 * HourFromTime t + 60 * MinFromTime t + SecFromTime t
              = secs - 86400 * (secs / 86400)
              /\ 0 <= HourFromTime t < 24 /\ 0 <= MinFromTime t < 60
              /\ 0 <= SecFromTime t < 60).
  { unfold HourFromTime, MinFromTime, SecFromTime, msPerHour, msPerMinute,
      msPerSecond, t. Z.div_mod_to_equations. lia. }
  destruct T as (T & Th & Tm & Ts).
  cbv zeta. unfold valid, secondsSinceEpoch.
  cbn [year month day hour minute second].
  rewrite daysBeforeYear_eq by lia.
  repeat split; try lia.
Qed.

End CalendarFacts.

(* ================================================================= *)
(** ** Decimal strings *)

Module StringFacts.

Import JSString TimeSpec.

Lemma app_assoc_s (a b c : string) : ((a ++ b) ++ c = a ++ (b ++ c))%string.
Proof. induction a as [|x a IH]; cbn; [reflexivity | rewrite IH; reflexivity]. Qed.

Lemma app_nil_r_s (a : string) : (a ++ "" = a)%string.
Proof. induction a as [|x a IH]; cbn; [reflexivity | rewrite IH; reflexivity]. Qed.

Lemma length_app_s (a b : string) :
  String.length (a ++ b) = (String.length a + String.length b)%nat.
Proof. induction a as [|x a IH]; cbn; [reflexivity | rewrite IH; reflexivity]. Qed.

Lemma app_inj_s (a a' b b' : string) :
  String.length a = String.length a' ->
  (a ++ b = a' ++ b')%string -> a = a' /\ b = b'.
Proof.
  revert a'. induction a as [|x a IH]; intros [|x' a'] L E; cbn in *;
    try discriminate.
  - split; [reflexivity | exact E].
  - injection E as -> E. injection L as L.
    destruct (IH a' L E) as [-> ->]. split; reflexivity.
Qed.

Lemma repeat_char_snoc c n :
  (repeat_char c n ++ String c "" = String c (repeat_char c n))%string.
Proof. induction n as [|n IH]; cbn; [reflexivity | rewrite IH; reflexivity]. Qed.

Lemma decimal_length k : forall n, String.length (decimal k n) = k.
Proof.
  induction k as [|k IH]; intros n; cbn [decimal]; [reflexivity|].
  rewrite length_app_s, IH. cbn. lia.
Qed.

Lemma decimal_zero k : decimal k 0 = repeat_char "0" k.
Proof.
  induction k as [|k IH]; cbn [decimal repeat_char]; [reflexivity|].
  change (0 / 10) with 0. rewrite IH. apply repeat_char_snoc.
Qed.

Lemma decimal_pad j k : forall n,
  0 <= n < 10 ^ Z.of_nat k ->
  decimal (j + k) n = (repeat_char "0" j ++ decimal k n)%string.
Proof.
  induction k as [|k IH]; intros n H.
  - change (10 ^ Z.of_nat 0) with 1 in H. assert (n = 0) as -> by lia.
    rewrite Nat.add_0_r, decimal_zero. cbn [decimal]. rewrite app_nil_r_s.
    reflexivity.
  - rewrite Nat.add_succ_r. cbn [decimal]. rewrite IH.
    + rewrite app_assoc_s. reflexivity.
    + rewrite Nat2Z.inj_succ, Z.pow_succ_r in H by lia.
      Z.div_mod_to_equations. lia.
Qed.

Lemma digits_of_width k : forall n acc fuel,
  width (S k) n -> (S k <= fuel)%nat ->
  digits_of fuel n acc = (decimal (S k) n ++ acc)%string.
Proof.
  induction k as [|k IH]; intros n acc fuel [B W] F;
    (destruct fuel as [|f]; [lia|]); cbn [digits_of].
  - change (10 ^ Z.of_nat 1) with 10 in B.
    destruct (Z.ltb_spec n 10); [|lia]. reflexivity.
  - destruct W as [W|W]; [discriminate|].
    replace (Z.of_nat (S (S k)) - 1) with (Z.succ (Z.of_nat k)) in W by lia.
    rewrite Z.pow_succ_r in W by lia.
    assert (P : 0 < 10 ^ Z.of_nat k) by (apply Z.pow_pos_nonneg; lia).
    destruct (Z.ltb_spec n 10); [lia|].
    rewrite (IH (n / 10)).
    + cbn [decimal]. rewrite !app_assoc_s. reflexivity.
    + split.
      * rewrite !Nat2Z.inj_succ, Z.pow_succ_r in B by lia.
        rewrite Nat2Z.inj_succ. Z.div_mod_to_equations. lia.
      * right. replace (Z.of_nat (S k) - 1) with (Z.of_nat k) by lia.
        Z.div_mod_to_equations. lia.
    + lia.
Qed.

Lemma width_exists K : forall n,
  0 <= n < 10 ^ Z.of_nat (S K) -> exists k, (k <= K)%nat /\ width (S k) n.
Proof.
  induction K as [|K IH]; intros n H.
  - exists O. split; [lia|]. split; [exact H | left; reflexivity].
  - destruct (Z.lt_ge_cases n (10 ^ Z.of_nat (S K))) as [L|L].
    + destruct (IH n) as (k & Hk & W); [lia|]. exists k. split; [lia | exact W].
    + exists (S K). split; [lia|]. split; [exact H|]. right.
      replace (Z.of_nat (S (S K)) - 1) with (Z.of_nat (S K)) by lia. exact L.
Qed.

Lemma width_fuel k n : width (S k) n -> (S k <= S (Z.to_nat (Z.log2 n)))%nat.
Proof.
  intros [B [W|W]]; [lia|].
  replace (Z.of_nat (S k) - 1) with (Z.of_nat k) in W by lia.
  assert (P : 2 ^ Z.of_nat k <= 10 ^ Z.of_nat k).
  { apply Z.pow_le_mono_l. lia. }
  assert (Q : 0 < 2 ^ Z.of_nat k) by (apply Z.pow_pos_nonneg; lia).
  assert (Z.of_nat k <= Z.log2 n); [|lia].
  apply Z.log2_le_pow2; lia.
Qed.

Lemma padStart_decimal K n :
  0 <= n < 10 ^ Z.of_nat (S K) ->
  padStart (S K) "0" (ofInt n) = decimal (S K) n.
Proof.
  intros H. destruct (width_exists K n H) as (k & Hk & W).
  unfold padStart, ofInt. rewrite Z.abs_eq by lia.
  destruct (Z.ltb_spec n 0); [lia|].
  rewrite (digits_of_width k n "" _ W (width_fuel k n W)).
  rewrite app_nil_r_s, decimal_length.
  replace (S K) with ((S K - S k) + S k)%nat at 2 by lia.
  rewrite decimal_pad; [reflexivity|]. destruct W as [B _]. exact B.
Qed.

Lemma ofInt_decimal4 n : 1000 <= n <= 9999 -> ofInt n = decimal 4 n.
Proof.
  intros H. unfold ofInt. rewrite Z.abs_eq by lia.
  destruct (Z.ltb_spec n 0); [lia|].
  assert (W : width 4 n).
  { split; [change (10 ^ Z.of_nat 4) with 10000; lia|].
    right. change (10 ^ (Z.of_nat 4 - 1)) with 1000. lia. }
  rewrite (digits_of_width 3 n "" _ W (width_fuel 3 n W)).
  apply app_nil_r_s.
Qed.

End StringFacts.

(* ================================================================= *)
(** ** formatTimestamp *)

Module FormatFacts.

Import JSString JSDate TimeSpec Format.
Import QuotientFacts CalendarFacts StringFacts.

Example format_epoch :
  formatTimestamp 0 = "1970-01-01T00:00:00.000000000Z"%string.
Proof. vm_compute. reflexivity. Qed.

Example format_leap_day :
  Double.representable 1709210096123456768
  /\ formatTimestamp 1709210096123456768
     = "2024-02-29T12:34:56.123456768Z"%string.
Proof. split; vm_compute; reflexivity. Qed.

(** Beyond the year 9999 the year takes five digits or more, and beyond
    the range of [Date] every calendar field reads [NaN]. *)
Example format_year_10000 :
  Double.representable 253402300800000000000
  /\ formatTimestamp 253402300800000000000
     = "10000-01-01T00:00:00.000000000Z"%string.
Proof. split; vm_compute; reflexivity. Qed.

Example format_invalid_date :
  Double.representable 9000000000000000385875968
  /\ formatTimestamp 9000000000000000385875968
     = "NaN-NaN-NaNTNaN:NaN:NaN.385875968Z"%string.
Proof. split; vm_compute; reflexivity. Qed.

Lemma digit_char_inj a b :
  0 <= a < 10 -> 0 <= b < 10 -> digit_char a = digit_char b -> a = b.
Proof.
  unfold digit_char. intros Ha Hb E.
  apply (f_equal nat_of_ascii) in E.
  rewrite !nat_ascii_embedding in E by lia. lia.
Qed.

Lemma decimal_inj k : forall a b,
  0 <= a < 10 ^ Z.of_nat k -> 0 <= b < 10 ^ Z.of_nat k ->
  decimal k a = decimal k b -> a = b.
Proof.
  induction k as [|k IH]; intros a b Ha Hb E.
  - change (10 ^ Z.of_nat 0) with 1 in *. lia.
  - rewrite Nat2Z.inj_succ, Z.pow_succ_r in Ha, Hb by lia.
    cbn [decimal] in E.
    apply app_inj_s in E; [|rewrite !decimal_length; reflexivity].
    destruct E as [E1 E2]. injection E2 as E2.
    apply digit_char_inj in E2; try (Z.div_mod_to_equations; lia).
    apply IH in E1; try (Z.div_mod_to_equations; lia).
Qed.

Lemma daysInMonth_le y m : daysInMonth y m <= 31.
Proof.
  unfold daysInMonth.
  destruct m as [|p|p]; try lia.
  do 4 (try destruct p as [p|p|]; try lia); destruct (leapYear y); lia.
Qed.

Lemma String_inj c (a b : string) : String c a = String c b -> a = b.
Proof. intros E. injection E as E. exact E. Qed.

Lemma render_inj f f' n n' :
  valid f -> valid f' -> render f n = render f' n' -> f = f'.
Proof.
  intros (Y & M & D & H & Mi & S) (Y' & M' & D' & H' & Mi' & S') E.
  pose proof (daysInMonth_le (year f) (month f)).
  pose proof (daysInMonth_le (year f') (month f')).
  unfold render in E.
  repeat (apply app_inj_s in E; [|rewrite !decimal_length; reflexivity];
          let E1 := fresh "F" in destruct E as [E1 E];
          cbn [append] in E; apply String_inj in E).
  apply decimal_inj in F, F0, F1, F2, F3, F4;
    try (change (10 ^ Z.of_nat 4) with 10000);
    try (change (10 ^ Z.of_nat 2) with 100); try lia.
  destruct f, f'. cbn in *. congruence.
Qed.

(** C8, amended.  Let [ns] be a number holding a non-negative integer
    below 8589934592 * 10^9 (16 March 2242).  Then
    [formatTimestamp ns] is [YYYY-MM-DDTHH:MM:SS.NNNNNNNNNZ]: a
    four-digit year, two-digit month, day, hour, minute and second that
    name, in the Gregorian calendar and UTC, the instant
    [floor (ns / 10^9)] seconds after the epoch, and the nine digits of
    [ns mod 10^9], zero-padded. *)
Theorem formatTimestamp_shape ns :
  Double.representable ns -> 0 <= ns < 8589934592000000000 ->
  timestampOf ns (formatTimestamp ns).
Proof.
  intros R H. unfold formatTimestamp.
  rewrite floor_div_exact by assumption.
  set (secs := ns / 1000000000).
  assert (Hs : 0 <= secs < 8589934592).
  { subst secs. Z.div_mod_to_equations. lia. }
  rewrite DoubleFacts.mul_small by lia.
  unfold make, maxTime. destruct (Z.ltb_spec 8640000000000000 (Z.abs (secs * 1000))); [lia|].
  cbn [getUTCFullYear getUTCMonth getUTCDate getUTCHours getUTCMinutes
       getUTCSeconds option_map ofNumber].
  destruct (fields_of_seconds secs Hs) as [V E]. cbv zeta in V, E.
  pose proof V as (Y & M & D & Hh & Hm & Hsec).
  cbn [year month day hour minute second] in Y, M, D, Hh, Hm, Hsec.
  pose proof (daysInMonth_le (YearFromTime (secs * 1000)) (MonthFromTime (secs * 1000) + 1)).
  rewrite DoubleFacts.add_small by lia.
  unfold Double.rem. rewrite Z.rem_mod_nonneg by lia.
  eexists. split; [exact V|]. split; [exact E|].
  unfold render. cbn [year month day hour minute second].
  rewrite ofInt_decimal4 by lia.
  rewrite !padStart_decimal;
    try (change (10 ^ Z.of_nat 2) with 100); try (change (10 ^ Z.of_nat 9) with 1000000000);
    try lia; try (Z.div_mod_to_equations; lia).
  reflexivity.
Qed.

Lemma formatTimestamp_shape_witness :
  timestampOf 1760000000123456768 (formatTimestamp 1760000000123456768).
Proof.
  apply formatTimestamp_shape; [vm_compute; reflexivity | lia].
Defined.

(** C8 as stated fails at 8589934592999999488, which a number holds
    exactly: the binary64 quotient by 10^9 rounds up to 8589934593, so
    the text reads 12:56:33.999999488, one second after the second
    [floor (ns / 10^9)] names. *)
Lemma formatTimestamp_carries_second :
  Double.representable 8589934592999999488
  /\ 0 <= 8589934592999999488
  /\ ~ timestampOf 8589934592999999488 (formatTimestamp 8589934592999999488).
Proof.
  split; [vm_compute; reflexivity|]. split; [lia|].
  intros (f & V & Hs & E).
  assert (V0 : valid (mkFields 2242 3 16 12 56 33)).
  { unfold valid. cbn [year month day hour minute second].
    change (daysInMonth 2242 3) with 31. lia. }
  assert (E0 : formatTimestamp 8589934592999999488
               = render (mkFields 2242 3 16 12 56 33) 999999488)
    by (vm_compute; reflexivity).
  assert (A1 : secondsSinceEpoch (mkFields 2242 3 16 12 56 33) = 8589934593)
    by (vm_compute; reflexivity).
  assert (A2 : 8589934592999999488 / 1000000000 = 8589934592)
    by (vm_compute; reflexivity).
  rewrite E0 in E. apply render_inj in E; [|exact V0 | exact V].
  subst f. rewrite A1, A2 in Hs. lia.
Qed.

End FormatFacts.

(* ================================================================= *)
(** ** Rounding to a number, in general *)

Module RoundingFacts.

Import Double DoubleFacts.

(** From 2^53 on an integer lies in the binade of its logarithm. *)
Lemma binade a (L := Z.log2 a) (e := L - 52) :
  2 ^ 53 <= a ->
  1 <= e /\ 0 < 2 ^ e /\ 2 ^ 52 * 2 ^ e <= a < 2 ^ 53 * 2 ^ e
  /\ 2 ^ 52 <= a / 2 ^ e < 2 ^ 53.
Proof.
  intros H. assert (T : 0 < 2 ^ 53) by reflexivity.
  assert (HL : 53 <= L) by (apply Z.log2_le_pow2; lia).
  pose proof (Z.log2_spec a ltac:(lia)) as S. fold L in S.
  assert (P : 0 < 2 ^ e) by (apply Z.pow_pos_nonneg; lia).
  assert (E1 : 2 ^ L = 2 ^ 52 * 2 ^ e).
  { rewrite <- Z.pow_add_r by lia. f_equal. lia. }
  assert (E2 : 2 ^ Z.succ L = 2 ^ 53 * 2 ^ e).
  { rewrite <- Z.pow_add_r by lia. f_equal. lia. }
  rewrite E1, E2 in S.
  repeat split; try lia.
  - apply Z.div_le_lower_bound; lia.
  - apply Z.div_lt_upper_bound; lia.
Qed.

Lemma round_big a :
  2 ^ 53 <= a ->
  exists m, round a = m * 2 ^ (Z.log2 a - 52)
            /\ a / 2 ^ (Z.log2 a - 52) <= m <= a / 2 ^ (Z.log2 a - 52) + 1.
Proof.
  intros H. assert (T : 0 < 2 ^ 53) by reflexivity.
  unfold round. rewrite (Z.abs_eq a) by lia.
  destruct (Z.ltb_spec a (2 ^ 53)); [lia|].
  rewrite Z.sgn_pos, Z.mul_1_l by lia. cbv zeta.
  eexists. split; [reflexivity|].
  destruct (_ || _); lia.
Qed.

Lemma log2_scaled m e :
  2 ^ 52 <= m < 2 ^ 53 -> 0 <= e -> Z.log2 (m * 2 ^ e) = 52 + e.
Proof.
  intros Hm He. assert (P : 0 < 2 ^ e) by (apply Z.pow_pos_nonneg; lia).
  apply Z.log2_unique; [lia|].
  rewrite Z.pow_succ_r, !Z.pow_add_r by lia.
  change (2 ^ 53) with (2 * 2 ^ 52) in Hm. nia.
Qed.

Lemma round_exact_multiple m e :
  2 ^ 52 <= m < 2 ^ 53 -> 1 <= e -> round (m * 2 ^ e) = m * 2 ^ e.
Proof.
  intros Hm He. assert (T : 0 < 2 ^ 53) by reflexivity.
  assert (T2 : 0 < 2 ^ 52) by reflexivity.
  assert (P : 0 < 2 ^ e) by (apply Z.pow_pos_nonneg; lia).
  assert (P1 : 0 < 2 ^ (e - 1)) by (apply Z.pow_pos_nonneg; lia).
  assert (B : 2 ^ 53 <= m * 2 ^ e).
  { change (2 ^ 53) with (2 ^ 52 * 2). 
    assert (2 <= 2 ^ e); [|nia].
    change 2 with (2 ^ 1) at 1. apply Z.pow_le_mono_r; lia. }
  unfold round. rewrite (Z.abs_eq (m * 2 ^ e)) by lia.
  destruct (Z.ltb_spec (m * 2 ^ e) (2 ^ 53)); [lia|].
  rewrite Z.sgn_pos, Z.mul_1_l by lia. cbv zeta.
  rewrite log2_scaled by lia.
  replace (52 + e - 52) with e by lia.
  rewrite Z.div_mul, Z.mod_mul by lia.
  destruct (Z.ltb_spec (2 ^ (e - 1)) 0); [lia|].
  destruct (Z.eqb_spec 0 (2 ^ (e - 1))); [lia|]. reflexivity.
Qed.

Lemma round_idem_pos a : 0 <= a -> round (round a) = round a.
Proof.
  intros H. assert (T : 0 < 2 ^ 53) by reflexivity.
  destruct (Z.lt_ge_cases a (2 ^ 53)) as [S|B].
  - rewrite (round_small a) by (rewrite Z.abs_eq; lia). apply round_small.
    rewrite Z.abs_eq; lia.
  - destruct (round_big a B) as (m & E & Hm).
    destruct (binade a B) as (He & P & _ & Q).
    rewrite E.
    destruct (Z.eq_dec m (2 ^ 53)) as [->|N].
    + change (2 ^ 53) with (2 ^ 52 * 2).
      rewrite <- Z.mul_assoc.
      replace (2 * 2 ^ (Z.log2 a - 52)) with (2 ^ (Z.succ (Z.log2 a - 52)))
        by (rewrite Z.pow_succ_r; lia).
      apply round_exact_multiple; [change (2 ^ 53) with (2 * 2 ^ 52)|]; lia.
    + apply round_exact_multiple; lia.
Qed.

Lemma round_opp z : round (- z) = - round z.
Proof.
  unfold round. rewrite Z.abs_opp, Z.sgn_opp.
  destruct (Z.abs z <? 2 ^ 53); [reflexivity|]. cbv zeta. ring.
Qed.

(** Rounding gives a number. *)
Lemma round_idem z : round (round z) = round z.
Proof.
  destruct (Z.le_gt_cases 0 z) as [P|N]; [apply round_idem_pos; exact P|].
  assert (E : z = - (- z)) by lia. rewrite E.
  generalize (- z) (ltac:(lia) : 0 <= - z). intros w Hw.
  rewrite (round_opp w), (round_opp (round w)), round_idem_pos by exact Hw.
  reflexivity.
Qed.

Lemma round_nonneg z : 0 <= z -> 0 <= round z.
Proof.
  intros H. assert (T : 0 < 2 ^ 53) by reflexivity.
  destruct (Z.lt_ge_cases z (2 ^ 53)) as [S|B].
  - rewrite round_small by (rewrite Z.abs_eq; lia). exact H.
  - destruct (round_big z B) as (m & E & Hm).
    destruct (binade z B) as (He & P & _ & Q). rewrite E. nia.
Qed.

(** Adding one to a double never gives a smaller double. *)
Lemma round_succ_ge l : representable l -> 0 <= l -> l <= round (l + 1).
Proof.
  intros R H. assert (T : 0 < 2 ^ 53) by reflexivity.
  destruct (Z.lt_ge_cases (l + 1) (2 ^ 53)) as [S|B].
  - rewrite round_small by (rewrite Z.abs_eq; lia). lia.
  - destruct (Z.eq_dec (l + 1) (2 ^ 53)) as [E|N].
    + rewrite E. change (round (2 ^ 53)) with (2 ^ 53). lia.
    + assert (B' : 2 ^ 53 <= l) by lia.
      destruct (QuotientFacts.representable_multiple l B' R) as [c Hc].
      destruct (binade l B') as (He & P & Bl & _).
      assert (L : Z.log2 (l + 1) = Z.log2 l).
      { apply Z.log2_unique; [apply Z.log2_nonneg|].
        pose proof (Z.log2_spec l ltac:(lia)) as S.
        split; [lia|].
        assert (l + 1 <> 2 ^ Z.succ (Z.log2 l)); [|lia].
        replace (Z.succ (Z.log2 l)) with (Z.succ (Z.succ (Z.log2 l - 52 - 1)) + 52) by lia.
        rewrite Z.pow_add_r, !Z.pow_succ_r by lia.
        replace (Z.log2 l - 52) with (Z.succ (Z.log2 l - 52 - 1)) in Hc by lia.
        rewrite Z.pow_succ_r in Hc by lia. lia. }
      destruct (round_big (l + 1) B) as (m & E & Hm). rewrite L in E, Hm.
      rewrite E.
      assert (c <= (l + 1) / 2 ^ (Z.log2 l - 52)).
      { apply Z.div_le_lower_bound; lia. }
      rewrite Hc at 1. nia.
Qed.

Lemma round_representable z : representable (round z).
Proof. apply round_idem. Qed.

End RoundingFacts.

(* ================================================================= *)
(** ** The order of the emitted timestamps *)

Module TimestampOrder.

Import Double DoubleFacts RoundingFacts.
Import Timestamp.

Lemma advance_never_back r st :
  representable (lastTimestampNs st) -> 0 <= lastTimestampNs st ->
  lastTimestampNs st <= lastTimestampNs (advance r st)
  /\ representable (lastTimestampNs (advance r st)).
Proof.
  intros R H. unfold advance. destruct (baselineOf r st) as [wallMs baseHr].
  cbn [lastTimestampNs]. unfold Double.leb.
  destruct (Z.leb_spec (candidate r st) (lastTimestampNs st)) as [L|L].
  - split; [apply round_succ_ge; assumption | apply round_representable].
  - split; [lia|]. unfold candidate. destruct (baselineOf r st).
    apply round_representable.
Qed.

Lemma sorted_cons_le a b l :
  a <= b -> StronglySorted Z.le (b :: l) -> StronglySorted Z.le (a :: b :: l).
Proof.
  intros Up S. constructor; [exact S|].
  constructor; [exact Up|].
  apply StronglySorted_inv in S. destruct S as [_ Hall].
  eapply Forall_impl; [|exact Hall]. cbn. intros c Hc. lia.
Qed.

Lemma emitted_sorted rs : forall st,
  representable (lastTimestampNs st) -> 0 <= lastTimestampNs st ->
  StronglySorted Z.le (lastTimestampNs st :: emitted rs st).
Proof.
  induction rs as [|r rs IH]; intros st R H; cbn [emitted].
  - repeat constructor.
  - destruct (advance_never_back r st R H) as [Up R'].
    apply sorted_cons_le; [exact Up|]. apply IH; [exact R' | lia].
Qed.

Lemma hr_never_back h l :
  representable l -> 0 <= l ->
  l <= TimestampHr.advance h l /\ representable (TimestampHr.advance h l).
Proof.
  intros R H.
  unfold TimestampHr.advance, Double.leb, Double.ofBigInt, Double.add.
  destruct (Z.leb_spec (round h) l).
  - split; [apply round_succ_ge; assumption | apply round_representable].
  - split; [lia | apply round_representable].
Qed.

Lemma hr_emitted_sorted hs : forall l,
  representable l -> 0 <= l ->
  StronglySorted Z.le (l :: TimestampHr.emitted hs l).
Proof.
  induction hs as [|h hs IH]; intros l R H; cbn [TimestampHr.emitted].
  - repeat constructor.
  - destruct (hr_never_back h l R H) as [Up R'].
    apply sorted_cons_le; [exact Up|]. apply IH; [exact R' | lia].
Qed.

(** X1.  Whatever the clocks read, and at any magnitude, the generator
    never goes back: in both revisions each call emits a value at
    least as large as every value emitted before it, and none is
    negative.  (Above 2^53 a call may repeat the value before it; it
    never emits a smaller one.) *)
Theorem emitted_never_decreases (rs : list readings) (hs : list Z) :
  StronglySorted Z.le (0 :: emitted rs initial)
  /\ StronglySorted Z.le (0 :: TimestampHr.emitted hs 0).
Proof.
  split.
  - apply (emitted_sorted rs initial); [reflexivity | cbn; lia].
  - apply hr_emitted_sorted; [reflexivity | lia].
Qed.

(** *** The text of distinct instants *)

Import JSString JSDate TimeSpec Format.
Import QuotientFacts CalendarFacts StringFacts FormatFacts.

(** Below 2^33 seconds the text is the rendering of the calendar
    fields of the second and of the nanoseconds within it. *)
Lemma formatTimestamp_render ns :
  representable ns -> 0 <= ns < 8589934592000000000 ->
  exists f, valid f
    /\ secondsSinceEpoch f = ns / 1000000000
    /\ formatTimestamp ns = render f (ns mod 1000000000).
Proof.
  intros R H. unfold formatTimestamp.
  rewrite floor_div_exact by assumption.
  set (secs := ns / 1000000000).
  assert (Hs : 0 <= secs < 8589934592).
  { subst secs. Z.div_mod_to_equations. lia. }
  rewrite DoubleFacts.mul_small by lia.
  unfold make, maxTime.
  destruct (Z.ltb_spec 8640000000000000 (Z.abs (secs * 1000))); [lia|].
  cbn [getUTCFullYear getUTCMonth getUTCDate getUTCHours getUTCMinutes
       getUTCSeconds option_map ofNumber].
  destruct (fields_of_seconds secs Hs) as [V E]. cbv zeta in V, E.
  pose proof V as (Y & M & D & Hh & Hm & Hsec).
  cbn [year month day hour minute second] in Y, M, D, Hh, Hm, Hsec.
  pose proof (daysInMonth_le (YearFromTime (secs * 1000))
                (MonthFromTime (secs * 1000) + 1)).
  rewrite DoubleFacts.add_small by lia.
  unfold Double.rem. rewrite Z.rem_mod_nonneg by lia.
  eexists. split; [exact V|]. split; [exact E|].
  unfold render. cbn [year month day hour minute second].
  rewrite ofInt_decimal4 by lia.
  rewrite !padStart_decimal;
    try (change (10 ^ Z.of_nat 2) with 100);
    try (change (10 ^ Z.of_nat 9) with 1000000000);
    try lia; try (Z.div_mod_to_equations; lia).
  reflexivity.
Qed.

End TimestampOrder.

(* ================================================================= *)
(** ** The order of the timestamps as text *)

Module TextOrder.

Import Double DoubleFacts.
Import JSString JSDate TimeSpec Format.
Import CalendarFacts StringFacts FormatFacts TimestampOrder.

(** *** Comparing decimal strings *)

Lemma digit_char_compare u v :
  0 <= u < 10 -> 0 <= v < 10 ->
  Ascii.compare (digit_char u) (digit_char v) = (u ?= v).
Proof.
  intros Hu Hv.
  assert (U : u = 0 \/ u = 1 \/ u = 2 \/ u = 3 \/ u = 4 \/ u = 5 \/ u = 6
              \/ u = 7 \/ u = 8 \/ u = 9) by lia.
  assert (V : v = 0 \/ v = 1 \/ v = 2 \/ v = 3 \/ v = 4 \/ v = 5 \/ v = 6
              \/ v = 7 \/ v = 8 \/ v = 9) by lia.
  repeat (destruct U as [->|U]); try subst u;
    repeat (destruct V as [->|V]); try subst v; reflexivity.
Qed.

Lemma compare_same c (s t : string) :
  String.compare (String c s) (String c t) = String.compare s t.
Proof.
  cbn [String.compare]. unfold Ascii.compare. rewrite N.compare_refl.
  reflexivity.
Qed.

(** Two numbers written with the same number of digits compare as
    text the way they compare as numbers; with equal numbers what
    follows decides. *)
Lemma compare_decimal k : forall x y (s t : string),
  0 <= x < 10 ^ Z.of_nat k -> 0 <= y < 10 ^ Z.of_nat k ->
  String.compare (decimal k x ++ s) (decimal k y ++ t)
  = match x ?= y with
    | Eq => String.compare s t
    | c => c
    end.
Proof.
  induction k as [|k IH]; intros x y s t Hx Hy.
  - change (10 ^ Z.of_nat 0) with 1 in *.
    assert (x = 0) by lia. assert (y = 0) by lia. subst. reflexivity.
  - rewrite Nat2Z.inj_succ, Z.pow_succ_r in Hx, Hy by lia.
    cbn [decimal]. rewrite !app_assoc_s. cbn [append].
    rewrite IH by (Z.div_mod_to_equations; lia).
    cbn [String.compare].
    rewrite digit_char_compare by (Z.div_mod_to_equations; lia).
    destruct (Z.compare_spec (x / 10) (y / 10)) as [E|L|G];
      destruct (Z.compare_spec (x mod 10) (y mod 10)) as [E'|L'|G'];
      destruct (Z.compare_spec x y) as [E''|L''|G''];
      try reflexivity; exfalso; Z.div_mod_to_equations; lia.
Qed.

(** *** The calendar is monotone *)

Lemma dayOfYear_bound y m d :
  1 <= m <= 12 -> 1 <= d <= daysInMonth y m ->
  0 <= daysBeforeMonth y m + (d - 1) < daysInYear y.
Proof.
  intros Hm Hd.
  pose proof (days_before_month_cases y) as B.
  pose proof (days_in_month_cases y) as D. cbv zeta in B, D.
  unfold daysInYear. rewrite leap_agree.
  destruct B as (B1 & B2 & B3 & B4 & B5 & B6 & B7 & B8 & B9 & B10 & B11 & B12).
  destruct D as (D1 & D2 & D3 & D4 & D5 & D6 & D7 & D8 & D9 & D10 & D11 & D12).
  assert (M : m = 1 \/ m = 2 \/ m = 3 \/ m = 4 \/ m = 5 \/ m = 6 \/ m = 7
              \/ m = 8 \/ m = 9 \/ m = 10 \/ m = 11 \/ m = 12) by lia.
  destruct (isLeap y);
    repeat (destruct M as [->|M]); try subst m; lia.
Qed.

Lemma month_before y m m' d :
  1 <= m -> m < m' -> m' <= 12 -> 1 <= d <= daysInMonth y m ->
  daysBeforeMonth y m + (d - 1) < daysBeforeMonth y m'.
Proof.
  intros Hm Hlt Hm' Hd.
  pose proof (days_before_month_cases y) as B.
  pose proof (days_in_month_cases y) as D. cbv zeta in B, D.
  destruct B as (B1 & B2 & B3 & B4 & B5 & B6 & B7 & B8 & B9 & B10 & B11 & B12).
  destruct D as (D1 & D2 & D3 & D4 & D5 & D6 & D7 & D8 & D9 & D10 & D11 & D12).
  assert (M : m = 1 \/ m = 2 \/ m = 3 \/ m = 4 \/ m = 5 \/ m = 6 \/ m = 7
              \/ m = 8 \/ m = 9 \/ m = 10 \/ m = 11) by lia.
  assert (M' : m' = 2 \/ m' = 3 \/ m' = 4 \/ m' = 5 \/ m' = 6 \/ m' = 7
               \/ m' = 8 \/ m' = 9 \/ m' = 10 \/ m' = 11 \/ m' = 12) by lia.
  destruct (isLeap y);
    repeat (destruct M as [->|M]); try subst m;
    repeat (destruct M' as [->|M']); try subst m'; lia.
Qed.

(** A later year, or in the same year a later month, and so on down
    to the second, is a later instant. *)
Lemma seconds_year f f' :
  valid f -> valid f' -> year f < year f' ->
  secondsSinceEpoch f < secondsSinceEpoch f'.
Proof.
  intros (Y & M & D & H & Mi & S) (Y' & M' & D' & H' & Mi' & S') L.
  unfold secondsSinceEpoch.
  pose proof (dayOfYear_bound (year f) (month f) (day f) M D) as B.
  pose proof (dayOfYear_bound (year f') (month f') (day f') M' D') as B'.
  rewrite !daysBeforeYear_eq by lia.
  pose proof (DayFromYear_succ (year f)) as Sy.
  pose proof (DayFromYear_mono (year f + 1) (year f') ltac:(lia)) as Mo.
  lia.
Qed.

Lemma seconds_month f f' :
  valid f -> valid f' -> year f = year f' -> month f < month f' ->
  secondsSinceEpoch f < secondsSinceEpoch f'.
Proof.
  intros (Y & M & D & H & Mi & S) (Y' & M' & D' & H' & Mi' & S') E L.
  unfold secondsSinceEpoch. rewrite <- E in *.
  pose proof (month_before (year f) (month f) (month f') (day f)
                ltac:(lia) L ltac:(lia) D) as B.
  lia.
Qed.

Lemma seconds_rest f f' :
  valid f -> valid f' -> year f = year f' -> month f = month f' ->
  day f < day f'
  \/ day f = day f' /\ (hour f < hour f'
       \/ hour f = hour f' /\ (minute f < minute f'
            \/ minute f = minute f' /\ second f < second f')) ->
  secondsSinceEpoch f < secondsSinceEpoch f'.
Proof.
  intros (Y & M & D & H & Mi & S) (Y' & M' & D' & H' & Mi' & S') E E' L.
  unfold secondsSinceEpoch. rewrite <- E, <- E' in *.
  generalize (daysBeforeYear (year f)) (daysBeforeMonth (year f) (month f)).
  intros p q. lia.
Qed.

(** *** The text *)

Lemma render_compare f f' n n' :
  valid f -> valid f' ->
  0 <= n < 1000000000 -> 0 <= n' < 1000000000 ->
  secondsSinceEpoch f < secondsSinceEpoch f'
  \/ secondsSinceEpoch f = secondsSinceEpoch f' /\ n < n' ->
  String.compare (render f n) (render f' n') = Lt.
Proof.
  intros V V' Hn Hn' L.
  pose proof V as (Y & M & D & H & Mi & S).
  pose proof V' as (Y' & M' & D' & H' & Mi' & S').
  pose proof (daysInMonth_le (year f) (month f)).
  pose proof (daysInMonth_le (year f') (month f')).
  unfold render.
  repeat (rewrite compare_decimal;
          [cbn [append]; rewrite compare_same
          |try (change (10 ^ Z.of_nat 4) with 10000);
           try (change (10 ^ Z.of_nat 2) with 100);
           try (change (10 ^ Z.of_nat 9) with 1000000000); lia ..]).
  destruct (Z.compare_spec (year f) (year f')) as [Ey|Ly|Gy];
    [|reflexivity
     |pose proof (seconds_year f' f V' V Gy); lia].
  destruct (Z.compare_spec (month f) (month f')) as [Em|Lm|Gm];
    [|reflexivity
     |pose proof (seconds_month f' f V' V (eq_sym Ey) Gm); lia].
  assert (Rest : forall g g', valid g -> valid g' ->
            year g = year g' -> month g = month g' ->
            secondsSinceEpoch g' <= secondsSinceEpoch g ->
            ~ (day g < day g'
               \/ day g = day g' /\ (hour g < hour g'
                    \/ hour g = hour g' /\ (minute g < minute g'
                         \/ minute g = minute g'
                            /\ second g < second g')))).
  { intros g g' Vg Vg' A B C R.
    pose proof (seconds_rest g g' Vg Vg' A B R). lia. }
  assert (Le : secondsSinceEpoch f <= secondsSinceEpoch f') by lia.
  pose proof (Rest f' f V' V (eq_sym Ey) (eq_sym Em) Le) as NR.
  destruct (Z.compare_spec (day f) (day f')) as [Ed|Ld|Gd];
    [|reflexivity | exfalso; apply NR; lia].
  destruct (Z.compare_spec (hour f) (hour f')) as [Eh|Lh|Gh];
    [|reflexivity | exfalso; apply NR; lia].
  destruct (Z.compare_spec (minute f) (minute f')) as [Ei|Li|Gi];
    [|reflexivity | exfalso; apply NR; lia].
  destruct (Z.compare_spec (second f) (second f')) as [Es|Ls|Gs];
    [|reflexivity | exfalso; apply NR; lia].
  assert (F : f = f') by (destruct f, f'; cbn in *; congruence).
  subst f'.
  destruct L as [L|[_ L]]; [lia|].
  destruct (Z.compare_spec n n') as [En|Ln|Gn]; [lia | reflexivity | lia].
Qed.

Lemma formatTimestamp_lt a b :
  representable a -> representable b ->
  0 <= a -> a < b -> b < 8589934592000000000 ->
  String.compare (formatTimestamp a) (formatTimestamp b) = Lt.
Proof.
  intros Ra Rb Ha L Hb.
  destruct (formatTimestamp_render a Ra ltac:(lia)) as (f & V & S & Ef).
  destruct (formatTimestamp_render b Rb ltac:(lia)) as (f' & V' & S' & Ef').
  rewrite Ef, Ef'.
  apply render_compare; try assumption; Z.div_mod_to_equations; lia.
Qed.

Lemma compare_refl_s (s : string) : String.compare s s = Eq.
Proof.
  induction s as [|c s IH]; cbn [String.compare]; [reflexivity|].
  unfold Ascii.compare. rewrite N.compare_refl. exact IH.
Qed.

(** X2.  Before 16 March 2242 the timestamps sort as text the way they
    sort in time: of two numbers of nanoseconds the smaller has the
    text that comes first in the order of strings.  So two different
    instants never read the same. *)
Theorem formatTimestamp_ordered (a b : Z) :
  representable a -> representable b ->
  0 <= a -> a < b -> b < 8589934592000000000 ->
  String.compare (formatTimestamp a) (formatTimestamp b) = Lt
  /\ formatTimestamp a <> formatTimestamp b.
Proof.
  intros Ra Rb Ha L Hb.
  pose proof (formatTimestamp_lt a b Ra Rb Ha L Hb) as C.
  split; [exact C|]. intros E. rewrite E, compare_refl_s in C.
  discriminate.
Qed.

Lemma formatTimestamp_ordered_witness :
  String.compare (formatTimestamp 1760000000123456768)
    (formatTimestamp 1760000000123457024) = Lt
  /\ formatTimestamp 1760000000123456768
     <> formatTimestamp 1760000000123457024.
Proof.
  apply formatTimestamp_ordered; try (vm_compute; reflexivity); lia.
Defined.

End TextOrder.

(* ================================================================= *)
(** ** The texts a run of calls returns *)

Module TimestampRunsFacts.

Import Double DoubleFacts.
Import Format TimestampOrder TextOrder.

Lemma returned_emitted hs : forall last,
  TimestampRuns.returned hs last
  = map formatTimestamp (TimestampHr.emitted hs last).
Proof.
  induction hs as [|h hs IH]; intros last;
    cbn [TimestampRuns.returned TimestampHr.emitted map
         TimestampHr.generateUniqueTimestamp]; [reflexivity|].
  rewrite IH. reflexivity.
Qed.

Lemma hr_advance_small top h l :
  0 <= h <= top -> 0 <= l < 2 ^ 53 - 1 -> top < 2 ^ 53 ->
  l < TimestampHr.advance h l
  /\ TimestampHr.advance h l <= Z.max top (l + 1).
Proof.
  intros Hh Hl Ht.
  unfold TimestampHr.advance, Double.leb, Double.ofBigInt.
  rewrite (round_small h) by lia.
  destruct (Z.leb_spec h l).
  - rewrite add_small by lia. lia.
  - lia.
Qed.

Lemma hr_emitted_increasing top hs : forall l,
  Forall (fun h => 0 <= h <= top) hs ->
  0 <= l -> Z.max top l + Z.of_nat (List.length hs) < 2 ^ 53 ->
  StronglySorted Z.lt (l :: TimestampHr.emitted hs l)
  /\ Forall (fun v => 0 <= v < 2 ^ 53) (TimestampHr.emitted hs l).
Proof.
  induction hs as [|h hs IH]; intros l F Hl B;
    cbn [TimestampHr.emitted List.length] in *.
  - split; repeat constructor.
  - inversion F as [|h' hs' Fh Fhs]; subst.
    destruct (hr_advance_small top h l Fh) as [Up Le]; [lia | lia |].
    destruct (IH (TimestampHr.advance h l) Fhs) as [S A]; [lia | lia |].
    split.
    + constructor; [exact S|]. constructor; [exact Up|].
      apply StronglySorted_inv in S. destruct S as [_ Hall].
      eapply Forall_impl; [|exact Hall]. cbn. intros c Hc. lia.
    + constructor; [lia | exact A].
Qed.

Lemma texts_sorted l :
  StronglySorted Z.lt l -> Forall (fun v => 0 <= v < 2 ^ 53) l ->
  StronglySorted (fun s t => String.compare s t = Lt)
    (map formatTimestamp l).
Proof.
  assert (T53 : 2 ^ 53 = 9007199254740992) by reflexivity.
  induction 1 as [|a l S IH F]; intros A; cbn [map]; constructor.
  - apply IH. inversion A; assumption.
  - inversion A as [|a' l' Aa Al]; subst.
    rewrite Forall_forall in *. intros t I.
    apply in_map_iff in I. destruct I as (w & <- & Iw).
    specialize (F w Iw). specialize (Al w Iw). cbn beta in Al.
    apply formatTimestamp_lt; try (apply small_representable; lia); lia.
Qed.

Lemma texts_NoDup (l : list string) :
  StronglySorted (fun s t => String.compare s t = Lt) l -> NoDup l.
Proof.
  induction 1 as [|a l S IH F]; constructor; [|exact IH].
  intros I. rewrite Forall_forall in F. specialize (F a I).
  rewrite compare_refl_s in F. discriminate.
Qed.

(** X3.  In the revision that reads the timer alone, as long as the timer
    readings and the number of calls together stay below 2^53 (104 days
    of nanoseconds), every call emits a strictly larger value than the
    call before, and the texts returned come in strictly increasing
    order of strings: no two calls return the same text. *)
Theorem returned_timestamps_increase (top : Z) (hs : list Z) :
  Forall (fun h => 0 <= h <= top) hs ->
  top + Z.of_nat (List.length hs) < 2 ^ 53 ->
  StronglySorted Z.lt (TimestampHr.emitted hs 0)
  /\ StronglySorted (fun s t => String.compare s t = Lt)
       (TimestampRuns.returned hs 0)
  /\ NoDup (TimestampRuns.returned hs 0).
Proof.
  intros F B.
  assert (T : 0 <= top \/ hs = []).
  { destruct hs as [|h hs']; [right; reflexivity|left].
    inversion F; subst. lia. }
  destruct T as [T | ->]; [|repeat split; constructor].
  destruct (hr_emitted_increasing top hs 0 F) as [S A]; [lia | lia |].
  apply StronglySorted_inv in S. destruct S as [S _].
  split; [exact S|].
  rewrite returned_emitted.
  pose proof (texts_sorted _ S A) as TS.
  split; [exact TS | apply texts_NoDup; exact TS].
Qed.

Lemma returned_timestamps_increase_witness :
  StronglySorted Z.lt (TimestampHr.emitted [5000; 5000; 4000; 7000] 0)
  /\ StronglySorted (fun s t => String.compare s t = Lt)
       (TimestampRuns.returned [5000; 5000; 4000; 7000] 0)
  /\ NoDup (TimestampRuns.returned [5000; 5000; 4000; 7000] 0).
Proof.
  apply (returned_timestamps_increase 7000).
  - repeat constructor; lia.
  - cbn [List.length].
    assert (T53 : 2 ^ 53 = 9007199254740992) by reflexivity. lia.
Defined.

(** *** At any magnitude *)

Lemma run_emitted rs : forall st,
  Timestamp.run rs st = map formatTimestamp (Timestamp.emitted rs st).
Proof.
  induction rs as [|r rs IH]; intros st;
    cbn [Timestamp.run Timestamp.emitted map
         Timestamp.generateUniqueTimestamp]; [reflexivity|].
  rewrite IH. reflexivity.
Qed.

Lemma emitted_representable rs : forall st,
  representable (Timestamp.lastTimestampNs st) ->
  0 <= Timestamp.lastTimestampNs st ->
  Forall representable (Timestamp.emitted rs st).
Proof.
  induction rs as [|r rs IH]; intros st R H; cbn [Timestamp.emitted];
    constructor.
  - apply (advance_never_back r st R H).
  - destruct (advance_never_back r st R H) as [Up R'].
    apply IH; [exact R' | lia].
Qed.

Lemma hr_emitted_representable hs : forall l,
  representable l -> 0 <= l ->
  Forall representable (TimestampHr.emitted hs l).
Proof.
  induction hs as [|h hs IH]; intros l R H; cbn [TimestampHr.emitted];
    constructor.
  - apply (hr_never_back h l R H).
  - destruct (hr_never_back h l R H) as [Up R'].
    apply IH; [exact R' | lia].
Qed.

Lemma texts_never_back l :
  StronglySorted Z.le l -> Forall representable l ->
  Forall (fun v => 0 <= v < 8589934592000000000) l ->
  StronglySorted (fun s t => String.leb s t = true) (map formatTimestamp l).
Proof.
  induction 1 as [|a l S IH F]; intros R A; cbn [map]; constructor.
  - apply IH; [inversion R | inversion A]; assumption.
  - inversion A as [|a' l' Aa Al]; subst.
    inversion R as [|a' l' Ra Rl]; subst.
    rewrite Forall_forall in *. intros t I.
    apply in_map_iff in I. destruct I as (w & <- & Iw).
    specialize (F w Iw). specialize (Al w Iw). specialize (Rl w Iw).
    cbn beta in Al. unfold String.leb.
    destruct (Z.eq_dec a w) as [->|N].
    + rewrite compare_refl_s. reflexivity.
    + rewrite formatTimestamp_lt by (assumption || lia). reflexivity.
Qed.

Lemma sorted_tail_bounds l :
  StronglySorted Z.le (0 :: l) ->
  Forall (fun v => v < 8589934592000000000) l ->
  StronglySorted Z.le l
  /\ Forall (fun v => 0 <= v < 8589934592000000000) l.
Proof.
  intros S B. apply StronglySorted_inv in S. destruct S as [S P].
  split; [exact S|].
  rewrite Forall_forall in *. intros v I.
  specialize (P v I). specialize (B v I). cbn beta in *. lia.
Qed.

(** X4.  In both revisions, and also where the values repeat: as long as
    the emitted values lie before 16 March 2242, each call returns a
    text that does not come before any text returned earlier, in the
    order of strings.  Entries sorted by their timestamp text are in
    the order in which they were stamped. *)
Theorem returned_text_never_decreases (rs : list Timestamp.readings)
    (hs : list Z) :
  Forall (fun v => v < 8589934592000000000)
    (Timestamp.emitted rs Timestamp.initial) ->
  Forall (fun v => v < 8589934592000000000) (TimestampHr.emitted hs 0) ->
  StronglySorted (fun s t => String.leb s t = true)
    (Timestamp.run rs Timestamp.initial)
  /\ StronglySorted (fun s t => String.leb s t = true)
       (TimestampRuns.returned hs 0).
Proof.
  intros B B'. split.
  - rewrite run_emitted.
    destruct (sorted_tail_bounds _
                (emitted_sorted rs Timestamp.initial eq_refl (Z.le_refl 0)) B)
      as [S A].
    apply texts_never_back; [exact S | | exact A].
    apply emitted_representable; [reflexivity | cbn; lia].
  - rewrite returned_emitted.
    destruct (sorted_tail_bounds _ (hr_emitted_sorted hs 0 eq_refl (Z.le_refl 0)) B')
      as [S A].
    apply texts_never_back; [exact S | | exact A].
    apply hr_emitted_representable; [reflexivity | lia].
Qed.

Lemma returned_text_never_decreases_witness :
  StronglySorted (fun s t => String.leb s t = true)
    (Timestamp.run
       [Timestamp.mkReadings 1760000000000 5000 5000;
        Timestamp.mkReadings 1760000000001 5000 5000;
        Timestamp.mkReadings 1760000000001 9000 9000]
       Timestamp.initial)
  /\ StronglySorted (fun s t => String.leb s t = true)
       (TimestampRuns.returned [5000; 5000; 4000; 7000] 0).
Proof.
  assert (E : Timestamp.emitted
                [Timestamp.mkReadings 1760000000000 5000 5000;
                 Timestamp.mkReadings 1760000000001 5000 5000;
                 Timestamp.mkReadings 1760000000001 9000 9000]
                Timestamp.initial
              = [1760000000000000000; 1760000000000000000;
                 1760000000000004096])
    by (vm_compute; reflexivity).
  assert (E' : TimestampHr.emitted [5000; 5000; 4000; 7000] 0
               = [5000; 5001; 5002; 7000])
    by (vm_compute; reflexivity).
  apply returned_text_never_decreases; [rewrite E | rewrite E'];
    repeat (constructor; [lia|]); constructor.
Defined.

(** *** How exact a timestamp is *)

(** X5.  In the revision with the baseline, a call whose clock reading is
    ahead of the last value emits the wall clock of the first call plus
    the time elapsed on the timer since, to within 1536 ns, as long as
    the wall clock is before the year 2248 and the process has run
    less than 2^53 ns: what rounding to a number costs, and no
    more. *)
Theorem emitted_accuracy (before : list Timestamp.readings)
    (r : Timestamp.readings) :
  let st := Timestamp.stateAfter before Timestamp.initial in
  let first := hd r before in
  let elapsed :=
    Timestamp.hrtimeCurrent r - Timestamp.hrtimeBaseline first in
  0 <= Timestamp.dateNow first < 2 ^ 43 -> 0 <= elapsed < 2 ^ 53 ->
  Double.leb (Timestamp.candidate r st) (Timestamp.lastTimestampNs st)
  = false ->
  Z.abs (Timestamp.lastTimestampNs (Timestamp.advance r st)
         - (Timestamp.dateNow first * 1000000 + elapsed)) <= 1536.
Proof.
  intros st first elapsed Hm He H.
  pose proof (TimestampFacts.candidate_accuracy before r Hm He) as A.
  cbv zeta in A. fold st first in A.
  unfold Timestamp.advance.
  destruct (Timestamp.baselineOf r st) as [wallMs baseHr].
  cbn [Timestamp.lastTimestampNs]. rewrite H. exact A.
Qed.

Lemma emitted_accuracy_witness :
  Z.abs (Timestamp.lastTimestampNs
           (Timestamp.advance (Timestamp.mkReadings 1760000000007 9000 5500)
              (Timestamp.stateAfter
                 [Timestamp.mkReadings 1760000000000 5000 5000]
                 Timestamp.initial))
         - (1760000000000 * 1000000 + (5500 - 5000))) <= 1536.
Proof.
  apply (emitted_accuracy [Timestamp.mkReadings 1760000000000 5000 5000]
           (Timestamp.mkReadings 1760000000007 9000 5500)).
  - cbn. assert (T : 2 ^ 43 = 8796093022208) by reflexivity. lia.
  - cbn. assert (T : 2 ^ 53 = 9007199254740992) by reflexivity. lia.
  - vm_compute. reflexivity.
Defined.

End TimestampRunsFacts.

(* ================================================================= *)
(** ** Runs of the sender *)

Module SenderRunsFacts.

Import Sender SenderFacts SenderRuns.

Section Runs.
Variable JSON_stringify : list LogEntry -> result string.
Variable JSON_parse : string -> parsed.

Lemma step_dispatched ev s :
  let s' := snd (step JSON_stringify JSON_parse ev s) in
  dispatched s' = dispatched s
  \/ (logQueue s <> []
      /\ dispatched s' = dispatched s ++ [firstn (Z.to_nat BATCH_SIZE) (logQueue s)]
      /\ logQueue s' = skipn (Z.to_nat BATCH_SIZE) (logQueue s)).
Proof.
  cbn zeta.
  assert (SB : forall t, logQueue t = logQueue s -> dispatched t = dispatched s ->
            dispatched (snd (sendBatch JSON_stringify t)) = dispatched s
            \/ (logQueue s <> []
                /\ dispatched (snd (sendBatch JSON_stringify t))
                   = dispatched s ++ [firstn (Z.to_nat BATCH_SIZE) (logQueue s)]
                /\ logQueue (snd (sendBatch JSON_stringify t))
                   = skipn (Z.to_nat BATCH_SIZE) (logQueue s))).
  { intros t Q D. destruct (logQueue t) as [|e q] eqn:E.
    - left. rewrite sendBatch_empty by exact E. exact D.
    - right. destruct (sendBatch_takes JSON_stringify t) as (A & B & _);
        [congruence|]. cbn zeta in A, B.
      rewrite A, B, D, <- Q, E. repeat split. discriminate. }
  destruct ev as [entry| | | |logs x]; cbn [step].
  - left. apply addLog_dispatched.
  - apply SB; reflexivity.
  - unfold tick, bind, get, ret. destruct (intervalId s).
    + apply SB; reflexivity.
    + left. reflexivity.
  - rewrite shutdown_eq. cbn [snd]. destruct (stopped s); [left; reflexivity|].
    apply SB; destruct (intervalId s); reflexivity.
  - left. apply (preserves_resume JSON_parse dispatched); reflexivity.
Qed.

Lemma run_wellSized evs : forall s,
  Forall wellSized (dispatched s) ->
  Forall wellSized (dispatched (run JSON_stringify JSON_parse evs s)).
Proof.
  induction evs as [|ev rest IH]; intros s H; cbn [run]; [exact H|].
  apply IH.
  destruct (step_dispatched ev s) as [E | (NE & E & _)]; cbn zeta in E;
    rewrite E; [exact H|].
  apply Forall_app. split; [exact H|]. constructor; [|constructor].
  unfold wellSized, BATCH_SIZE. rewrite length_firstn.
  destruct (logQueue s); [congruence|]. cbn [List.length]. lia.
Qed.

(** X6.  Whatever happens to a sender, every batch it hands to
    [sendHTTPRequest] holds at least one entry and at most
    [BATCH_SIZE]: no empty request is made and none is oversized. *)
Theorem batches_well_sized (c : Config) (evs : list event) :
  Forall wellSized (dispatched (run JSON_stringify JSON_parse evs (create c))).
Proof. apply run_wellSized. constructor. Qed.


Lemma sendBatch_delivered s :
  let s' := snd (sendBatch JSON_stringify s) in
  delivered s' = delivered s /\ stopped s' = stopped s /\ qlen s' <= qlen s.
Proof.
  destruct (sendBatch_frame JSON_stringify s) as (A & _ & C).
  cbn zeta in *. split; [|split; assumption].
  unfold delivered.
  destruct (logQueue s) as [|e q] eqn:E.
  - rewrite sendBatch_empty by exact E. cbn [snd]. rewrite E. reflexivity.
  - destruct (sendBatch_takes JSON_stringify s) as (Q & D & _); [congruence|].
    cbn zeta in Q, D. rewrite Q, D, concat_app. cbn [List.concat].
    rewrite app_nil_r, <- app_assoc, firstn_skipn, E. reflexivity.
Qed.

Lemma step_delivered ev s :
  stopped s = false -> isShutdown ev = false ->
  qlen s + Z.of_nat (List.length (enqueuedBy ev)) <= QUEUE_CAPACITY ->
  let s' := snd (step JSON_stringify JSON_parse ev s) in
  delivered s' = delivered s ++ enqueuedBy ev
  /\ stopped s' = false
  /\ qlen s' <= qlen s + Z.of_nat (List.length (enqueuedBy ev)).
Proof.
  intros R NS Cap. cbn zeta. unfold QUEUE_CAPACITY in *.
  destruct ev as [entry| | | |logs x]; cbn [step enqueuedBy] in *;
    try discriminate.
  - rewrite addLog_eq, R. cbn [snd List.length] in *.
    unfold QUEUE_CAPACITY. destruct (Z.leb_spec 10000 (qlen s)); [lia|].
    unfold delivered, qlen. cbn. rewrite length_app, app_assoc. cbn.
    repeat split; [exact R | lia].
  - destruct (sendBatch_delivered s) as (A & B & C). cbn zeta in *.
    unfold flush. rewrite A, B, app_nil_r. cbn [List.length]. repeat split; [exact R | lia].
  - unfold tick, bind, get, ret. destruct (intervalId s).
    + destruct (sendBatch_delivered s) as (A & B & C). cbn zeta in *.
      rewrite A, B, app_nil_r. cbn [List.length]. repeat split; [exact R | lia].
    + cbn [snd List.length]. rewrite app_nil_r. repeat split; [exact R | lia].
  - unfold delivered, qlen.
    rewrite (preserves_resume JSON_parse dispatched),
      (preserves_resume JSON_parse logQueue),
      (preserves_resume JSON_parse stopped) by reflexivity.
    rewrite !app_nil_r. cbn [List.length]. repeat split; [exact R | lia].
Qed.

Lemma run_delivered evs : forall s,
  stopped s = false ->
  existsb isShutdown evs = false ->
  qlen s + Z.of_nat (List.length (enqueued evs)) <= QUEUE_CAPACITY ->
  delivered (run JSON_stringify JSON_parse evs s) = delivered s ++ enqueued evs.
Proof.
  induction evs as [|ev rest IH]; intros s R NS Cap; cbn [run enqueued flat_map].
  - rewrite app_nil_r. reflexivity.
  - cbn [existsb] in NS. apply orb_false_elim in NS. destruct NS as [N1 N2].
    unfold enqueued in Cap. cbn [flat_map] in Cap. rewrite length_app in Cap.
    destruct (step_delivered ev s R N1) as (A & B & C); [lia|]. cbn zeta in *.
    fold (enqueued rest). rewrite IH; auto.
    + rewrite A, app_assoc. reflexivity.
    + fold (enqueued rest) in Cap. lia.
Qed.

(** X8.  As long as [shutdown] is not called and no more than
    [QUEUE_CAPACITY] entries are logged in all, whatever the
    interleaving of [addLog], [flush], timer ticks and ends of
    exchanges: the batches dispatched so far, one after the other,
    followed by the queue, are exactly the entries passed to [addLog]
    in call order.  Nothing is lost, duplicated or reordered. *)
Theorem delivery_in_order (c : Config) (evs : list event) :
  existsb isShutdown evs = false ->
  Z.of_nat (List.length (enqueued evs)) <= QUEUE_CAPACITY ->
  delivered (run JSON_stringify JSON_parse evs (create c)) = enqueued evs.
Proof.
  intros NS Cap. rewrite run_delivered; auto.
Qed.

(** X12.  [shutdown] sends one batch only, but [flush] still works on a
    stopped sender: after [shutdown] on a running sender, calling
    [flush] until the queue is empty (ten calls suffice) dispatches
    every entry that was queued, in order. *)
Theorem flush_recovers_after_shutdown (s : sender) :
  stopped s = false -> qlen s <= QUEUE_CAPACITY ->
  let d := drain JSON_stringify 10 (snd (shutdown JSON_stringify s)) in
  logQueue d = []
  /\ List.concat (dispatched d) = List.concat (dispatched s) ++ logQueue s.
Proof.
  intros R Cap. cbn zeta.
  assert (D : delivered (snd (shutdown JSON_stringify s)) = delivered s
              /\ qlen (snd (shutdown JSON_stringify s)) <= qlen s).
  { rewrite shutdown_eq, R. cbn [snd].
    match goal with |- context [sendBatch _ ?t] =>
      destruct (sendBatch_delivered t) as (A & _ & C) end.
    cbn zeta in *. rewrite A. split; [|destruct (intervalId s); exact C].
    destruct (intervalId s); reflexivity. }
  destruct D as [D Q].
  destruct (drain_all JSON_stringify 10 (snd (shutdown JSON_stringify s)))
    as [E F].
  { unfold QUEUE_CAPACITY, BATCH_SIZE in *. lia. }
  split; [exact E|]. rewrite F. exact D.
Qed.

Lemma sendBatch_balance s :
  Z.abs (inFlightRequests s) < 2 ^ 53 - 1 ->
  let s' := snd (sendBatch JSON_stringify s) in
  balance s' = balance s
  /\ Z.abs (inFlightRequests s') <= Z.abs (inFlightRequests s) + 1.
Proof.
  intros H. cbn zeta. rewrite sendBatch_eq. cbn [snd].
  destruct (logQueue s) as [|e q]; [split; lia|].
  rewrite start_eq. cbn zeta.
  assert (Up : Double.add (inFlightRequests s) 1 = inFlightRequests s + 1)
    by (apply DoubleFacts.add_small; lia).
  destruct (JSON_stringify _) as [body|msg]; unfold balance; cbn;
    rewrite Up.
  - rewrite length_app. cbn [List.length]. split; lia.
  - rewrite DoubleFacts.sub_small by lia. split; lia.
Qed.

Lemma step_balance ev s :
  Z.abs (inFlightRequests s) < 2 ^ 53 - 1 ->
  let s' := snd (step JSON_stringify JSON_parse ev s) in
  balance s' = balance s - (if isSettle ev then 1 else 0)
  /\ Z.abs (inFlightRequests s') <= Z.abs (inFlightRequests s) + 1.
Proof.
  intros H. cbn zeta.
  destruct ev as [entry| | | |logs x]; cbn [step isSettle].
  - rewrite addLog_eq. cbn [snd]. destruct (stopped s); [split; lia|].
    destruct (QUEUE_CAPACITY <=? qlen s); unfold balance; cbn; split; lia.
  - destruct (sendBatch_balance s H) as [A B]. unfold flush. split; lia.
  - unfold tick, bind, get, ret. destruct (intervalId s).
    + destruct (sendBatch_balance s H) as [A B]. split; lia.
    + cbn. split; lia.
  - rewrite shutdown_eq. cbn [snd]. destruct (stopped s); [split; lia|].
    match goal with |- context [sendBatch _ ?t] =>
      destruct (sendBatch_balance t) as [A B] end.
    { destruct (intervalId s); exact H. }
    cbn zeta in A, B.
    destruct (intervalId s); unfold balance in *; cbn in *; split; lia.
  - unfold balance. rewrite resume_counter.
    rewrite (preserves_resume JSON_parse requests) by reflexivity.
    rewrite DoubleFacts.sub_small by lia. split; lia.
Qed.

Lemma run_balance evs : forall s,
  Z.abs (inFlightRequests s) + Z.of_nat (List.length evs) < 2 ^ 53 ->
  balance (run JSON_stringify JSON_parse evs s) = balance s - settled evs.
Proof.
  unfold settled.
  induction evs as [|ev rest IH]; intros s H; cbn [run filter List.length] in *.
  - lia.
  - destruct (step_balance ev s) as [A B]; [lia|]. cbn zeta in *.
    rewrite IH by lia. rewrite A.
    destruct (isSettle ev); cbn [List.length]; lia.
Qed.

(** X13.  In every run from a new sender the counter [inFlightRequests]
    is the number of requests made less the number of exchanges that
    have ended; a dispatch whose body could not be serialised makes no
    request and leaves the counter as it was. *)
Theorem in_flight_accounting (c : Config) (evs : list event) :
  Z.of_nat (List.length evs) < 2 ^ 53 ->
  let s := run JSON_stringify JSON_parse evs (create c) in
  inFlightRequests s = Z.of_nat (List.length (requests s)) - settled evs.
Proof.
  intros H. cbn zeta.
  pose proof (run_balance evs (create c)) as B.
  unfold balance in B. cbn [create inFlightRequests requests List.length] in B.
  specialize (B ltac:(cbn; lia)). lia.
Qed.


(** **** What reaches the caller *)

(** X14.  No call of [addLog], [flush] or [shutdown], no timer tick and no
    end of an exchange throws, whatever [JSON.stringify] and
    [JSON.parse] do and however the exchange ends: a failure is
    written to [console.error] and goes no further. *)
Theorem calls_never_throw (ev : event) (s : sender) :
  fst (step JSON_stringify JSON_parse ev s) = Ok tt.
Proof.
  destruct ev as [entry| | | |logs x]; cbn [step].
  - rewrite addLog_eq. reflexivity.
  - unfold flush. rewrite sendBatch_eq. reflexivity.
  - unfold tick, bind, get, ret. destruct (intervalId s);
      [rewrite sendBatch_eq|]; reflexivity.
  - rewrite shutdown_eq. reflexivity.
  - rewrite resume_eq. reflexivity.
Qed.

(** **** The queue *)

Lemma step_qlen ev s :
  qlen (snd (step JSON_stringify JSON_parse ev s))
  <= Z.max (qlen s) QUEUE_CAPACITY.
Proof.
  destruct ev as [entry| | | |logs x]; cbn [step].
  - rewrite addLog_eq. cbn [snd]. destruct (stopped s); [lia|].
    destruct (Z.leb_spec QUEUE_CAPACITY (qlen s)); unfold qlen in *;
      cbn [logQueue addConsole setQueue]; [lia|].
    rewrite length_app. cbn [List.length]. lia.
  - destruct (sendBatch_frame JSON_stringify s) as (_ & _ & C).
    unfold flush. cbn zeta in C. lia.
  - unfold tick, bind, get, ret. destruct (intervalId s); cbn [snd]; [|lia].
    destruct (sendBatch_frame JSON_stringify s) as (_ & _ & C).
    cbn zeta in C. lia.
  - rewrite shutdown_eq. cbn [snd]. destruct (stopped s); [lia|].
    match goal with |- context [sendBatch _ ?t] =>
      destruct (sendBatch_frame JSON_stringify t) as (_ & _ & C) end.
    cbn zeta in C.
    destruct (intervalId s); unfold qlen in *;
      cbn [logQueue setIntervalId setStopped] in C; lia.
  - unfold qlen.
    rewrite (preserves_resume JSON_parse logQueue) by reflexivity. lia.
Qed.

Lemma run_qlen evs : forall s,
  qlen s <= QUEUE_CAPACITY ->
  qlen (run JSON_stringify JSON_parse evs s) <= QUEUE_CAPACITY.
Proof.
  induction evs as [|ev rest IH]; intros s H; cbn [run]; [exact H|].
  apply IH. pose proof (step_qlen ev s). lia.
Qed.

(** X7.  In every run from a new sender the queue holds at most
    [QUEUE_CAPACITY] entries, however fast entries are logged and
    however slowly batches leave. *)
Theorem queue_never_exceeds_capacity (c : Config) (evs : list event) :
  qlen (run JSON_stringify JSON_parse evs (create c)) <= QUEUE_CAPACITY.
Proof.
  apply run_qlen. unfold QUEUE_CAPACITY. cbn. lia.
Qed.

(** **** The timer *)

Lemma run_app evs1 : forall evs2 s,
  run JSON_stringify JSON_parse (evs1 ++ evs2) s
  = run JSON_stringify JSON_parse evs2
      (run JSON_stringify JSON_parse evs1 s).
Proof.
  induction evs1 as [|ev rest IH]; intros evs2 s; cbn [app run];
    [reflexivity | apply IH].
Qed.

Lemma step_interval ev s :
  isShutdown ev = false ->
  intervalId (snd (step JSON_stringify JSON_parse ev s)) = intervalId s.
Proof.
  intros NS. destruct ev as [entry| | | |logs x]; cbn [step];
    try discriminate.
  - rewrite addLog_eq. cbn [snd]. destruct (stopped s); [reflexivity|].
    destruct (QUEUE_CAPACITY <=? qlen s); reflexivity.
  - destruct (sendBatch_frame JSON_stringify s) as (_ & B & _). exact B.
  - unfold tick, bind, get, ret. destruct (intervalId s) eqn:E;
      [|cbn [snd]; exact E].
    destruct (sendBatch_frame JSON_stringify s) as (_ & B & _).
    cbn zeta in B. rewrite B. exact E.
  - apply (preserves_resume JSON_parse intervalId); reflexivity.
Qed.

Lemma run_interval evs : forall s,
  existsb isShutdown evs = false ->
  intervalId (run JSON_stringify JSON_parse evs s) = intervalId s.
Proof.
  induction evs as [|ev rest IH]; intros s NS; cbn [run]; [reflexivity|].
  cbn [existsb] in NS. apply orb_false_elim in NS. destruct NS as [N1 N2].
  rewrite IH by exact N2. apply step_interval. exact N1.
Qed.

(** On a sender whose timer is set, [n] ticks do what [n] calls of
    [flush] do. *)
Lemma ticks_drain n : forall s,
  intervalId s = true ->
  run JSON_stringify JSON_parse (repeat Tick n) s = drain JSON_stringify n s.
Proof.
  induction n as [|n IH]; intros s T; cbn [repeat run drain];
    [reflexivity|].
  cbn [step]. unfold tick, bind, get, ret. rewrite T.
  destruct (logQueue s) as [|e q] eqn:Q.
  - rewrite sendBatch_empty by exact Q. cbn [snd].
    rewrite IH by exact T. destruct n; cbn [drain]; [reflexivity|].
    rewrite Q. reflexivity.
  - unfold flush. apply IH.
    destruct (sendBatch_frame JSON_stringify s) as (_ & B & _).
    cbn zeta in B. rewrite B. exact T.
Qed.

(** X9.  The timer alone delivers.  As long as [shutdown] is not called
    and no more than [QUEUE_CAPACITY] entries are logged in all, ten
    ticks of the timer after the last event leave the queue empty, and
    the batches dispatched, one after the other, are exactly the
    entries passed to [addLog], in call order. *)
Theorem ticks_deliver_everything (c : Config) (evs : list event) :
  existsb isShutdown evs = false ->
  Z.of_nat (List.length (enqueued evs)) <= QUEUE_CAPACITY ->
  let s := run JSON_stringify JSON_parse (evs ++ repeat Tick 10) (create c) in
  logQueue s = [] /\ List.concat (dispatched s) = enqueued evs.
Proof.
  intros NS Cap. cbn zeta. rewrite run_app.
  set (s := run JSON_stringify JSON_parse evs (create c)).
  assert (T : intervalId s = true).
  { unfold s. rewrite run_interval by exact NS. reflexivity. }
  assert (Q : qlen s <= QUEUE_CAPACITY).
  { unfold s. apply run_qlen. unfold QUEUE_CAPACITY. cbn. lia. }
  assert (D : delivered s = enqueued evs).
  { unfold s. rewrite run_delivered; auto. }
  rewrite ticks_drain by exact T.
  destruct (drain_all JSON_stringify 10 s) as [E F].
  { unfold QUEUE_CAPACITY, BATCH_SIZE in *. lia. }
  split; [exact E|]. rewrite F. exact D.
Qed.

(** **** Drops *)

Lemma qf_addConsole d s :
  isQueueFull d = false ->
  queueFullLines (addConsole d s) = queueFullLines s.
Proof.
  intros H. unfold queueFullLines. cbn [console addConsole].
  rewrite filter_app. cbn [filter]. rewrite H, app_nil_r. reflexivity.
Qed.

Lemma qf_consoleError d :
  isQueueFull d = false -> preserves queueFullLines (consoleError d).
Proof. intros H s. apply qf_addConsole. exact H. Qed.

Lemma qf_reportRejected sentLogs error :
  preserves queueFullLines (reportRejected sentLogs error).
Proof.
  unfold reportRejected.
  destruct (_ && _); [|apply preserves_ret].
  apply preserves_bind; [apply qf_consoleError; reflexivity|]. intros _.
  destruct (arrayGet sentLogs (index error)) as [l|];
    [|apply preserves_throw].
  repeat (apply preserves_bind;
          [apply qf_consoleError; reflexivity | intros _]).
  destruct (0 <? List.length (fields l))%nat;
    [apply qf_consoleError; reflexivity | apply preserves_ret].
Qed.

Lemma qf_handleRejectedLogs response sentLogs :
  preserves queueFullLines (handleRejectedLogs response sentLogs).
Proof.
  unfold handleRejectedLogs.
  apply preserves_bind; [apply qf_consoleError; reflexivity|]. intros _.
  destruct (errors response) as [[|e es]|]; try apply preserves_ret.
  apply preserves_bind; [apply qf_consoleError; reflexivity|]. intros _.
  apply preserves_forOf. intros x. apply qf_reportRejected.
Qed.

Lemma qf_afterRequest logs x :
  preserves queueFullLines (afterRequest JSON_parse logs x).
Proof.
  unfold afterRequest. destruct x as [status body|msg];
    [|apply preserves_throw].
  destruct (_ && _); [apply qf_consoleError; reflexivity|].
  destruct (JSON_parse body) as [m| | |r];
    [apply preserves_ret | apply preserves_throw | apply preserves_ret |].
  destruct (Qlt_bool 0 (rejected r));
    [apply qf_handleRejectedLogs | apply preserves_ret].
Qed.

Lemma qf_resume logs x s :
  queueFullLines (snd (sendHTTPRequestResume JSON_parse logs x s))
  = queueFullLines s.
Proof.
  rewrite resume_eq. cbn [snd].
  assert (H : preserves queueFullLines
                (tryCatch (afterRequest JSON_parse logs x) onError)).
  { apply preserves_tryCatch; [apply qf_afterRequest|].
    intros msg. apply qf_consoleError. reflexivity. }
  rewrite <- (H s). reflexivity.
Qed.

Lemma qf_sendBatch s :
  queueFullLines (snd (sendBatch JSON_stringify s)) = queueFullLines s.
Proof.
  rewrite sendBatch_eq. cbn [snd].
  destruct (logQueue s) as [|e q]; [reflexivity|].
  rewrite start_eq. cbn zeta.
  destruct (JSON_stringify _) as [body|msg]; cbn [snd]; [reflexivity|].
  unfold queueFullLines. cbn [console setInFlight addConsole addDispatched
                              setQueue].
  rewrite filter_app. cbn [filter isQueueFull]. rewrite app_nil_r.
  reflexivity.
Qed.

Lemma step_drops ev s :
  stopped s = false -> isShutdown ev = false ->
  let s' := snd (step JSON_stringify JSON_parse ev s) in
  Z.of_nat (List.length (delivered s')) + queueFullLines s'
  = Z.of_nat (List.length (delivered s)) + queueFullLines s
    + Z.of_nat (List.length (enqueuedBy ev))
  /\ stopped s' = false.
Proof.
  intros R NS. cbn zeta.
  destruct ev as [entry| | | |logs x]; cbn [step enqueuedBy List.length];
    try discriminate.
  - rewrite addLog_eq, R. cbn [snd].
    destruct (QUEUE_CAPACITY <=? qlen s).
    + split; [|exact R]. unfold queueFullLines, delivered.
      cbn [console addConsole dispatched logQueue].
      rewrite filter_app, !length_app.
      cbn [filter isQueueFull List.length]. lia.
    + split; [|exact R]. unfold queueFullLines, delivered.
      cbn [console setQueue dispatched logQueue].
      rewrite !length_app. cbn [List.length]. lia.
  - destruct (sendBatch_delivered s) as (A & B & _). cbn zeta in A, B.
    unfold flush. rewrite A, B, qf_sendBatch. split; [lia | exact R].
  - unfold tick, bind, get, ret. destruct (intervalId s); cbn [snd].
    + destruct (sendBatch_delivered s) as (A & B & _). cbn zeta in A, B.
      rewrite A, B, qf_sendBatch. split; [lia | exact R].
    + split; [lia | exact R].
  - rewrite qf_resume. unfold delivered.
    rewrite (preserves_resume JSON_parse dispatched),
      (preserves_resume JSON_parse logQueue),
      (preserves_resume JSON_parse stopped) by reflexivity.
    split; [lia | exact R].
Qed.

Lemma run_drops evs : forall s,
  stopped s = false -> existsb isShutdown evs = false ->
  Z.of_nat (List.length (delivered (run JSON_stringify JSON_parse evs s)))
  + queueFullLines (run JSON_stringify JSON_parse evs s)
  = Z.of_nat (List.length (delivered s)) + queueFullLines s
    + Z.of_nat (List.length (enqueued evs)).
Proof.
  induction evs as [|ev rest IH]; intros s R NS; cbn [run].
  - cbn. lia.
  - cbn [existsb] in NS. apply orb_false_elim in NS. destruct NS as [N1 N2].
    destruct (step_drops ev s R N1) as [A B]. cbn zeta in A, B.
    rewrite (IH _ B N2), A.
    change (enqueued (ev :: rest)) with (enqueuedBy ev ++ enqueued rest).
    rewrite length_app. lia.
Qed.

(** X11.  Until [shutdown] is called no entry is dropped in silence: in
    every run the entries passed to [addLog] are as many as the
    entries dispatched or still queued plus the lines
    [log queue full, dropping log] written to [console.error]. *)
Theorem drops_are_reported (c : Config) (evs : list event) :
  existsb isShutdown evs = false ->
  let s := run JSON_stringify JSON_parse evs (create c) in
  Z.of_nat (List.length (enqueued evs))
  = Z.of_nat (List.length (delivered s)) + queueFullLines s.
Proof.
  intros NS. cbn zeta.
  pose proof (run_drops evs (create c) eq_refl NS) as H.
  change (delivered (create c)) with (@nil LogEntry) in H.
  change (queueFullLines (create c)) with 0 in H.
  cbn [List.length] in H. lia.
Qed.

(** **** Nothing is invented *)

Lemma Subsequence_refl {A} (l : list A) : Subsequence l l.
Proof. induction l; constructor; assumption. Qed.

Lemma Subsequence_nil {A} (l : list A) : Subsequence [] l.
Proof. induction l; constructor; assumption. Qed.

Lemma Subsequence_app {A} (a b c d : list A) :
  Subsequence a b -> Subsequence c d -> Subsequence (a ++ c) (b ++ d).
Proof.
  intros H K. induction H; cbn [app]; try constructor; assumption.
Qed.

Lemma step_appends ev s :
  let s' := snd (step JSON_stringify JSON_parse ev s) in
  delivered s' = delivered s \/ delivered s' = delivered s ++ enqueuedBy ev.
Proof.
  cbn zeta. destruct ev as [entry| | | |logs x]; cbn [step enqueuedBy].
  - rewrite addLog_eq. cbn [snd]. destruct (stopped s); [left; reflexivity|].
    destruct (QUEUE_CAPACITY <=? qlen s); [left; reflexivity|].
    right. unfold delivered. cbn [dispatched logQueue setQueue].
    rewrite app_assoc. reflexivity.
  - left. apply sendBatch_delivered.
  - left. unfold tick, bind, get, ret. destruct (intervalId s);
      [apply sendBatch_delivered | reflexivity].
  - left. rewrite shutdown_eq. cbn [snd].
    destruct (stopped s); [reflexivity|].
    match goal with |- context [sendBatch _ ?t] =>
      destruct (sendBatch_delivered t) as (A & _) end.
    cbn zeta in A. rewrite A. destruct (intervalId s); reflexivity.
  - left. unfold delivered.
    rewrite (preserves_resume JSON_parse dispatched),
      (preserves_resume JSON_parse logQueue) by reflexivity.
    reflexivity.
Qed.

Lemma run_appends evs : forall s,
  exists l, delivered (run JSON_stringify JSON_parse evs s) = delivered s ++ l
            /\ Subsequence l (enqueued evs).
Proof.
  induction evs as [|ev rest IH]; intros s; cbn [run].
  - exists []. rewrite app_nil_r. split; [reflexivity | constructor].
  - destruct (IH (snd (step JSON_stringify JSON_parse ev s))) as (l & E & S).
    change (enqueued (ev :: rest)) with (enqueuedBy ev ++ enqueued rest).
    destruct (step_appends ev s) as [K|K]; cbn zeta in K; rewrite K in E.
    + exists l. split; [exact E|].
      change l with ([] ++ l).
      apply Subsequence_app; [apply Subsequence_nil | exact S].
    + exists (enqueuedBy ev ++ l). rewrite app_assoc. split; [exact E|].
      apply Subsequence_app; [apply Subsequence_refl | exact S].
Qed.

(** X10.  In every run from a new sender, with drops at a full queue and
    after [shutdown]: the batches dispatched, one after the other,
    followed by the queue, are the entries passed to [addLog] with
    some left out.  The sender never dispatches an entry twice, never
    changes the order of two entries and never sends an entry it was
    not given. *)
Theorem delivered_is_subsequence (c : Config) (evs : list event) :
  Subsequence (delivered (run JSON_stringify JSON_parse evs (create c)))
    (enqueued evs).
Proof.
  destruct (run_appends evs (create c)) as (l & E & S).
  rewrite E. exact S.
Qed.

(** **** The end of an exchange *)

(** X15.  However an exchange ends, the batch it carried is not taken up
    again: the queue, the batches dispatched, the requests made and
    the stopped flag are as before, so a batch the server refused or
    that never arrived is not retried.  A failed request and a
    response of a status other than 200 and 202 write one line each
    to [console.error] and nothing else. *)
Theorem failed_batch_is_dropped (logs : list LogEntry) (x : exchange)
    (s : sender) :
  let s' := snd (sendHTTPRequestResume JSON_parse logs x s) in
  logQueue s' = logQueue s
  /\ dispatched s' = dispatched s
  /\ requests s' = requests s
  /\ stopped s' = stopped s
  /\ match x with
     | Fails msg => console s' = console s ++ [RequestFailed msg]
     | Responds status body =>
         if (status =? 200) || (status =? 202) then True
         else console s' = console s ++ [ServerStatus status body]
     end.
Proof.
  cbn zeta.
  rewrite (preserves_resume JSON_parse logQueue),
    (preserves_resume JSON_parse dispatched),
    (preserves_resume JSON_parse requests),
    (preserves_resume JSON_parse stopped) by reflexivity.
  repeat split.
  destruct x as [status body|msg]; [|reflexivity].
  destruct (status =? 200) eqn:E1; [exact I|].
  destruct (status =? 202) eqn:E2; [exact I|].
  cbn [orb]. rewrite resume_eq. cbn [snd].
  unfold tryCatch, afterRequest. rewrite E1, E2. reflexivity.
Qed.

(** X16.  A response of status 200 or 202 that reports rejections at
    integer indices: the promise is fulfilled, the counter goes down
    by one, and [console.error] gets the count, the heading and, for
    each record inside the batch, the index and the level, message,
    timestamp and fields of the entry at that index.  Records with
    an index outside the batch are passed over. *)
Theorem rejections_are_reported (logs : list LogEntry) (status : Z)
    (body : string) (a n : Q) (m : option string) (rs : list (Z * string))
    (s : sender) :
  status = 200 \/ status = 202 ->
  JSON_parse body = Parsed (mkResponse a n m (Some (map rejectedAt rs))) ->
  Qlt_bool 0 n = true -> rs <> [] ->
  let r := sendHTTPRequestResume JSON_parse logs (Responds status body) s in
  fst r = Ok tt
  /\ inFlightRequests (snd r) = Double.sub (inFlightRequests s) 1
  /\ console (snd r)
     = console s ++ [RejectedCount n; RejectedDetails]
         ++ flat_map (fun r => linesFor logs (fst r) (snd r)) rs.
Proof.
  intros St P N NE. cbn zeta.
  rewrite resume_counter. rewrite resume_eq. cbn [fst snd].
  split; [reflexivity|]. split; [reflexivity|].
  cbn [console setInFlight].
  unfold tryCatch, afterRequest.
  assert (S2 : negb (status =? 200) && negb (status =? 202) = false).
  { destruct St as [-> | ->]; reflexivity. }
  rewrite S2, P. cbn [rejected]. rewrite N.
  destruct (handleRejectedLogs_integer logs a n m rs s NE) as [A B].
  cbn zeta in A, B.
  destruct (handleRejectedLogs _ logs s) as [res s1]. cbn [fst snd] in *.
  subst res. exact B.
Qed.

End Runs.

(** **** The wait that ends shutdown *)

Lemma waitLoop_bounded d startTime polls : forall k,
  0 < d -> 0 <= startTime ->
  (forall i now s, nth_error polls i = Some (now, s) ->
     startTime + d * (k + Z.of_nat i) <= now < 2 ^ 53) ->
  0 <= k -> polls <> [] ->
  5000 <= d * (k + Z.of_nat (List.length polls) - 1) ->
  exists n, waitLoop startTime polls = Some n
            /\ (n = O \/ d * (k + Z.of_nat n - 1) < 5000).
Proof.
  induction polls as [|[now s] rest IH]; intros k Hd Hs Hp Hk NE Hl;
    [congruence|].
  cbn [waitLoop]. unfold stillWaiting.
  destruct (Hp O now s eq_refl) as [P1 P2].
  replace (k + Z.of_nat 0) with k in P1 by lia.
  assert (P0 : 0 <= d * k) by nia.
  rewrite DoubleFacts.sub_small by lia.
  destruct (0 <? inFlightRequests s); cbn [andb]; [|exists O; auto].
  destruct (Z.ltb_spec (now - startTime) 5000) as [W|W]; [|exists O; auto].
  destruct rest as [|p rest'].
  { cbn [List.length] in Hl. replace (k + Z.of_nat 1 - 1) with k in Hl by lia.
    lia. }
  destruct (IH (k + 1)) as (n & E & B); try lia; try discriminate.
  - intros i now' s' Hi. specialize (Hp (S i) now' s' Hi).
    replace (k + 1 + Z.of_nat i) with (k + Z.of_nat (S i)) by lia. exact Hp.
  - replace (k + 1 + Z.of_nat (List.length (p :: rest')) - 1)
      with (k + Z.of_nat (List.length ((now, s) :: p :: rest')) - 1)
      by (cbn [List.length]; lia).
    exact Hl.
  - exists (S n). rewrite E. split; [reflexivity|]. right.
    destruct B as [-> | B].
    + replace (k + Z.of_nat 1 - 1) with k by lia. lia.
    + replace (k + Z.of_nat (S n) - 1) with (k + 1 + Z.of_nat n - 1) by lia.
      exact B.
Qed.

(** X17.  [shutdown] does not wait for ever.  Let the clock advance by at
    least [d] ms from one evaluation of the loop condition to the next
    (the loop sleeps 100 ms in between).  Then the loop ends, whatever
    the counter of requests in flight does, and it has slept [n] times
    with [d * (n - 1) < 5000]: at most 50 times for [d = 100]. *)
Theorem shutdown_wait_ends (d startTime : Z) (polls : list (Z * sender)) :
  0 < d -> 0 <= startTime ->
  (forall i now s, nth_error polls i = Some (now, s) ->
     startTime + d * Z.of_nat i <= now < 2 ^ 53) ->
  5000 <= d * (Z.of_nat (List.length polls) - 1) ->
  exists n, waitLoop startTime polls = Some n
            /\ d * (Z.of_nat n - 1) < 5000.
Proof.
  intros Hd Hs Hp Hl.
  assert (Hp0 : forall i now s, nth_error polls i = Some (now, s) ->
            startTime + d * (0 + Z.of_nat i) <= now < 2 ^ 53).
  { intros i now s Hi. specialize (Hp i now s Hi). lia. }
  assert (NE : polls <> []).
  { intros ->. cbn [List.length] in Hl. lia. }
  destruct (waitLoop_bounded d startTime polls 0 Hd Hs Hp0 (Z.le_refl 0) NE)
    as (n & E & B); [lia|].
  exists n. split; [exact E|]. destruct B as [-> | B]; lia.
Qed.

(** X18.  With every request made also ended, the counter is at zero and
    the loop that ends [shutdown] does not sleep at all: [shutdown]
    waits only for requests that are in flight. *)
Theorem idle_sender_does_not_wait
    (JSON_stringify : list LogEntry -> result string)
    (JSON_parse : string -> parsed) (c : Config) (evs : list event)
    (startTime now : Z) (polls : list (Z * sender)) :
  Z.of_nat (List.length evs) < 2 ^ 53 ->
  let s := run JSON_stringify JSON_parse evs (create c) in
  settled evs = Z.of_nat (List.length (requests s)) ->
  inFlightRequests s = 0
  /\ waitLoop startTime ((now, s) :: polls) = Some O.
Proof.
  intros H s E.
  pose proof (run_balance JSON_stringify JSON_parse evs (create c)) as B.
  unfold balance in B.
  cbn [create inFlightRequests requests List.length] in B.
  specialize (B ltac:(cbn; lia)). fold s in B.
  assert (Z0 : inFlightRequests s = 0) by lia.
  split; [exact Z0|].
  cbn [waitLoop]. unfold stillWaiting. rewrite Z0. reflexivity.
Qed.

(** *** The theorems at concrete senders *)

Lemma delivery_in_order_witness :
  delivered (run aStringify aParse someEvents (create aConfig))
  = enqueued someEvents.
Proof.
  apply delivery_in_order; [reflexivity | vm_compute; discriminate].
Defined.

Lemma ticks_deliver_everything_witness :
  let s := run aStringify aParse (someEvents ++ repeat Tick 10)
             (create aConfig) in
  logQueue s = [] /\ List.concat (dispatched s) = enqueued someEvents.
Proof.
  apply ticks_deliver_everything; [reflexivity | vm_compute; discriminate].
Defined.

Lemma drops_are_reported_witness :
  let s := run aStringify aParse someEvents (create aConfig) in
  Z.of_nat (List.length (enqueued someEvents))
  = Z.of_nat (List.length (delivered s)) + queueFullLines s.
Proof.
  apply drops_are_reported. reflexivity.
Defined.

Lemma flush_recovers_after_shutdown_witness :
  let s := addLogs (entries 1001) (create aConfig) in
  let d := drain aStringify 10 (snd (shutdown aStringify s)) in
  logQueue d = []
  /\ List.concat (dispatched d) = List.concat (dispatched s) ++ logQueue s.
Proof.
  apply (flush_recovers_after_shutdown aStringify
           (addLogs (entries 1001) (create aConfig)));
    [vm_compute; reflexivity | vm_compute; discriminate].
Defined.

Lemma in_flight_accounting_witness :
  let s := run aStringify aParse someEvents (create aConfig) in
  inFlightRequests s = Z.of_nat (List.length (requests s)) - settled someEvents.
Proof.
  apply in_flight_accounting. vm_compute. reflexivity.
Defined.

Lemma rejections_are_reported_witness :
  let s := create aConfig in
  let r := sendHTTPRequestResume aParse (entries 2) (Responds 202 "{}") s in
  fst r = Ok tt
  /\ inFlightRequests (snd r) = Double.sub (inFlightRequests s) 1
  /\ console (snd r)
     = console s ++ [RejectedCount 1; RejectedDetails]
         ++ flat_map (fun r => linesFor (entries 2) (fst r) (snd r))
              [(0, "too long"%string)].
Proof.
  apply (rejections_are_reported aParse (entries 2) 202 "{}" 1 1 None
           [(0, "too long"%string)] (create aConfig));
    [right; reflexivity | reflexivity | reflexivity | discriminate].
Defined.

Lemma idle_sender_does_not_wait_witness :
  let s := run aStringify aParse
             [AddLog (entryNo 0); Flush;
              Settle [entryNo 0] (Responds 202 "{}")] (create aConfig) in
  inFlightRequests s = 0
  /\ waitLoop 1000 ((1000, s) :: []) = Some O.
Proof.
  apply (idle_sender_does_not_wait aStringify aParse aConfig
           [AddLog (entryNo 0); Flush;
            Settle [entryNo 0] (Responds 202 "{}")] 1000 1000 []);
    vm_compute; reflexivity.
Defined.

Lemma shutdown_wait_ends_witness :
  let s := setInFlight 1 (create aConfig) in
  exists n,
    waitLoop 1000 [(1000, s); (3500, s); (6000, s)] = Some n
    /\ 2500 * (Z.of_nat n - 1) < 5000.
Proof.
  apply (shutdown_wait_ends 2500 1000); [lia | lia | | cbn [List.length]; lia].
  intros i now s H.
  assert (T53 : 2 ^ 53 = 9007199254740992) by reflexivity.
  destruct i as [|[|[|i]]]; cbn [nth_error] in H;
    try (injection H as <- <-; lia).
  destruct i; discriminate.
Defined.

End SenderRunsFacts.

(* ================================================================= *)
(** ** Trimmed messages *)

Module TrimFacts.

Import Formatting FormattingFacts.

(** A string that does not start with white space is its own
    [trimStart]. *)
Lemma trimStart_fixed s :
  match s with
  | [] => True
  | c :: _ => isWhiteSpace c = false
  end -> trimStart s = s.
Proof.
  destruct s as [|c rest]; [reflexivity|].
  cbn [trimStart]. intros ->. reflexivity.
Qed.

Lemma trimStart_idem s : trimStart (trimStart s) = trimStart s.
Proof. apply trimStart_fixed. apply trimStart_head. Qed.

(** What [trim] returns starts with no white space. *)
Lemma trim_head s :
  match trim s with
  | [] => True
  | c :: _ => isWhiteSpace c = false
  end.
Proof.
  unfold trim, trimEnd.
  destruct (trimStart_split (rev (trimStart s))) as (pre & Hs & _).
  apply (f_equal (@rev N)) in Hs.
  rewrite rev_involutive, rev_app_distr in Hs.
  pose proof (trimStart_head s) as H.
  destruct (rev (trimStart (rev (trimStart s)))) as [|c rest]; [exact I|].
  rewrite Hs in H. exact H.
Qed.

(** A string with no white space at either end is its own [trim]. *)
Lemma trim_fixed s :
  trimStart s = s -> trimStart (rev s) = rev s -> trim s = s.
Proof.
  intros A B. unfold trim, trimEnd. rewrite A, B. apply rev_involutive.
Qed.

Lemma trim_idem s : trim (trim s) = trim s.
Proof.
  apply trim_fixed.
  - apply trimStart_fixed. apply trim_head.
  - unfold trim, trimEnd. rewrite rev_involutive. apply trimStart_idem.
Qed.

Lemma isWhiteSpace_stop : isWhiteSpace 46 = false.
Proof. reflexivity. Qed.

Lemma truncated_fixed t :
  MAX_MESSAGE_LENGTH < jslength t -> trim t = t ->
  trim (substring0 (MAX_MESSAGE_LENGTH - 3) t ++ ellipsis)
  = substring0 (MAX_MESSAGE_LENGTH - 3) t ++ ellipsis.
Proof.
  intros L T. apply trim_fixed.
  - apply trimStart_fixed.
    pose proof (trim_head t) as H. rewrite T in H.
    destruct t as [|c rest]; [cbn in L; unfold MAX_MESSAGE_LENGTH in L; lia|].
    exact H.
  - rewrite rev_app_distr. reflexivity.
Qed.

Lemma formatMessage_fixed m :
  trim (formatMessage m) = formatMessage m
  /\ jslength (formatMessage m) <= MAX_MESSAGE_LENGTH.
Proof.
  unfold formatMessage.
  destruct (Z.ltb_spec MAX_MESSAGE_LENGTH (jslength (trim m))) as [L|L].
  - split; [apply truncated_fixed; [exact L | apply trim_idem]|].
    rewrite firstn_ellipsis_length by exact L. lia.
  - split; [apply trim_idem | exact L].
Qed.

(** X19.  What [formatMessage] returns has no white space at either end, and
    formatting it again changes nothing: a message that passed through
    one transport or logger can pass through another. *)
Theorem formatMessage_idempotent (message : jsstring) :
  trim (formatMessage message) = formatMessage message
  /\ formatMessage (formatMessage message) = formatMessage message.
Proof.
  destruct (formatMessage_fixed message) as [T L].
  split; [exact T|].
  unfold formatMessage at 1. rewrite T.
  destruct (Z.ltb_spec MAX_MESSAGE_LENGTH (jslength (formatMessage message)));
    [lia | reflexivity].
Qed.

(** *** Messages that passed [validateLogMessage] *)

Import Validation.

(** X20.  [LogBullLogger.log] formats only messages that passed
    [validateLogMessage].  For those, [formatMessage] is [trim]: the
    entry carries the whole trimmed message, between 1 and 10000 code
    units, and the truncating branch is never taken.  A message that
    is empty or only white space, or longer than 10000 code units once
    trimmed, is refused. *)
Theorem validated_message_is_kept (message : jsstring) :
  validateLogMessage message = Sender.Ok tt
  <-> formatMessage message = trim message
      /\ 1 <= jslength (trim message) <= 10000.
Proof.
  unfold validateLogMessage, formatMessage, Validation.MAX_MESSAGE_LENGTH,
    Formatting.MAX_MESSAGE_LENGTH.
  destruct (trim message) as [|c rest] eqn:E.
  - split; [discriminate|]. cbn. intros [_ H]. lia.
  - destruct (Z.ltb_spec 10000 (jslength (c :: rest))) as [L|L].
    + split; [discriminate|]. intros [_ H]. lia.
    + split; [|reflexivity]. intros _. split; [reflexivity|].
      split; [|exact L]. unfold jslength. cbn [List.length]. lia.
Qed.

End TrimFacts.

(* ================================================================= *)
(** ** ensureFields and mergeFields *)

Module FieldsFacts.

Import Formatting FormattingFacts TrimFacts Fields.

Lemma jseqb_eq a : forall b, jseqb a b = true <-> a = b.
Proof.
  induction a as [|x a IH]; intros [|y b]; cbn [jseqb];
    try (split; [discriminate | congruence]); [split; reflexivity|].
  rewrite andb_true_iff, N.eqb_eq, IH. split.
  - intros [-> ->]. reflexivity.
  - intros E. injection E as -> ->. split; reflexivity.
Qed.

Lemma jseqb_refl a : jseqb a a = true.
Proof. apply jseqb_eq. reflexivity. Qed.

Lemma jseqb_neq a b : a <> b -> jseqb a b = false.
Proof.
  intros N. destruct (jseqb a b) eqn:E; [|reflexivity].
  apply jseqb_eq in E. contradiction.
Qed.

Lemma jseqb_false a b : jseqb a b = false -> a <> b.
Proof. intros E ->. rewrite jseqb_refl in E. discriminate. Qed.

Section WithValues.

Variable other : Type.
Variable quote : jsstring -> jsstring.
Variable stringifyOther : other -> Sender.result (option jsstring).
Variable stringOther : other -> Sender.result jsstring.

Implicit Types (o acc a b r : object other) (v w : value other).
Implicit Types (k key : jsstring) (es : list (jsstring * value other)).

(** *** Assignment *)

Lemma get_assign k k' v o :
  get k (assign k' v o) = if jseqb k k' then Some v else get k o.
Proof.
  induction o as [|[k0 v0] rest IH]; cbn [assign get].
  - destruct (jseqb k k'); reflexivity.
  - destruct (jseqb k' k0) eqn:E; cbn [get].
    + apply jseqb_eq in E. subst k0. destruct (jseqb k k'); reflexivity.
    + rewrite IH. destruct (jseqb k k0) eqn:F; [|reflexivity].
      apply jseqb_eq in F. subst k0.
      destruct (jseqb k k') eqn:G; [|reflexivity].
      apply jseqb_eq in G. subst k'. rewrite jseqb_refl in E. discriminate.
Qed.

Lemma keys_assign k v o :
  keys (assign k v o) = if existsb (jseqb k) (keys o) then keys o
                        else keys o ++ [k].
Proof.
  unfold keys. induction o as [|[k0 v0] rest IH]; cbn [assign map existsb];
    [reflexivity|].
  destruct (jseqb k k0) eqn:E; cbn [orb map fst].
  - apply jseqb_eq in E. subst k0. rewrite jseqb_refl. reflexivity.
  - rewrite IH, E. cbn [orb].
    destruct (existsb (jseqb k) (map fst rest)); reflexivity.
Qed.

Lemma existsb_jseqb k (l : list jsstring) :
  existsb (jseqb k) l = true <-> In k l.
Proof.
  rewrite existsb_exists. split.
  - intros (x & I & E). apply jseqb_eq in E. subst x. exact I.
  - intros I. exists k. split; [exact I | apply jseqb_refl].
Qed.

Lemma assign_In k v k' w o :
  In (k', w) (assign k v o) -> (k' = k /\ w = v) \/ In (k', w) o.
Proof.
  induction o as [|[k0 v0] rest IH]; cbn [assign].
  - intros [E|[]]. injection E as <- <-. left. split; reflexivity.
  - destruct (jseqb k k0) eqn:E.
    + intros [F|I]; [injection F as <- <-; left; split; reflexivity|].
      right. right. exact I.
    + intros [F|I]; [right; left; exact F|].
      destruct (IH I) as [L|R]; [left; exact L | right; right; exact R].
Qed.

Lemma NoDup_keys_assign k v o : NoDup (keys o) -> NoDup (keys (assign k v o)).
Proof.
  intros H. rewrite keys_assign.
  destruct (existsb (jseqb k) (keys o)) eqn:E; [exact H|].
  apply NoDup_app; [exact H | repeat constructor; intros [] |].
  intros x Ix [<-|[]].
  apply existsb_jseqb in Ix. congruence.
Qed.

Lemma get_In k v o : get k o = Some v -> In (k, v) o.
Proof.
  induction o as [|[k0 v0] rest IH]; cbn [get]; [discriminate|].
  destruct (jseqb k k0) eqn:E.
  - intros F. injection F as ->. apply jseqb_eq in E. subst k0.
    left. reflexivity.
  - intros F. right. apply IH. exact F.
Qed.

Lemma In_get k v o : NoDup (keys o) -> In (k, v) o -> get k o = Some v.
Proof.
  unfold keys. induction o as [|[k0 v0] rest IH]; cbn [get map fst];
    intros ND I; [destruct I|].
  inversion ND as [|x xs NI ND']; subst.
  destruct I as [E|I].
  - injection E as -> ->. rewrite jseqb_refl. reflexivity.
  - destruct (jseqb k k0) eqn:E.
    + apply jseqb_eq in E. subst k0. exfalso. apply NI.
      apply in_map_iff. exists (k, v). split; [reflexivity | exact I].
    + apply IH; assumption.
Qed.

Lemma get_None k o : get k o = None <-> ~ In k (keys o).
Proof.
  unfold keys. induction o as [|[k0 v0] rest IH]; cbn [get map fst In].
  - split; [intros _ [] | reflexivity].
  - destruct (jseqb k k0) eqn:E.
    + apply jseqb_eq in E. subst k0. split; [discriminate|].
      intros N. exfalso. apply N. left. reflexivity.
    + apply jseqb_false in E. rewrite IH. split.
      * intros N [F|I]; [congruence | contradiction].
      * intros N I. apply N. right. exact I.
Qed.

(** *** What is written is serialisable *)

Lemma serializable_Str (s : jsstring) :
  isJSONSerializable quote stringifyOther (Str s) = true.
Proof. reflexivity. Qed.

Lemma convertToString_value v w :
  isJSONSerializable quote stringifyOther v = false ->
  convertToString quote stringifyOther stringOther v = Sender.Ok w ->
  exists s, w = Str s /\ stringOf stringOther v = Sender.Ok s.
Proof.
  unfold isJSONSerializable, convertToString.
  destruct v as [| |s|o]; cbn [JSON_stringify]; try discriminate.
  destruct (stringifyOther o) as [r|msg]; [discriminate|]. intros _.
  destruct (stringOf stringOther (Other o)) as [s|msg'];
    [|discriminate].
  intros E. injection E as <-. exists s. split; reflexivity.
Qed.

(** One turn of the loop of [ensureFields] that goes on: what it
    writes, if anything. *)
Lemma ensure_turn key v rest acc o :
  ensureLoop quote stringifyOther stringOther ((key, v) :: rest) acc
  = Returns o ->
  exists acc',
    ensureLoop quote stringifyOther stringOther rest acc' = Returns o
    /\ (acc' = acc /\ (trim key = [] \/ trim key = proto)
        \/ exists w,
             acc' = assign (trim key) w acc
             /\ trim key <> [] /\ trim key <> proto
             /\ isJSONSerializable quote stringifyOther w = true
             /\ (isJSONSerializable quote stringifyOther v = true /\ w = v
                 \/ isJSONSerializable quote stringifyOther v = false
                    /\ exists s, w = Str s
                         /\ stringOf stringOther v = Sender.Ok s)).
Proof.
  cbn [ensureLoop]. cbv zeta.
  destruct (trim key) as [|c t] eqn:T.
  { intros E. exists acc. split; [exact E|]. left. split; [reflexivity|].
    left. reflexivity. }
  assert (W : forall w,
            isJSONSerializable quote stringifyOther w = true ->
            (isJSONSerializable quote stringifyOther v = true /\ w = v
             \/ isJSONSerializable quote stringifyOther v = false
                /\ exists s, w = Str s
                     /\ stringOf stringOther v = Sender.Ok s) ->
            match setProperty (c :: t) w acc with
            | Some formatted' =>
                ensureLoop quote stringifyOther stringOther rest formatted'
            | None => PrototypeReplaced
            end = Returns o ->
            exists acc',
              ensureLoop quote stringifyOther stringOther rest acc'
              = Returns o
              /\ (acc' = acc /\ (c :: t = [] \/ c :: t = proto)
                  \/ exists w0,
                       acc' = assign (c :: t) w0 acc
                       /\ c :: t <> [] /\ c :: t <> proto
                       /\ isJSONSerializable quote stringifyOther w0 = true
                       /\ (isJSONSerializable quote stringifyOther v = true
                           /\ w0 = v
                           \/ isJSONSerializable quote stringifyOther v = false
                              /\ exists s, w0 = Str s
                                   /\ stringOf stringOther v = Sender.Ok s))).
  { intros w Sw Hw. unfold setProperty.
    destruct (jseqb (c :: t) proto) eqn:P.
    - apply jseqb_eq in P.
      destruct w; try discriminate; intros E; exists acc;
        (split; [exact E|]); left; (split; [reflexivity|]); right; exact P.
    - apply jseqb_false in P. intros E. exists (assign (c :: t) w acc).
      split; [exact E|]. right. exists w.
      repeat split; try assumption. discriminate. }
  destruct (isJSONSerializable quote stringifyOther v) eqn:S.
  - apply W; [exact S|]. left. split; reflexivity.
  - destruct (convertToString quote stringifyOther stringOther v)
      as [w|msg] eqn:C; [|discriminate].
    destruct (convertToString_value v w S C) as (s & -> & St).
    apply W; [reflexivity|]. right. split; [reflexivity|].
    exists s. split; [reflexivity | exact St].
Qed.

Lemma sanitized_nil : sanitized quote stringifyOther (@nil (jsstring * value other)).
Proof. split; constructor. Qed.

Lemma sanitized_assign k w acc :
  sanitized quote stringifyOther acc ->
  trim k = k -> k <> [] -> k <> proto ->
  isJSONSerializable quote stringifyOther w = true ->
  sanitized quote stringifyOther (assign k w acc).
Proof.
  intros [ND F] T NE NP S. split; [apply NoDup_keys_assign; exact ND|].
  rewrite Forall_forall in *. intros [k' w'] I.
  apply assign_In in I. destruct I as [[-> ->]|I]; [|apply F; exact I].
  cbn [fst snd]. repeat split; assumption.
Qed.

Lemma ensureLoop_sanitized es : forall acc o,
  ensureLoop quote stringifyOther stringOther es acc = Returns o ->
  sanitized quote stringifyOther acc -> sanitized quote stringifyOther o.
Proof.
  induction es as [|[key v] rest IH]; intros acc o E S.
  - cbn [ensureLoop] in E. injection E as <-. exact S.
  - destruct (ensure_turn key v rest acc o E) as (acc' & E' & H).
    apply (IH acc' o E').
    destruct H as [[-> _]|(w & -> & NE & NP & Sw & _)]; [exact S|].
    apply sanitized_assign; try assumption. apply trim_idem.
Qed.

(** Every key of the result is the trimmed key of an entry. *)
Lemma ensureLoop_keys es : forall acc o,
  ensureLoop quote stringifyOther stringOther es acc = Returns o ->
  forall k, In k (keys o) ->
    In k (keys acc) \/ exists key v, In (key, v) es /\ trim key = k.
Proof.
  induction es as [|[key v] rest IH]; intros acc o E k I.
  - cbn [ensureLoop] in E. injection E as <-. left. exact I.
  - destruct (ensure_turn key v rest acc o E) as (acc' & E' & H).
    destruct (IH acc' o E' k I) as [J|(key' & v' & J & T)].
    + destruct H as [[-> _]|(w & -> & _)]; [left; exact J|].
      rewrite keys_assign in J.
      destruct (existsb (jseqb (trim key)) (keys acc)); [left; exact J|].
      apply in_app_or in J. destruct J as [J|[<-|[]]]; [left; exact J|].
      right. exists key, v. split; [left; reflexivity | reflexivity].
    + right. exists key', v'. split; [right; exact J | exact T].
Qed.

(** Entries with another trimmed key leave the property [k] alone. *)
Lemma ensureLoop_other_keys k es : forall acc o,
  ensureLoop quote stringifyOther stringOther es acc = Returns o ->
  Forall (fun e => trim (fst e) <> k) es ->
  get k o = get k acc.
Proof.
  induction es as [|[key v] rest IH]; intros acc o E F.
  - cbn [ensureLoop] in E. injection E as <-. reflexivity.
  - inversion F as [|e es' Fk Frest]; subst. cbn [fst] in Fk.
    destruct (ensure_turn key v rest acc o E) as (acc' & E' & H).
    rewrite (IH acc' o E' Frest).
    destruct H as [[-> _]|(w & -> & _)]; [reflexivity|].
    rewrite get_assign, jseqb_neq by congruence. reflexivity.
Qed.

(** *** ensureFields *)

Lemma ensureFields_sanitized fields o :
  ensureFields quote stringifyOther stringOther fields = Returns o ->
  sanitized quote stringifyOther o.
Proof.
  destruct fields as [es|]; cbn [ensureFields]; intros E.
  - apply (ensureLoop_sanitized es [] o E), sanitized_nil.
  - injection E as <-. apply sanitized_nil.
Qed.


(** X22.  The last entry with a given trimmed key decides the property of
    that name, whatever the entries before it hold: a value
    [JSON.stringify] accepts is stored as it is, any other value as
    the string [String] makes of it. *)
Theorem ensureFields_keeps
    (before after : list (jsstring * value other)) (key : jsstring)
    (v : value other) (o : object other) :
  ensureFields quote stringifyOther stringOther
    (Some (before ++ (key, v) :: after)) = Returns o ->
  trim key <> [] -> trim key <> proto ->
  Forall (fun e => trim (fst e) <> trim key) after ->
  if isJSONSerializable quote stringifyOther v
  then get (trim key) o = Some v
  else exists s, stringOf stringOther v = Sender.Ok s
                 /\ get (trim key) o = Some (Str s).
Proof.
  cbn [ensureFields]. intros E NE NP F.
  assert (G : forall acc,
            ensureLoop quote stringifyOther stringOther
              (before ++ (key, v) :: after) acc = Returns o ->
            if isJSONSerializable quote stringifyOther v
            then get (trim key) o = Some v
            else exists s, stringOf stringOther v = Sender.Ok s
                           /\ get (trim key) o = Some (Str s)).
  { clear E. induction before as [|[key0 v0] rest IH]; intros acc E.
    - cbn [app] in E.
      destruct (ensure_turn key v after acc o E) as (acc' & E' & H).
      pose proof (ensureLoop_other_keys (trim key) after acc' o E' F) as K.
      destruct H as [[_ [H|H]]|(w & -> & _ & _ & _ & H)];
        [contradiction | contradiction |].
      rewrite get_assign, jseqb_refl in K.
      destruct H as [[S ->]|(S & s & -> & St)]; rewrite S;
        [exact K | exists s; split; assumption].
    - cbn [app] in E.
      destruct (ensure_turn key0 v0 _ acc o E) as (acc' & E' & _).
      apply (IH acc' E'). }
  apply (G [] E).
Qed.

(** *** How ensureFields fails *)

Lemma ensureLoop_throws es : forall acc msg,
  ensureLoop quote stringifyOther stringOther es acc = Throws msg ->
  exists key x m,
    In (key, Other x) es
    /\ stringifyOther x = Sender.Thrown m
    /\ stringOther x = Sender.Thrown msg.
Proof.
  induction es as [|[key v] rest IH]; intros acc msg E;
    cbn [ensureLoop] in E; cbv zeta in E; [discriminate|].
  assert (Later : forall acc',
            ensureLoop quote stringifyOther stringOther rest acc'
            = Throws msg ->
            exists key0 x m,
              In (key0, Other x) ((key, v) :: rest)
              /\ stringifyOther x = Sender.Thrown m
              /\ stringOther x = Sender.Thrown msg).
  { intros acc' E'. destruct (IH acc' msg E') as (key0 & x & m & I & H).
    exists key0, x, m. split; [right; exact I | exact H]. }
  destruct (trim key) as [|c t]; [apply (Later acc E)|].
  destruct (isJSONSerializable quote stringifyOther v) eqn:S.
  - destruct (setProperty (c :: t) v acc) as [acc'|];
      [apply (Later acc' E) | discriminate].
  - destruct (convertToString quote stringifyOther stringOther v)
      as [w|msg'] eqn:C.
    + destruct (setProperty (c :: t) w acc) as [acc'|];
        [apply (Later acc' E) | discriminate].
    + injection E as ->.
      unfold isJSONSerializable, convertToString in S, C.
      destruct v as [| |s|x]; cbn [JSON_stringify stringOf] in S, C;
        try discriminate.
      destruct (stringifyOther x) as [r|m] eqn:J; [discriminate|].
      destruct (stringOther x) as [s|m'] eqn:K; [discriminate|].
      injection C as ->.
      exists key, x, m. split; [left; reflexivity|]. split; assumption.
Qed.

Lemma ensureLoop_prototype es : forall acc,
  ensureLoop quote stringifyOther stringOther es acc = PrototypeReplaced ->
  exists key v, In (key, v) es /\ trim key = proto.
Proof.
  induction es as [|[key v] rest IH]; intros acc E;
    cbn [ensureLoop] in E; cbv zeta in E; [discriminate|].
  assert (Later : forall acc',
            ensureLoop quote stringifyOther stringOther rest acc'
            = PrototypeReplaced ->
            exists key0 v0, In (key0, v0) ((key, v) :: rest)
                            /\ trim key0 = proto).
  { intros acc' E'. destruct (IH acc' E') as (key0 & v0 & I & H).
    exists key0, v0. split; [right; exact I | exact H]. }
  assert (Here : forall w, setProperty (trim key) w acc = None ->
            exists key0 v0, In (key0, v0) ((key, v) :: rest)
                            /\ trim key0 = proto).
  { intros w P. unfold setProperty in P.
    destruct (jseqb (trim key) proto) eqn:Q; [|discriminate].
    apply jseqb_eq in Q. exists key, v. split; [left; reflexivity | exact Q]. }
  destruct (trim key) as [|c t] eqn:T; [apply (Later acc E)|].
  destruct (isJSONSerializable quote stringifyOther v).
  - destruct (setProperty (c :: t) v acc) as [acc'|] eqn:P;
      [apply (Later acc' E) | apply (Here v P)].
  - destruct (convertToString quote stringifyOther stringOther v)
      as [w|msg']; [|discriminate].
    destruct (setProperty (c :: t) w acc) as [acc'|] eqn:P;
      [apply (Later acc' E) | apply (Here w P)].
Qed.

(** X23.  [ensureFields] throws only at a value that [JSON.stringify]
    refuses and [String] cannot convert either, and then with the
    error of [String].  And the one place where the call is not
    followed is an entry whose trimmed key is [__proto__]: for any
    other fields it returns or throws. *)
Theorem ensureFields_failures
    (fields : option (list (jsstring * value other))) :
  (forall msg,
     ensureFields quote stringifyOther stringOther fields = Throws msg ->
     exists entries key x m,
       fields = Some entries /\ In (key, Other x) entries
       /\ stringifyOther x = Sender.Thrown m
       /\ stringOther x = Sender.Thrown msg)
  /\ (ensureFields quote stringifyOther stringOther fields
      = PrototypeReplaced ->
      exists entries key v,
        fields = Some entries /\ In (key, v) entries /\ trim key = proto).
Proof.
  destruct fields as [es|]; cbn [ensureFields];
    [|split; [intros msg|]; discriminate].
  split.
  - intros msg E.
    destruct (ensureLoop_throws es [] msg E) as (key & x & m & I & H).
    exists es, key, x, m. split; [reflexivity|]. split; assumption.
  - intros E. destruct (ensureLoop_prototype es [] E) as (key & v & I & H).
    exists es, key, v. split; [reflexivity|]. split; assumption.
Qed.

(** *** Sanitising twice *)

Lemma ensureLoop_sanitized_input es : forall acc,
  sanitized quote stringifyOther (acc ++ es) ->
  ensureLoop quote stringifyOther stringOther es acc = Returns (acc ++ es).
Proof.
  induction es as [|[k v] rest IH]; intros acc S.
  - rewrite app_nil_r. reflexivity.
  - pose proof S as [ND F].
    rewrite Forall_forall in F.
    destruct (F (k, v)) as (T & NE & NP & Sv);
      [apply in_or_app; right; left; reflexivity|].
    cbn [fst snd] in *.
    cbn [ensureLoop]. cbv zeta. rewrite T.
    destruct k as [|c t]; [congruence|].
    rewrite Sv. unfold setProperty. rewrite (jseqb_neq _ _ NP).
    assert (A : assign (c :: t) v acc = acc ++ [(c :: t, v)]).
    { unfold keys in ND. rewrite map_app in ND. cbn [map fst] in ND.
      apply NoDup_remove_2 in ND.
      assert (NI : ~ In (c :: t) (map fst acc)).
      { intros I. apply ND. apply in_or_app. left. exact I. }
      clear - NI. induction acc as [|[k0 v0] acc' IH]; cbn [assign app];
        [reflexivity|].
      cbn [map fst In] in NI.
      rewrite jseqb_neq by (intros E; apply NI; left; symmetry; exact E).
      rewrite IH; [reflexivity|]. intros I. apply NI. right. exact I. }
    rewrite A, (IH (acc ++ [(c :: t, v)]));
      rewrite <- app_assoc; [reflexivity | exact S].
Qed.

Lemma sanitized_Permutation o es :
  sanitized quote stringifyOther o -> Permutation es o ->
  sanitized quote stringifyOther es.
Proof.
  intros [ND F] P. split.
  - unfold keys in *. eapply Permutation_NoDup; [|exact ND].
    apply Permutation_map, Permutation_sym, P.
  - eapply Permutation_Forall; [|exact F].
    apply Permutation_sym, P.
Qed.

Lemma get_Permutation o es k :
  NoDup (keys o) -> Permutation es o -> get k es = get k o.
Proof.
  intros ND P.
  assert (ND' : NoDup (keys es)).
  { unfold keys in *. eapply Permutation_NoDup; [|exact ND].
    apply Permutation_map, Permutation_sym, P. }
  destruct (get k o) as [v|] eqn:G.
  - apply In_get; [exact ND'|]. apply get_In in G.
    eapply Permutation_in; [|exact G].
    apply Permutation_sym, P.
  - apply get_None. apply get_None in G. intros I. apply G.
    unfold keys in *. eapply Permutation_in; [|exact I].
    apply Permutation_map, P.
Qed.


(** *** mergeFields *)

Lemma mergeLoop_get a : forall b,
  NoDup (keys a) -> Forall (fun kv => fst kv <> proto) a ->
  exists r, mergeLoop a b = Returns r
    /\ forall k, get k r = match get k a with
                           | Some v => Some v
                           | None => get k b
                           end.
Proof.
  induction a as [|[k0 v0] rest IH]; intros b ND F.
  - exists b. split; reflexivity.
  - inversion F as [|e es NP Frest]; subst. cbn [fst] in NP.
    unfold keys in ND. cbn [map fst] in ND.
    inversion ND as [|x xs NI ND']; subst.
    cbn [mergeLoop]. unfold setProperty. rewrite (jseqb_neq _ _ NP).
    destruct (IH (assign k0 v0 b) ND' Frest) as (r & E & G).
    exists r. split; [exact E|]. intros k. rewrite G, get_assign.
    cbn [get]. destruct (jseqb k k0) eqn:K; [|reflexivity].
    apply jseqb_eq in K. subst k0.
    assert (N : get k rest = None) by (apply get_None; exact NI).
    rewrite N. reflexivity.
Qed.

Lemma mergeLoop_sanitized a : forall b r,
  mergeLoop a b = Returns r ->
  sanitized quote stringifyOther a -> sanitized quote stringifyOther b ->
  sanitized quote stringifyOther r.
Proof.
  induction a as [|[k0 v0] rest IH]; intros b r E Sa Sb.
  - cbn [mergeLoop] in E. injection E as <-. exact Sb.
  - destruct Sa as [ND F].
    inversion F as [|e es (T & NE & NP & Sv) Frest]; subst.
    cbn [fst snd] in *.
    unfold keys in ND. cbn [map fst] in ND.
    inversion ND as [|x xs NI ND']; subst.
    cbn [mergeLoop] in E. unfold setProperty in E.
    rewrite (jseqb_neq _ _ NP) in E.
    apply (IH (assign k0 v0 b) r E); [split; assumption|].
    apply sanitized_assign; assumption.
Qed.

Lemma sanitized_no_proto o :
  sanitized quote stringifyOther o -> Forall (fun kv => fst kv <> proto) o.
Proof.
  intros [_ F]. eapply Forall_impl; [|exact F].
  intros kv (_ & _ & NP & _). exact NP.
Qed.


(** *** Fields that passed [validateLogFields] *)

Import Validation.

Lemma validateKeys_ok (ks : list jsstring) :
  validateKeys ks = Sender.Ok tt ->
  Forall (fun key => 1 <= jslength (trim key) <= MAX_FIELD_KEY_LENGTH) ks.
Proof.
  induction ks as [|key rest IH]; cbn [validateKeys]; intros E;
    [constructor|].
  cbv zeta in E. destruct (trim key) as [|c t] eqn:T; [discriminate|].
  destruct (Z.ltb_spec MAX_FIELD_KEY_LENGTH (jslength (c :: t))) as [L|L];
    [discriminate|].
  constructor; [|apply IH; exact E].
  rewrite T. split; [|exact L]. unfold jslength. cbn [List.length]. lia.
Qed.

Lemma length_assign k v o :
  (List.length (assign k v o) <= S (List.length o))%nat.
Proof.
  induction o as [|[k0 v0] rest IH]; cbn [assign List.length]; [lia|].
  destruct (jseqb k k0); cbn [List.length]; lia.
Qed.

Lemma In_keys_assign k v k' o :
  In k' (keys o) \/ k' = k -> In k' (keys (assign k v o)).
Proof.
  rewrite keys_assign. intros [I | ->].
  - destruct (existsb (jseqb k) (keys o)); [exact I|].
    apply in_or_app. left. exact I.
  - destruct (existsb (jseqb k) (keys o)) eqn:E.
    + apply existsb_jseqb. exact E.
    + apply in_or_app. right. left. reflexivity.
Qed.

Lemma ensureLoop_length es : forall acc o,
  ensureLoop quote stringifyOther stringOther es acc = Returns o ->
  (List.length o <= List.length acc + List.length es)%nat.
Proof.
  induction es as [|[key v] rest IH]; intros acc o E.
  - cbn [ensureLoop] in E. injection E as <-. lia.
  - destruct (ensure_turn key v rest acc o E) as (acc' & E' & H).
    specialize (IH acc' o E'). cbn [List.length].
    destruct H as [[-> _]|(w & -> & _)]; [lia|].
    pose proof (length_assign (trim key) w acc). lia.
Qed.

Lemma ensureLoop_present es : forall acc o,
  ensureLoop quote stringifyOther stringOther es acc = Returns o ->
  forall k,
    In k (keys acc)
    \/ (exists key v, In (key, v) es /\ trim key = k)
       /\ k <> [] /\ k <> proto ->
    In k (keys o).
Proof.
  induction es as [|[key v] rest IH]; intros acc o E k H.
  - cbn [ensureLoop] in E. injection E as <-.
    destruct H as [I|[(key & v & [] & _) _]]. exact I.
  - destruct (ensure_turn key v rest acc o E) as (acc' & E' & T).
    apply (IH acc' o E').
    destruct H as [I|[(key' & v' & [J|J] & K) [NE NP]]].
    + left. destruct T as [[-> _]|(w & -> & _)]; [exact I|].
      apply In_keys_assign. left. exact I.
    + injection J as -> ->. left.
      destruct T as [[_ [T|T]]|(w & -> & _)]; [congruence | congruence |].
      apply In_keys_assign. right. symmetry. exact K.
    + right. split; [|split; assumption].
      exists key', v'. split; assumption.
Qed.

Lemma ensureLoop_last before key v after : forall acc o,
  ensureLoop quote stringifyOther stringOther
    (before ++ (key, v) :: after) acc = Returns o ->
  trim key <> [] -> trim key <> proto ->
  Forall (fun e => trim (fst e) <> trim key) after ->
  if isJSONSerializable quote stringifyOther v
  then get (trim key) o = Some v
  else exists s, stringOf stringOther v = Sender.Ok s
                 /\ get (trim key) o = Some (Str s).
Proof.
  induction before as [|[key0 v0] rest IH]; intros acc o E NE NP F.
  - cbn [app] in E.
    destruct (ensure_turn key v after acc o E) as (acc' & E' & H).
    pose proof (ensureLoop_other_keys (trim key) after acc' o E' F) as K.
    destruct H as [[_ [H|H]]|(w & -> & _ & _ & _ & H)];
      [contradiction | contradiction |].
    rewrite get_assign, jseqb_refl in K.
    destruct H as [[S ->]|(S & s & -> & St)]; rewrite S;
      [exact K | exists s; split; assumption].
  - cbn [app] in E.
    destruct (ensure_turn key0 v0 _ acc o E) as (acc' & E' & _).
    apply (IH acc' o E' NE NP F).
Qed.

(** The last entry of a list with a given trimmed key. *)
Lemma last_entry k es :
  (exists key v, In (key, v) es /\ trim key = k) ->
  exists before key v after,
    es = before ++ (key, v) :: after /\ trim key = k
    /\ Forall (fun e => trim (fst e) <> k) after.
Proof.
  induction es as [|[key0 v0] rest IH]; intros (key & v & I & T);
    [destruct I|].
  destruct (existsb (fun e => jseqb (trim (fst e)) k) rest) eqn:X.
  - apply existsb_exists in X. destruct X as ([key1 v1] & I1 & J).
    cbn [fst] in J. apply jseqb_eq in J.
    destruct IH as (before & key2 & v2 & after & E & T2 & F);
      [exists key1, v1; split; assumption|].
    exists ((key0, v0) :: before), key2, v2, after.
    rewrite E. repeat split; assumption.
  - assert (F : Forall (fun e => trim (fst e) <> k) rest).
    { rewrite Forall_forall. intros e Ie J.
      assert (Y : existsb (fun e => jseqb (trim (fst e)) k) rest = true).
      { apply existsb_exists. exists e. split; [exact Ie|].
        apply jseqb_eq. exact J. }
      congruence. }
    destruct I as [I|I].
    + injection I as -> ->.
      exists [], key, v, rest. repeat split; assumption.
    + exfalso. rewrite Forall_forall in F. apply (F (key, v) I). exact T.
Qed.

Lemma NoDup_map_same {A B} (f : A -> B) (l : list A) x y :
  NoDup (map f l) -> In x l -> In y l -> f x = f y -> x = y.
Proof.
  induction l as [|a l IH]; cbn [map]; intros ND Ix Iy E; [destruct Ix|].
  inversion ND as [|b bs NI ND']; subst.
  destruct Ix as [->|Ix], Iy as [->|Iy].
  - reflexivity.
  - exfalso. apply NI. rewrite E. apply in_map. exact Iy.
  - exfalso. apply NI. rewrite <- E. apply in_map. exact Ix.
  - apply IH; assumption.
Qed.

(** X26.  [LogBullLogger.log] sanitises only fields that passed
    [validateLogFields].  Of those [ensureFields] drops no key: the
    trimmed key of each entry (the key [__proto__] apart, which an
    object literal cannot take as a property of its own by assignment)
    is a key of the result, and holds what the last entry with that
    trimmed key carries, sanitised.  Entries whose keys trim to the
    same text are merged, the later one winning: of
    [{"a": "1", " a": "2"}] the result is [{"a": "2"}].  Where no two
    keys trim to the same text every entry is kept with its own value,
    and the result has as many properties as the fields.  In any case
    the result has at most 100 properties, each with a key of 1 to 100
    code units. *)
Theorem validated_fields_are_kept
    (entries : list (jsstring * value other)) (o : object other) :
  validateLogFields (Some entries) = Sender.Ok tt ->
  ensureFields quote stringifyOther stringOther (Some entries) = Returns o ->
  Z.of_nat (List.length o) <= 100
  /\ Forall (fun kv => 1 <= jslength (fst kv) <= 100) o
  /\ (forall key v, In (key, v) entries -> trim key <> proto ->
        exists before key' v' after,
          entries = before ++ (key', v') :: after
          /\ trim key' = trim key
          /\ Forall (fun e => trim (fst e) <> trim key) after
          /\ if isJSONSerializable quote stringifyOther v'
             then get (trim key) o = Some v'
             else exists s, stringOf stringOther v' = Sender.Ok s
                            /\ get (trim key) o = Some (Str s))
  /\ (NoDup (map (fun e => trim (fst e)) entries) ->
      (forall key v, In (key, v) entries -> trim key <> proto ->
         if isJSONSerializable quote stringifyOther v
         then get (trim key) o = Some v
         else exists s, stringOf stringOther v = Sender.Ok s
                        /\ get (trim key) o = Some (Str s))
      /\ (Forall (fun e => trim (fst e) <> proto) entries ->
          List.length o = List.length entries)).
Proof.
  unfold validateLogFields. cbv zeta.
  destruct (Z.ltb_spec MAX_FIELDS_COUNT
              (Z.of_nat (List.length (map fst entries)))) as [L|L];
    [discriminate|].
  intros V E. apply validateKeys_ok in V.
  rewrite Forall_forall in V. cbn [ensureFields] in E.
  rewrite length_map in L. unfold MAX_FIELDS_COUNT in L.
  pose proof (ensureLoop_length entries [] o E) as Le.
  cbn [List.length] in Le.
  assert (NE : forall key v, In (key, v) entries -> trim key <> []).
  { intros key v I Z.
    assert (B : 1 <= jslength (trim key) <= MAX_FIELD_KEY_LENGTH).
    { apply (V key). apply in_map_iff. exists (key, v).
      split; [reflexivity | exact I]. }
    rewrite Z in B. cbn in B. lia. }
  assert (Last : forall key v, In (key, v) entries -> trim key <> proto ->
            exists before key' v' after,
              entries = before ++ (key', v') :: after
              /\ trim key' = trim key
              /\ Forall (fun e => trim (fst e) <> trim key) after
              /\ if isJSONSerializable quote stringifyOther v'
                 then get (trim key) o = Some v'
                 else exists s, stringOf stringOther v' = Sender.Ok s
                                /\ get (trim key) o = Some (Str s)).
  { intros key v I NP.
    destruct (last_entry (trim key) entries) as (before & key' & v' & after
                                                 & S & T & F);
      [exists key, v; split; [exact I | reflexivity]|].
    exists before, key', v', after.
    split; [exact S|]. split; [exact T|]. split; [exact F|].
    rewrite <- T. rewrite <- T in F, NP.
    apply (ensureLoop_last before key' v' after [] o);
      [rewrite <- S; exact E | | exact NP | exact F].
    apply (NE key' v'). rewrite S. apply in_or_app. right. left. reflexivity. }
  split; [lia|]. split.
  { rewrite Forall_forall. intros [k w] I. cbn [fst].
    assert (Ik : In k (keys o)).
    { unfold keys. apply in_map_iff. exists (k, w).
      split; [reflexivity|exact I]. }
    destruct (ensureLoop_keys entries [] o E k Ik) as [[]|(key & v & J & <-)].
    apply (V key). apply in_map_iff. exists (key, v).
    split; [reflexivity | exact J]. }
  split; [exact Last|].
  intros ND. split.
  - intros key v I NP.
    destruct (Last key v I NP) as (before & key' & v' & after & S & T & _ & G).
    assert (Same : (key', v') = (key, v)).
    { apply (NoDup_map_same (fun e => trim (fst e)) entries);
        [exact ND | | exact I | exact T].
      rewrite S. apply in_or_app. right. left. reflexivity. }
    injection Same as -> ->. exact G.
  - intros NoProto.
    assert (Inc : incl (map (fun e => trim (fst e)) entries) (keys o)).
    { intros k Ik. apply in_map_iff in Ik.
      destruct Ik as ([key v] & <- & I). cbn [fst].
      apply (ensureLoop_present entries [] o E). right.
      split; [exists key, v; split; [exact I | reflexivity]|].
      split; [apply (NE key v I)|].
      rewrite Forall_forall in NoProto. apply (NoProto (key, v) I). }
    apply NoDup_incl_length in Inc; [|exact ND].
    unfold keys in Inc. rewrite !length_map in Inc. lia.
Qed.

End WithValues.

(** *** The theorems at concrete fields *)


Lemma ensureFields_keeps_witness :
  exists s,
    stringOf sampleString (Other Cyclic) = Sender.Ok s
    /\ get [108; 111; 111; 112]%N sampleBaseFormatted = Some (Str s).
Proof.
  apply (ensureFields_keeps sampleOther sampleQuote sampleStringify
           sampleString [([32; 117; 115; 101; 114; 32]%N, Str [97; 110; 110]%N)]
           [([], Null)] [108; 111; 111; 112]%N (Other Cyclic)
           sampleBaseFormatted).
  - reflexivity.
  - vm_compute. discriminate.
  - vm_compute. discriminate.
  - repeat constructor. vm_compute. discriminate.
Defined.



Lemma validated_fields_are_kept_witness :
  Z.of_nat (List.length sampleAdditionalFormatted) <= 100
  /\ Forall (fun kv => 1 <= jslength (fst kv) <= 100)
       sampleAdditionalFormatted
  /\ (forall key v, In (key, v) sampleAdditional -> trim key <> proto ->
        exists before key' v' after,
          sampleAdditional = before ++ (key', v') :: after
          /\ trim key' = trim key
          /\ Forall (fun e => trim (fst e) <> trim key) after
          /\ if isJSONSerializable sampleQuote sampleStringify v'
             then get (trim key) sampleAdditionalFormatted = Some v'
             else exists s, stringOf sampleString v' = Sender.Ok s
                            /\ get (trim key) sampleAdditionalFormatted
                               = Some (Str s))
  /\ (NoDup (map (fun e => trim (fst e)) sampleAdditional) ->
      (forall key v, In (key, v) sampleAdditional -> trim key <> proto ->
         if isJSONSerializable sampleQuote sampleStringify v
         then get (trim key) sampleAdditionalFormatted = Some v
         else exists s, stringOf sampleString v = Sender.Ok s
                        /\ get (trim key) sampleAdditionalFormatted
                           = Some (Str s))
      /\ (Forall (fun e => trim (fst e) <> proto) sampleAdditional ->
          List.length sampleAdditionalFormatted
          = List.length sampleAdditional)).
Proof.
  apply (validated_fields_are_kept sampleOther sampleQuote sampleStringify
           sampleString sampleAdditional sampleAdditionalFormatted);
    reflexivity.
Defined.

(** Fields whose keys trim to the same text pass [validateLogFields],
    and [ensureFields] keeps the later value alone. *)
Example colliding_keys_merge :
  Validation.validateLogFields (Some sampleColliding) = Sender.Ok tt
  /\ ensureFields sampleQuote sampleStringify sampleString
       (Some sampleColliding)
     = Returns [([97]%N, Str [50]%N)].
Proof. split; reflexivity. Qed.

End FieldsFacts.

(* ================================================================= *)
(** ** The levels of the transports *)

Module LevelsFacts.

Import Levels.

Section WithBuiltins.

Variable toLowerCase : Formatting.jsstring -> Formatting.jsstring.

Lemma geq_mono x y n m :
  number_le x y -> n <= m -> geq x m = true -> geq y n = true.
Proof.
  destruct x as [|p|[|]], y as [|q|[|]]; cbn [number_le geq];
    try contradiction; try discriminate; try reflexivity.
  intros L H G. apply Qle_bool_iff in G. apply Qle_bool_iff.
  assert (I : (inject_Z n <= inject_Z m)%Q) by (rewrite <- Zle_Qle; exact H).
  eapply Qle_trans; [exact I|]. eapply Qle_trans; [exact G | exact L].
Qed.

(** X27.  A pino level that is a number keeps its rank: of two numeric
    levels, fractions and infinities included, the higher one is never
    given the lower priority, and both are given a level that
    [LOG_LEVEL_PRIORITY] knows. *)
Theorem convertPinoLevel_monotone (x y : number) :
  number_le x y ->
  exists p q,
    LOG_LEVEL_PRIORITY (convertPinoLevel toLowerCase (LevelNumber x)) = Some p
    /\ LOG_LEVEL_PRIORITY (convertPinoLevel toLowerCase (LevelNumber y))
       = Some q
    /\ p <= q.
Proof.
  intros L. unfold convertPinoLevel.
  pose proof (fun n m => geq_mono x y n m L) as G.
  destruct (geq x 60) eqn:X60.
  { rewrite (G 60 60) by (lia || assumption).
    exists 50, 50. repeat split; lia. }
  destruct (geq x 50) eqn:X50.
  { rewrite (G 50 50) by (lia || assumption).
    destruct (geq y 60); [exists 40, 50 | exists 40, 40]; repeat split; lia. }
  destruct (geq x 40) eqn:X40.
  { rewrite (G 40 40) by (lia || assumption).
    destruct (geq y 60); [exists 30, 50; repeat split; lia|].
    destruct (geq y 50); [exists 30, 40 | exists 30, 30]; repeat split; lia. }
  destruct (geq x 30) eqn:X30.
  { rewrite (G 30 30) by (lia || assumption).
    destruct (geq y 60); [exists 20, 50; repeat split; lia|].
    destruct (geq y 50); [exists 20, 40; repeat split; lia|].
    destruct (geq y 40); [exists 20, 30 | exists 20, 20]; repeat split; lia. }
  destruct (geq y 60); [exists 10, 50; repeat split; lia|].
  destruct (geq y 50); [exists 10, 40; repeat split; lia|].
  destruct (geq y 40); [exists 10, 30; repeat split; lia|].
  destruct (geq y 30); [exists 10, 20 | exists 10, 10]; repeat split; lia.
Qed.

(** X29.  Whatever level a log object carries -- any number, [NaN], any
    string, a name of [Object.prototype] -- both transports give the
    entry a level that [LOG_LEVEL_PRIORITY] knows; the winston
    transport never gives CRITICAL. *)
Theorem transport_levels_are_known (level : pinoLevel)
    (name : Formatting.jsstring) :
  LOG_LEVEL_PRIORITY (convertPinoLevel toLowerCase level) <> None
  /\ LOG_LEVEL_PRIORITY (convertWinstonLevel toLowerCase name) <> None
  /\ convertWinstonLevel toLowerCase name <> "CRITICAL"%string.
Proof.
  split; [|split].
  - unfold convertPinoLevel.
    repeat match goal with |- context [if ?c then _ else _] => destruct c end;
      discriminate.
  - unfold convertWinstonLevel.
    repeat match goal with |- context [if ?c then _ else _] => destruct c end;
      discriminate.
  - unfold convertWinstonLevel.
    repeat match goal with |- context [if ?c then _ else _] => destruct c end;
      discriminate.
Qed.

Lemma find_none {A} (f : A -> bool) (l : list A) :
  (forall x, In x l -> f x = false) -> find f l = None.
Proof.
  induction l as [|a l IH]; intros H; cbn [find]; [reflexivity|].
  rewrite (H a) by (left; reflexivity).
  apply IH. intros x I. apply H. right. exact I.
Qed.

Lemma existsb_none {A} (f : A -> bool) (l : list A) :
  (forall x, In x l -> f x = false) -> existsb f l = false.
Proof.
  induction l as [|a l IH]; intros H; cbn [existsb]; [reflexivity|].
  rewrite (H a) by (left; reflexivity).
  apply IH. intros x I. apply H. right. exact I.
Qed.

(** X28.  A pino level that is a string.  In any letter case a label of
    pino ([fatal], [error], [warn], [info], [debug], [trace]) is given
    the level of its number.  A string that is no label is given INFO
    -- unless it names a property every object inherits, such as
    [constructor]: the table answers that with a function, and the
    level is DEBUG. *)
Theorem convertPinoLevel_labels (s : Formatting.jsstring) :
  (forall name n, In (name, n) levelMap_entries ->
     toLowerCase s = lit name ->
     convertPinoLevel toLowerCase (LevelString s)
     = convertPinoLevel toLowerCase (LevelNumber (Finite (inject_Z n))))
  /\ (forall name, In name objectPrototypeNames ->
        toLowerCase s = lit name ->
        convertPinoLevel toLowerCase (LevelString s) = "DEBUG"%string)
  /\ ((forall name,
         In name (map fst levelMap_entries ++ objectPrototypeNames) ->
         toLowerCase s <> lit name) ->
      convertPinoLevel toLowerCase (LevelString s) = "INFO"%string).
Proof.
  unfold convertPinoLevel. split; [|split].
  - intros name n I E. rewrite E. cbn [levelMap_entries In] in I.
    repeat (destruct I as [I|I];
            [injection I as <- <-; vm_compute; reflexivity|]).
    destruct I.
  - intros name I E. rewrite E. cbn [objectPrototypeNames In] in I.
    repeat (destruct I as [I|I]; [subst name; vm_compute; reflexivity|]).
    destruct I.
  - intros N. unfold levelMap.
    rewrite find_none, existsb_none; [reflexivity | |].
    + intros x Ix. apply FieldsFacts.jseqb_neq. apply N.
      apply in_or_app. right. exact Ix.
    + intros [x n] Ix. cbn [fst]. apply FieldsFacts.jseqb_neq. apply N.
      apply in_or_app. left.
      apply in_map_iff. exists (x, n). split; [reflexivity | exact Ix].
Qed.

End WithBuiltins.

Lemma convertPinoLevel_monotone_witness :
  exists p q,
    LOG_LEVEL_PRIORITY
      (convertPinoLevel (fun s => s) (LevelNumber (Finite 35))) = Some p
    /\ LOG_LEVEL_PRIORITY
         (convertPinoLevel (fun s => s) (LevelNumber (Infinite true)))
       = Some q
    /\ p <= q.
Proof.
  apply convertPinoLevel_monotone. exact I.
Defined.

End LevelsFacts.
